(** * MusicAbility: the MIDI encoder, the WAV synthesizer and the WAV probe

    A shallow embedding of the algorithmic core of [app.py]:
    [pitch_to_midi], [_encode_varint], [_meta_tempo], [build_midi],
    [synthesize_wav] and [_wav_duration], followed by the properties the
    specification states about them.

    Conventions of the embedding.
    - Python [int] is [Z] (unbounded); [bytes] is [list byte]; [str] is
      [string], restricted to code points below 256.
    - Python [float] is an IEEE 754 binary64 number, [spec_float] with a
      53-bit mantissa: sums, products and quotients round to the nearest
      double, ties to even, and overflow to an infinity.  [int(x)] on a
      float is truncation toward zero of its exact value and raises on an
      infinity and on NaN.  The sine waves, the envelope and the scaling of
      the synthesizer are kept abstract.
    - A call that can raise, or whose loop may never exit, returns a
      [result]: [Ok v], [Raise e], or [OutOfFuel] when the loop was still
      running after the given number of iterations. *)

From Stdlib Require Import ZArith QArith Qround List String Ascii Strings.Byte Bool Lia.
From Stdlib Require Import Sorting.Sorted Sorting.Permutation.
From Stdlib Require Import Lqa.
From Stdlib Require Import Floats.SpecFloat.
Import ListNotations.
Open Scope Z_scope.

(* ===================================================================== *)
(** * Part I. The program *)
(* ===================================================================== *)

(** ** Outcomes of a call *)

Inductive exn : Type := ValueError | StructError | ZeroDivisionError | OverflowError.

Inductive result (A : Type) : Type :=
| Ok (a : A)
| Raise (e : exn)
| OutOfFuel.
Arguments Ok {A} a.
Arguments Raise {A} e.
Arguments OutOfFuel {A}.

Definition bind {A B : Type} (r : result A) (k : A -> result B) : result B :=
  match r with
  | Ok a => k a
  | Raise e => Raise e
  | OutOfFuel => OutOfFuel
  end.

Notation "x <- r ;; k" := (bind r (fun x => k))
  (at level 61, r at next level, right associativity).

(** ** Python primitives used by the program *)

(** Truncation toward zero of a rational number. *)
Definition py_int (x : Q) : Z := Z.quot (Qnum x) (Zpos (Qden x)).

(** *** Floats *)

(** A double: sign, mantissa and exponent of a finite number
    [m * 2^e], the two zeros, the two infinities, NaN. *)
Definition float : Type := spec_float.

Definition prec : Z := 53.
Definition emax : Z := 1024.

(** [x + y], [x * y], [x / y] and [x < y] on doubles. *)
Definition fadd : float -> float -> float := SFadd prec emax.
Definition fmul : float -> float -> float := SFmul prec emax.
Definition fdiv : float -> float -> float := SFdiv prec emax.
Definition flt : float -> float -> bool := SFltb.

(** [0.0] *)
Definition fzero : float := S754_zero false.

(** The double nearest to an integer; an infinity beyond the range. *)
Definition float_of_Z (z : Z) : float := binary_normalize prec emax z 0 false.

(** The double nearest to the quotient [a / b] of two integers, [b]
    positive. *)
Definition float_of_ratio (a : Z) (b : positive) : float :=
  match a with
  | Z0 => fzero
  | Zpos p => SFdiv prec emax (S754_finite false p 0) (S754_finite false b 0)
  | Zneg p => SFdiv prec emax (S754_finite true p 0) (S754_finite false b 0)
  end.

(** The exact value of a finite double, as a fraction; 0 for the others. *)
Definition exact (x : float) : Q :=
  match x with
  | S754_finite s m e =>
      let v := if s then Zneg m else Zpos m in
      match e with
      | Zneg p => Qmake v (2 ^ p)%positive
      | _ => inject_Z (v * 2 ^ e)
      end
  | _ => 0%Q
  end.

(** A float result that must be finite: [OverflowError] on an infinity. *)
Definition checked (x : float) : result float :=
  match x with
  | S754_infinity _ => Raise OverflowError
  | _ => Ok x
  end.

(** The conversion of an [int] to a float, as in [x * sample_rate]:
    "int too large to convert to float" beyond the range of a double. *)
Definition float_of_int (z : Z) : result float := checked (float_of_Z z).

(** [a / b] on two [int]s: the true quotient, rounded once. *)
Definition true_div (a b : Z) : result float :=
  match b with
  | Z0 => Raise ZeroDivisionError
  | Zpos q => checked (float_of_ratio a q)
  | Zneg q =>
      match a with
      | Z0 => Ok (S754_zero true)
      | _ => checked (float_of_ratio (- a) q)
      end
  end.

(** [int(x)] for a float [x]: truncation toward zero, [OverflowError] on
    an infinity, [ValueError] on NaN. *)
Definition int_of_float (x : float) : result Z :=
  match x with
  | S754_nan => Raise ValueError
  | S754_infinity _ => Raise OverflowError
  | _ => Ok (py_int (exact x))
  end.

(** A number of the score, as [json.loads] gives it: an [int] or a
    [float]. *)
Inductive number : Type :=
| Int (z : Z)
| Float (x : float).

(** [float(v)] *)
Definition py_float (v : number) : result float :=
  match v with
  | Int z => float_of_int z
  | Float x => Ok x
  end.

(** [max(lo, min(hi, v))]. *)
Definition clamp (lo hi v : Z) : Z := Z.max lo (Z.min hi v).

Definition byte_to_Z (b : byte) : Z := Z.of_N (Byte.to_N b).

(** One element of [bytes([...])]: a [ValueError] outside [range(256)]. *)
Definition byte_of_Z (z : Z) : result byte :=
  if z <? 0 then Raise ValueError
  else match Byte.of_N (Z.to_N z) with
       | Some b => Ok b
       | None => Raise ValueError
       end.

(** [bytes(l)] for a list of integers. *)
Fixpoint py_bytes (l : list Z) : result (list byte) :=
  match l with
  | [] => Ok []
  | z :: l' => b <- byte_of_Z z ;; bs <- py_bytes l' ;; Ok (b :: bs)
  end.

(** The byte of a value already reduced modulo 256. *)
Definition low_byte (z : Z) : byte :=
  match Byte.of_N (Z.to_N (z mod 256)) with
  | Some b => b
  | None => x00
  end.

(** [struct.pack(">I", v)]: four bytes, most significant first. *)
Definition pack_be32 (v : Z) : result (list byte) :=
  if (0 <=? v) && (v <? 2 ^ 32)
  then Ok [low_byte (v / 2 ^ 24); low_byte (v / 2 ^ 16); low_byte (v / 2 ^ 8); low_byte v]
  else Raise StructError.

(** [struct.pack(">H", v)]. *)
Definition pack_be16 (v : Z) : result (list byte) :=
  if (0 <=? v) && (v <? 2 ^ 16)
  then Ok [low_byte (v / 2 ^ 8); low_byte v]
  else Raise StructError.

(** [struct.pack("<I", v)] and [struct.pack("<H", v)]. *)
Definition pack_le32 (v : Z) : result (list byte) :=
  bs <- pack_be32 v ;; Ok (rev bs).

Definition pack_le16 (v : Z) : result (list byte) :=
  bs <- pack_be16 v ;; Ok (rev bs).

(** [struct.pack("<h", v)]: a signed 16-bit sample, two's complement. *)
Definition pack_le16s (v : Z) : result (list byte) :=
  if (- 2 ^ 15 <=? v) && (v <? 2 ^ 15)
  then Ok [low_byte v; low_byte (v / 2 ^ 8)]
  else Raise StructError.

(** The little-endian value of a run of bytes. *)
Fixpoint le_value (bs : list byte) : Z :=
  match bs with
  | [] => 0
  | b :: bs' => byte_to_Z b + 256 * le_value bs'
  end.

(** [struct.unpack_from(fmt, buf, off)[0]] for an unsigned little-endian
    field of [width] bytes: a [struct.error] when the buffer is too short. *)
Definition unpack_from_le (width : nat) (buf : list byte) (off : nat) : result Z :=
  let field := firstn width (skipn off buf) in
  if Nat.eqb (List.length field) width then Ok (le_value field) else Raise StructError.

(** The bytes of an ASCII literal such as [b"MThd"]. *)
Definition bytes_of_string (s : string) : list byte :=
  List.map byte_of_ascii (list_ascii_of_string s).

(** A stable sort by a key, as [sorted(l, key=...)] and [list.sort(key=...)]
    are: equal keys keep their input order.  [leb x y] says that the key of
    [x] is at most the key of [y]. *)
Section StableSort.
Context {A : Type} (leb : A -> A -> bool).

Fixpoint insert_sorted (x : A) (l : list A) : list A :=
  match l with
  | [] => [x]
  | y :: l' => if leb x y then x :: y :: l' else y :: insert_sorted x l'
  end.

Fixpoint stable_sort (l : list A) : list A :=
  match l with
  | [] => []
  | x :: l' => insert_sorted x (stable_sort l')
  end.
End StableSort.

(** ** Pitch names: [pitch_to_midi] *)

Definition PITCH_MIN : Z := 48.
Definition PITCH_MAX : Z := 72.

Definition code (c : ascii) : nat := nat_of_ascii c.

(** [str.isspace] on code points below 256. *)
Definition is_space (c : ascii) : bool :=
  let n := code c in
  ((9 <=? n) && (n <=? 13) || (28 <=? n) && (n <=? 32) || (n =? 133) || (n =? 160))%nat.

(** [\d] on code points below 256. *)
Definition is_digit (c : ascii) : bool :=
  let n := code c in ((48 <=? n) && (n <=? 57))%nat.

Definition digit_value (c : ascii) : Z := Z.of_nat (code c) - 48.

Fixpoint lstrip (s : list ascii) : list ascii :=
  match s with
  | c :: s' => if is_space c then lstrip s' else s
  | [] => []
  end.

(** [s.strip()]. *)
Definition strip (s : list ascii) : list ascii := rev (lstrip (rev (lstrip s))).

(** [_NOTE_MAP]: the letters [A-G], with their semitone above C. *)
Definition _NOTE_MAP (c : ascii) : option Z :=
  match c with
  | "C"%char => Some 0
  | "D"%char => Some 2
  | "E"%char => Some 4
  | "F"%char => Some 5
  | "G"%char => Some 7
  | "A"%char => Some 9
  | "B"%char => Some 11
  | _ => None
  end.

(** [_ACCID_MAP.get(acc, 0)] for the group matched by [[#b]?]. *)
Definition _ACCID_MAP_get (acc : list ascii) : Z :=
  match acc with
  | ["#"%char] => 1
  | ["b"%char] => -1
  | _ => 0
  end.

(** The three groups of [re.fullmatch(r"([A-G])([#b]?)(-?\d+)", s)]. *)
Definition pitch_groups : Type := (ascii * list ascii * list ascii)%type.

Definition is_accidental (c : ascii) : bool :=
  (Ascii.eqb c "#" || Ascii.eqb c "b")%char.

Definition all_digits (ds : list ascii) : bool :=
  match ds with
  | [] => false
  | _ => forallb is_digit ds
  end.

Definition match_octave (s : list ascii) : option (list ascii) :=
  match s with
  | "-"%char :: ds => if all_digits ds then Some s else None
  | _ => if all_digits s then Some s else None
  end.

Definition fullmatch_pitch (s : list ascii) : option pitch_groups :=
  match s with
  | c :: rest =>
      match _NOTE_MAP c with
      | None => None
      | Some _ =>
          match rest with
          | a :: rest' =>
              if is_accidental a
              then option_map (fun o => (c, [a], o)) (match_octave rest')
              else option_map (fun o => (c, [], o)) (match_octave rest)
          | [] => None
          end
      end
  | [] => None
  end.

(** [int(s)] for a string matched by [-?\d+]. *)
Definition digits_value (ds : list ascii) : Z :=
  fold_left (fun acc d => 10 * acc + digit_value d) ds 0.

(** The most digits [int()] converts,
    [sys.int_info.default_max_str_digits]; the sign is not counted, leading
    zeros are. *)
Definition int_max_str_digits : nat := 4300.

Definition int_of_decimal (s : list ascii) : result Z :=
  let '(negative, ds) :=
    match s with
    | "-"%char :: ds => (true, ds)
    | _ => (false, s)
    end in
  if (int_max_str_digits <? List.length ds)%nat then Raise ValueError
  else Ok (if negative then - digits_value ds else digits_value ds).

(** [while midi < PITCH_MIN: midi += 12], with one unit of fuel per
    iteration; [fold_up] supplies as many as the loop can take. *)
Fixpoint up_loop (fuel : nat) (midi : Z) : Z :=
  match fuel with
  | O => midi
  | S fuel' => if midi <? PITCH_MIN then up_loop fuel' (midi + 12) else midi
  end.

Definition fold_up (midi : Z) : Z := up_loop (Z.to_nat (PITCH_MIN - midi)) midi.

(** [while midi > PITCH_MAX: midi -= 12]. *)
Fixpoint down_loop (fuel : nat) (midi : Z) : Z :=
  match fuel with
  | O => midi
  | S fuel' => if midi >? PITCH_MAX then down_loop fuel' (midi - 12) else midi
  end.

Definition fold_down (midi : Z) : Z := down_loop (Z.to_nat (midi - PITCH_MAX)) midi.

Definition pitch_to_midi (pitch_str : string) : result Z :=
  match fullmatch_pitch (strip (list_ascii_of_string pitch_str)) with
  | None => Raise ValueError
  | Some (note, acc, octave) =>
      octave <- int_of_decimal octave ;;
      match _NOTE_MAP note with
      | None => Raise ValueError
      | Some semitone =>
          let midi := (octave + 1) * 12 + semitone + _ACCID_MAP_get acc in
          Ok (fold_down (fold_up midi))
      end
  end.

(** ** Variable-length quantities: [_encode_varint] *)

(** The [while value:] loop.  [buf] grows at its end, as [buf.append] does. *)
Fixpoint varint_loop (fuel : nat) (value : Z) (buf : list Z) : result (list Z) :=
  match fuel with
  | O => OutOfFuel
  | S fuel' =>
      if value =? 0 then Ok buf
      else varint_loop fuel' (Z.shiftr value 7)
                       (buf ++ [Z.lor (Z.land value 127) 128])
  end.

Definition _encode_varint (fuel : nat) (value : Z) : result (list byte) :=
  buf <- varint_loop fuel (Z.shiftr value 7) [Z.land value 127] ;;
  py_bytes (rev buf).

(** ** The tempo meta-event: [_meta_tempo] *)

(** [60_000_000 / bpm] is the true quotient of two [int]s, rounded to a
    double, and [int()] truncates it.  The exact quotient is at least
    [1 / bpm] away from the next whole number, more than the rounding can
    move it, so the truncation is that of the exact quotient, which is what
    is written here; [tempo_quotient_exact] checks it for the tempos
    [build_midi] passes. *)
Definition _meta_tempo (bpm : Z) : result (list byte) :=
  if bpm =? 0 then Raise ZeroDivisionError
  else
    let us := py_int (inject_Z 60000000 / inject_Z bpm) in
    packed <- pack_be32 us ;;
    Ok ([xff; x51; x03] ++ skipn 1 packed).

(** ** The score *)

(** A melody entry.  [start_beat] and [duration_beats] are read through
    [float(...)]; [velocity] is optional: [note.get("velocity", 80)]. *)
Record note : Type := Note {
  pitch : string;
  start_beat : number;
  duration_beats : number;
  velocity : option Z
}.

(** The fields of the score that the encoders read.  [tempo_bpm] is
    optional: [music_json.get("tempo_bpm", 90)]. *)
Record score : Type := Score {
  tempo_bpm : option Z;
  melody : list note
}.

Definition get_default (o : option Z) (d : Z) : Z :=
  match o with Some v => v | None => d end.

(** [max(40, min(200, int(music_json.get("tempo_bpm", 90))))]. *)
Definition clamped_bpm (music_json : score) : Z :=
  clamp 40 200 (get_default (tempo_bpm music_json) 90).

(** [max(0, min(127, int(note.get("velocity", 80))))]. *)
Definition clamped_velocity (n : note) : Z :=
  clamp 0 127 (get_default (velocity n) 80).

(** ** The scheduler and the encoder: [build_midi] *)

Definition tpb : Z := 480.

(** An entry of [events]: [(tick_absoluto, prioridad, status, p1, p2)]. *)
Record event : Type := Event {
  ev_tick : Z;
  ev_prio : Z;
  ev_status : Z;
  ev_p1 : Z;
  ev_p2 : Z
}.

(** [float(v) * tpb]: a product of doubles, [tpb] being converted to
    [480.0]. *)
Definition ticks_of_beats (v : number) : result float :=
  x <- py_float v ;;
  Ok (fmul x (float_of_Z tpb)).

(** [int(float(note["start_beat"]) * tpb)]. *)
Definition start_tick (n : note) : result Z :=
  p <- ticks_of_beats (start_beat n) ;;
  int_of_float p.

(** [max(1, int(float(note["duration_beats"]) * tpb))]. *)
Definition duration_ticks (n : note) : result Z :=
  p <- ticks_of_beats (duration_beats n) ;;
  t <- int_of_float p ;;
  Ok (Z.max 1 t).

Definition note_on (start midi_note vel : Z) : event :=
  Event start 1 144 midi_note vel.

Definition note_off (stop midi_note : Z) : event :=
  Event stop 0 128 midi_note 0.

(** The body of the loop after the pitch has resolved: the two events of
    the note.  It is outside the [try]: what [int()] raises here leaves
    [build_midi]. *)
Definition note_pair (n : note) (midi_note : Z) : result (list event) :=
  let vel := clamped_velocity n in
  start <- start_tick n ;;
  dur <- duration_ticks n ;;
  Ok [note_on start midi_note vel; note_off (start + dur) midi_note].

(** The [for note in notes] loop: a note whose pitch raises [ValueError]
    is skipped by [continue]; any other exception would propagate. *)
Fixpoint collect_events (notes : list note) : result (list event) :=
  match notes with
  | [] => Ok []
  | n :: rest =>
      match pitch_to_midi (pitch n) with
      | Raise ValueError => collect_events rest
      | Ok midi_note =>
          two <- note_pair n midi_note ;;
          evs <- collect_events rest ;;
          Ok (two ++ evs)
      | Raise e => Raise e
      | OutOfFuel => OutOfFuel
      end
  end.

(** [sorted(melody, key=lambda n: float(n["start_beat"]))].  The keys are
    computed first, for every note and in the order of the melody; the
    notes are then sorted by their keys with [<] alone, equal keys keeping
    their order.  With a NaN among the keys [<] is no order: [stable_sort]
    still returns a permutation of the melody, as [sorted] does, but the
    two need not agree on which one. *)
Fixpoint start_keys (notes : list note) : result (list (float * note)) :=
  match notes with
  | [] => Ok []
  | n :: rest =>
      k <- py_float (start_beat n) ;;
      ks <- start_keys rest ;;
      Ok ((k, n) :: ks)
  end.

(** [a] may stay before [b]: the key of [b] is not below the key of [a]. *)
Definition key_leb (a b : float * note) : bool := negb (flt (fst b) (fst a)).

Definition sorted_by_start (notes : list note) : result (list note) :=
  ks <- start_keys notes ;;
  Ok (List.map snd (stable_sort key_leb ks)).

(** The key of [events.sort(key=lambda e: (e[0], e[1]))]: tuples compare
    lexicographically. *)
Definition event_leb (a b : event) : bool :=
  (ev_tick a <? ev_tick b) || ((ev_tick a =? ev_tick b) && (ev_prio a <=? ev_prio b)).

(** The sorted event list the serialization loop walks over. *)
Definition scheduled_events (music_json : score) : result (list event) :=
  notes <- sorted_by_start (melody music_json) ;;
  events <- collect_events notes ;;
  Ok (stable_sort event_leb events).

(** The deltas the serialization loop passes to [_encode_varint]. *)
Fixpoint deltas (current_tick : Z) (events : list event) : list Z :=
  match events with
  | [] => []
  | e :: rest => (ev_tick e - current_tick) :: deltas (ev_tick e) rest
  end.

(** The [for tick, _, status, p1, p2 in events] loop. *)
Fixpoint write_events (fuel : nat) (current_tick : Z) (events : list event)
  : result (list byte) :=
  match events with
  | [] => Ok []
  | e :: rest =>
      let delta := ev_tick e - current_tick in
      d <- _encode_varint fuel delta ;;
      msg <- py_bytes [ev_status e; ev_p1 e; ev_p2 e] ;;
      tail <- write_events fuel (ev_tick e) rest ;;
      Ok (d ++ msg ++ tail)
  end.

Definition end_of_track : list byte := [x00; xff; x2f; x00].

(** The bytes of the track chunk before the note events. *)
Definition track_prelude (fuel : nat) (bpm : Z) : result (list byte) :=
  d0 <- _encode_varint fuel 0 ;;
  tempo <- _meta_tempo bpm ;;
  d1 <- _encode_varint fuel 0 ;;
  program <- py_bytes [192; 0] ;;
  Ok (d0 ++ tempo ++ d1 ++ program).

(** [struct.pack(">IHHH", 6, 0, 1, tpb)]. *)
Definition pack_header_fields : result (list byte) :=
  a <- pack_be32 6 ;; b <- pack_be16 0 ;; c <- pack_be16 1 ;; d <- pack_be16 tpb ;;
  Ok (a ++ b ++ c ++ d).

(** [fuel] bounds the iterations of each [_encode_varint] loop. *)
Definition build_midi (fuel : nat) (music_json : score) : result (list byte) :=
  let bpm := clamped_bpm music_json in
  events <- scheduled_events music_json ;;
  prelude <- track_prelude fuel bpm ;;
  body <- write_events fuel 0 events ;;
  let track_bytes := prelude ++ body ++ end_of_track in
  fields <- pack_header_fields ;;
  let header := bytes_of_string "MThd" ++ fields in
  len <- pack_be32 (Z.of_nat (List.length track_bytes)) ;;
  let chunk := bytes_of_string "MTrk" ++ len ++ track_bytes in
  Ok (header ++ chunk).

Definition scenario1 : score :=
  Score (Some 90) [Note "C4" (Int 0) (Int 1) (Some 80)].

(** ** The synthesizer: [synthesize_wav] *)

(** Seconds per beat, [60.0 / bpm], for the clamped tempo: a whole number
    of 40..200, which converts to a double exactly. *)
Definition spb_of (bpm : Z) : float := fdiv (float_of_Z 60) (float_of_Z bpm).

(** [(float(n["start_beat"]) + float(n["duration_beats"])) * spb]. *)
Definition note_end (spb : float) (n : note) : result float :=
  x <- py_float (start_beat n) ;;
  y <- py_float (duration_beats n) ;;
  Ok (fmul (fadd x y) spb).

(** The first loop over the notes: [if end > max_end: max_end = end]. *)
Fixpoint max_end_loop (spb : float) (notes : list note) (max_end : float)
  : result float :=
  match notes with
  | [] => Ok max_end
  | n :: rest =>
      e <- note_end spb n ;;
      max_end_loop spb rest (if flt max_end e then e else max_end)
  end.

(** The literal [0.3]: the double nearest to 3/10. *)
Definition three_tenths : float := Eval vm_compute in float_of_ratio 3 10.

(** [int((max_end + 0.3) * sample_rate)]. *)
Definition total_samples (sample_rate : Z) (music_json : score) : result Z :=
  let spb := spb_of (clamped_bpm music_json) in
  max_end <- max_end_loop spb (melody music_json) fzero ;;
  rate <- float_of_int sample_rate ;;
  int_of_float (fmul (fadd max_end three_tenths) rate).

(** [range(n)]. *)
Definition py_range (n : Z) : list Z := List.map Z.of_nat (seq 0 (Z.to_nat n)).

(** The window of a note in the buffer: [s0 = int(t0 * sample_rate)] with
    [t0 = float(n["start_beat"]) * spb], and [ns = int(dur * sample_rate)]
    with [dur = float(n["duration_beats"]) * spb], cut to
    [total_samples - s0] when the note would run past the buffer. *)
Definition note_window (sample_rate total : Z) (spb : float) (n : note)
  : result (Z * Z) :=
  x <- py_float (start_beat n) ;;
  y <- py_float (duration_beats n) ;;
  rate <- float_of_int sample_rate ;;
  s0 <- int_of_float (fmul (fmul x spb) rate) ;;
  ns <- int_of_float (fmul (fmul y spb) rate) ;;
  Ok (s0, if s0 + ns >? total then total - s0 else ns).

(** The floating-point signal path is kept abstract: the type of a sample,
    silence, the addition of two samples, the value one note contributes at
    one index, and the scaled integer value of a sample of the final
    buffer. *)
Section Synth.
Variable sample : Type.
(** [0.0] *)
Variable silence : sample.
(** [buf[idx] + v] *)
Variable mix : sample -> sample -> sample.
(** [sample * vel * env * 0.35] at index [i] of a note of [ns] samples:
    [voice sample_rate midi_note vel ns i], with [vel] the clamped
    velocity before its division by 127. *)
Variable voice : Z -> Z -> Z -> Z -> Z -> sample.
(** [int(s * scale)], where [scale] comes from the peak of the buffer. *)
Variable scaled : list sample -> sample -> Z.

(** [buf[idx] += v] for an index inside the list. *)
Fixpoint add_at (buf : list sample) (idx : nat) (v : sample) : list sample :=
  match buf, idx with
  | [], _ => []
  | s :: buf', O => mix s v :: buf'
  | s :: buf', S idx' => s :: add_at buf' idx' v
  end.

(** The body of [for i in range(ns)], guarded by
    [if 0 <= idx < total_samples]. *)
Definition mix_sample (sample_rate total midi_note vel s0 ns : Z)
           (buf : list sample) (i : Z) : list sample :=
  let idx := s0 + i in
  if (0 <=? idx) && (idx <? total)
  then add_at buf (Z.to_nat idx) (voice sample_rate midi_note vel ns i)
  else buf.

(** One iteration of the second [for n in notes] loop. *)
Definition render_note (sample_rate total : Z) (spb : float) (n : note)
           (buf : list sample) : result (list sample) :=
  match pitch_to_midi (pitch n) with
  | Raise ValueError => Ok buf
  | Ok midi_note =>
      let vel := clamped_velocity n in
      w <- note_window sample_rate total spb n ;;
      let '(s0, ns) := w in
      Ok (fold_left (mix_sample sample_rate total midi_note vel s0 ns)
                    (py_range ns) buf)
  | Raise e => Raise e
  | OutOfFuel => OutOfFuel
  end.

Fixpoint render_notes (sample_rate total : Z) (spb : float) (notes : list note)
         (buf : list sample) : result (list sample) :=
  match notes with
  | [] => Ok buf
  | n :: rest =>
      buf' <- render_note sample_rate total spb n buf ;;
      render_notes sample_rate total spb rest buf'
  end.

(** The buffer after all notes are mixed in: [[0.0] * total_samples] is
    empty when [total_samples] is negative. *)
Definition render_buffer (sample_rate : Z) (music_json : score)
  : result (list sample) :=
  let spb := spb_of (clamped_bpm music_json) in
  total <- total_samples sample_rate music_json ;;
  render_notes sample_rate total spb (melody music_json)
               (repeat silence (Z.to_nat total)).

(** [struct.pack(f"<{len(buf)}h", *[max(-32768, min(32767, int(s * scale)))
    for s in buf])]. *)
Fixpoint pack_pcm (whole : list sample) (buf : list sample) : result (list byte) :=
  match buf with
  | [] => Ok []
  | s :: buf' =>
      b <- pack_le16s (clamp (-32768) 32767 (scaled whole s)) ;;
      bs <- pack_pcm whole buf' ;;
      Ok (b ++ bs)
  end.

(** [struct.pack("<IHHIIHH", 16, 1, 1, sample_rate, byte_rate, 2, 16)]. *)
Definition pack_fmt_fields (sample_rate byte_rate : Z) : result (list byte) :=
  a <- pack_le32 16 ;; b <- pack_le16 1 ;; c <- pack_le16 1 ;;
  d <- pack_le32 sample_rate ;; e <- pack_le32 byte_rate ;;
  f <- pack_le16 2 ;; g <- pack_le16 16 ;;
  Ok (a ++ b ++ c ++ d ++ e ++ f ++ g).

(** The WAV container around the PCM bytes. *)
Definition wav_container (sample_rate : Z) (pcm : list byte) : result (list byte) :=
  let data_size := Z.of_nat (List.length pcm) in
  let byte_rate := sample_rate * 2 in
  riff_size <- pack_le32 (36 + data_size) ;;
  fields <- pack_fmt_fields sample_rate byte_rate ;;
  size <- pack_le32 data_size ;;
  Ok (bytes_of_string "RIFF" ++ riff_size ++ bytes_of_string "WAVE"
      ++ bytes_of_string "fmt " ++ fields
      ++ bytes_of_string "data" ++ size ++ pcm).

Definition synthesize_wav (music_json : score) (sample_rate : Z)
  : result (list byte) :=
  buf <- render_buffer sample_rate music_json ;;
  pcm <- pack_pcm buf buf ;;
  wav_container sample_rate pcm.
End Synth.

(** ** The duration probe: [_wav_duration] *)

(** Rounding to the nearest integer, ties to the even one, as Python's
    [round] does. *)
Definition round_half_even (x : Q) : Z :=
  let f := Qfloor x in
  match Qcompare (2 * (x - inject_Z f)) 1 with
  | Lt => f
  | Gt => f + 1
  | Eq => if Z.even f then f else f + 1
  end.

(** [round(x, 1)] on a float: the exact value of [x] is rounded to one
    decimal, ties to the even digit, and the result is the double nearest
    to that decimal.  Zeros keep their sign; infinities and NaN are
    returned as they are. *)
Definition py_round1 (x : float) : result float :=
  match x with
  | S754_finite s _ _ =>
      let tenths := round_half_even (exact x * 10) in
      if tenths =? 0 then Ok (S754_zero s) else checked (float_of_ratio tenths 10)
  | _ => Ok x
  end.

(** The body of the [try] block.  With a zero sample rate [duration] is
    the integer [0], and [round(0, 1)] is [0]; it is not told apart from
    [0.0] here. *)
Definition wav_duration_try (wav_bytes : list byte) : result float :=
  if (List.length wav_bytes <? 44)%nat then Ok fzero
  else
    channels <- unpack_from_le 2 wav_bytes 22 ;;
    sample_rate <- unpack_from_le 4 wav_bytes 24 ;;
    bits <- unpack_from_le 2 wav_bytes 34 ;;
    let pcm := skipn 44 wav_bytes in
    let bytes_per_sample := bits / 8 in
    if bytes_per_sample =? 0 then Raise ZeroDivisionError
    else
      let n_samples := Z.of_nat (List.length pcm) / bytes_per_sample in
      if sample_rate =? 0 then Ok fzero
      else
        duration <- true_div n_samples (sample_rate * channels) ;;
        py_round1 duration.

(** [except Exception: return 0.0]. *)
Definition _wav_duration (wav_bytes : list byte) : float :=
  match wav_duration_try wav_bytes with
  | Ok d => d
  | _ => fzero
  end.

(** ** The reply of the model: [_clean_model_response] *)

(** The regular expressions the function uses: literals, the greedy
    repetition of one character class ([\s*], and [.*] under [re.DOTALL]),
    the greedy option, and sequences.  A pattern has one capturing group:
    it is given as the part before the group, the group, and the part
    after it. *)
Inductive regex : Type :=
| Lit (cs : list ascii)
| Star (p : ascii -> bool)
| Opt (r : regex)
| Seq (r1 r2 : regex).

(** [s] without the prefix [cs], when it starts with it. *)
Fixpoint drop_prefix (cs s : list ascii) : option (list ascii) :=
  match cs, s with
  | [], _ => Some s
  | c :: cs', d :: s' => if Ascii.eqb c d then drop_prefix cs' s' else None
  | _ :: _, [] => None
  end.

(** A greedy star: take one more character first, and give it back when
    the rest of the pattern, the continuation [k], fails. *)
Fixpoint star_match {R : Type} (p : ascii -> bool) (s : list ascii)
         (k : list ascii -> option R) : option R :=
  match s with
  | c :: s' =>
      if p c
      then match star_match p s' k with
           | Some r => Some r
           | None => k s
           end
      else k s
  | [] => k []
  end.

(** Backtracking matching at the head of [s]; [k] matches what follows. *)
Fixpoint re_match {R : Type} (r : regex) (s : list ascii)
         (k : list ascii -> option R) : option R :=
  match r with
  | Lit cs => match drop_prefix cs s with Some rest => k rest | None => None end
  | Star p => star_match p s k
  | Opt r' => match re_match r' s k with Some x => Some x | None => k s end
  | Seq r1 r2 => re_match r1 s (fun rest => re_match r2 rest k)
  end.

(** The text of the group when the pattern matches at the head of [s]. *)
Definition match_at (before group after : regex) (s : list ascii)
  : option (list ascii) :=
  re_match before s (fun s1 =>
    re_match group s1 (fun s2 =>
      re_match after s2 (fun _ =>
        Some (firstn (List.length s1 - List.length s2) s1)))).

(** [re.search(pattern, s).group(1)]: the leftmost match. *)
Fixpoint re_search (before group after : regex) (s : list ascii)
  : option (list ascii) :=
  match match_at before group after s with
  | Some g => Some g
  | None =>
      match s with
      | [] => None
      | _ :: s' => re_search before group after s'
      end
  end.

Definition any_char (c : ascii) : bool := true.

Definition backticks : list ascii := ["`"; "`"; "`"]%char.

(** [\{.*\}] *)
Definition braces : regex :=
  Seq (Lit ["{"%char]) (Seq (Star any_char) (Lit ["}"%char])).

(** The parts of [```(?:json)?\s*(\{.*\})\s*```] around its group. *)
Definition fence_open : regex :=
  Seq (Lit backticks) (Seq (Opt (Lit (list_ascii_of_string "json"))) (Star is_space)).

Definition fence_close : regex := Seq (Star is_space) (Lit backticks).

Definition clean_chars (raw : list ascii) : list ascii :=
  let raw := strip raw in
  match re_search fence_open braces fence_close raw with
  | Some g => strip g
  | None =>
      match drop_prefix ["{"%char] raw with
      | Some _ => raw
      | None =>
          match re_search (Lit []) braces (Lit []) raw with
          | Some g => strip g
          | None => raw
          end
      end
  end.

Definition _clean_model_response (raw : string) : string :=
  string_of_list_ascii (clean_chars (list_ascii_of_string raw)).

(** [t] is what is left of [s] after some prefix. *)
Definition suffix_of (t s : list ascii) : Prop := exists y, s = y ++ t.

(** ** Reference notions the properties are stated against *)

(** *** Pitch tokens of the grammar [[A-G][#b]?-?\d+] *)

Record token : Type := Token {
  tk_letter : ascii;
  tk_accidental : option ascii;
  tk_negative : bool;
  tk_digits : list ascii
}.

Definition letters : list ascii := ["A"; "B"; "C"; "D"; "E"; "F"; "G"]%char.
Definition decimal_digits : list ascii :=
  ["0"; "1"; "2"; "3"; "4"; "5"; "6"; "7"; "8"; "9"]%char.

Definition token_ok (t : token) : Prop :=
  In (tk_letter t) letters /\
  In (tk_accidental t) [None; Some "#"%char; Some "b"%char] /\
  tk_digits t <> [] /\
  Forall (fun d => In d decimal_digits) (tk_digits t).

Definition sign_chars (neg : bool) : list ascii := if neg then ["-"%char] else [].

Definition token_chars (t : token) : list ascii :=
  tk_letter t
  :: match tk_accidental t with Some a => [a] | None => [] end
  ++ sign_chars (tk_negative t)
  ++ tk_digits t.

Definition token_text (t : token) : string := string_of_list_ascii (token_chars t).

Definition matches_grammar (s : string) : Prop :=
  exists t, token_ok t /\ s = token_text t.

(** The octave of the token has no more digits than [int()] converts. *)
Definition within_digit_limit (t : token) : Prop :=
  (List.length (tk_digits t) <= int_max_str_digits)%nat.

(** A string of the grammar whose octave [int()] converts. *)
Definition accepted_pitch (s : string) : Prop :=
  exists t, token_ok t /\ within_digit_limit t /\ s = token_text t.

(** [s.strip()] on strings. *)
Definition py_strip (s : string) : string :=
  string_of_list_ascii (strip (list_ascii_of_string s)).

(** A string of whitespace only. *)
Definition blank (s : list ascii) : Prop := forallb is_space s = true.

(** The number a run of decimal digits denotes, by position. *)
Fixpoint decimal (ds : list ascii) : Z :=
  match ds with
  | [] => 0
  | d :: ds' => (Z.of_nat (nat_of_ascii d) - 48) * 10 ^ Z.of_nat (List.length ds') + decimal ds'
  end.

Definition token_octave (t : token) : Z :=
  if tk_negative t then - decimal (tk_digits t) else decimal (tk_digits t).

(** [t'] is [t] with its octave moved by [k]. *)
Definition shifted (k : Z) (t t' : token) : Prop :=
  tk_letter t' = tk_letter t /\
  tk_accidental t' = tk_accidental t /\
  token_octave t' = token_octave t + k.

(** The MIDI number of a token before it is folded into the range. *)
Definition token_base (t : token) : Z :=
  (token_octave t + 1) * 12
  + match _NOTE_MAP (tk_letter t) with Some s => s | None => 0 end
  + match tk_accidental t with
    | Some "#"%char => 1
    | Some "b"%char => -1
    | _ => 0
    end.

(** *** Reading a variable-length quantity *)

(** Base 128, most significant group first: a byte below [0x80] is the
    last one. *)
Fixpoint read_varint_from (acc : Z) (bs : list byte) : option (Z * list byte) :=
  match bs with
  | [] => None
  | b :: rest =>
      let v := byte_to_Z b in
      if v <? 128 then Some (acc * 128 + v, rest)
      else read_varint_from (acc * 128 + (v - 128)) rest
  end.

Definition read_varint (bs : list byte) : option (Z * list byte) :=
  read_varint_from 0 bs.

(** Every byte but the last carries the continuation bit. *)
Fixpoint continuation_shape (bs : list byte) : Prop :=
  match bs with
  | [] => False
  | [b] => byte_to_Z b < 128
  | b :: bs' => 128 <= byte_to_Z b /\ continuation_shape bs'
  end.

(** *** Reading a standard MIDI file back *)

(** The big-endian value of a run of bytes. *)
Definition be_value (bs : list byte) : Z :=
  fold_left (fun acc b => acc * 256 + byte_to_Z b) bs 0.

Fixpoint bytes_eqb (a b : list byte) : bool :=
  match a, b with
  | [], [] => true
  | x :: a', y :: b' => Byte.eqb x y && bytes_eqb a' b'
  | _, _ => false
  end.

(** A channel message of the track: absolute tick, status byte, two data
    bytes. *)
Definition message : Type := (Z * byte * byte * byte)%type.

Definition msg_tick (m : message) : Z := let '(t, _, _, _) := m in t.
Definition msg_status (m : message) : byte := let '(_, s, _, _) := m in s.
Definition msg_data1 (m : message) : byte := let '(_, _, d, _) := m in d.
Definition msg_data2 (m : message) : byte := let '(_, _, _, d) := m in d.

(** The events of a track chunk: meta events are skipped by their length,
    end-of-track must close the chunk, a program change has one data byte,
    note-on and note-off are collected with their absolute tick. *)
Fixpoint read_track (fuel : nat) (tick : Z) (bs : list byte) : option (list message) :=
  match fuel with
  | O => None
  | S fuel' =>
      match read_varint bs with
      | None => None
      | Some (delta, rest) =>
          let now := tick + delta in
          match rest with
          | [] => None
          | st :: rest1 =>
              if Byte.eqb st xff then
                match rest1 with
                | [] => None
                | ty :: rest2 =>
                    match read_varint rest2 with
                    | None => None
                    | Some (len, rest3) =>
                        if Byte.eqb ty x2f
                        then match rest3 with [] => Some [] | _ => None end
                        else read_track fuel' now (skipn (Z.to_nat len) rest3)
                    end
                end
              else if Byte.eqb st xc0 then
                match rest1 with
                | _ :: rest2 => read_track fuel' now rest2
                | [] => None
                end
              else if Byte.eqb st x80 || Byte.eqb st x90 then
                match rest1 with
                | d1 :: d2 :: rest2 =>
                    option_map (cons (now, st, d1, d2)) (read_track fuel' now rest2)
                | _ => None
                end
              else None
          end
      end
  end.

(** A type-0 file: [MThd], fourteen bytes of header, then one [MTrk] chunk
    whose length field counts exactly the bytes that follow it. *)
Definition read_midi (file : list byte) : option (list message) :=
  let track := skipn 22 file in
  if bytes_eqb (firstn 4 file) (bytes_of_string "MThd")
     && bytes_eqb (firstn 4 (skipn 14 file)) (bytes_of_string "MTrk")
     && (be_value (firstn 4 (skipn 18 file)) =? Z.of_nat (List.length track))
  then read_track (List.length track) 0 track
  else None.

(** *** Rounding modes *)

(** Truncation toward zero, from floor and ceiling. *)
Definition Qtrunc (x : Q) : Z := if Qle_bool 0 x then Qfloor x else Qceiling x.

(** Python's [round(x)]. *)
Definition py_round (x : Q) : Z := round_half_even x.

(** *** Header fields of a canonical WAV buffer *)

Definition byte_at (buf : list byte) (i : nat) : Z := byte_to_Z (nth i buf x00).

Definition wav_channels (buf : list byte) : Z :=
  byte_at buf 22 + 256 * byte_at buf 23.

Definition wav_sample_rate (buf : list byte) : Z :=
  byte_at buf 24 + 256 * byte_at buf 25 + 65536 * byte_at buf 26
  + 16777216 * byte_at buf 27.

Definition wav_bits (buf : list byte) : Z :=
  byte_at buf 34 + 256 * byte_at buf 35.

(** *** Events and their order *)

(** The order [events.sort] establishes: by tick, then by priority. *)
Definition event_le (a b : event) : Prop :=
  ev_tick a < ev_tick b \/ (ev_tick a = ev_tick b /\ ev_prio a <= ev_prio b).

(** What the scheduler appends: a note-on of priority 1 or a note-off of
    priority 0, with a pitch of the playable range and a legal velocity. *)
Definition scheduler_event (e : event) : Prop :=
  ((ev_status e = 144 /\ ev_prio e = 1) \/ (ev_status e = 128 /\ ev_prio e = 0)) /\
  PITCH_MIN <= ev_p1 e <= PITCH_MAX /\
  0 <= ev_p2 e <= 127.

(** The channel message an event is written as. *)
Definition msg_of_event (e : event) : message :=
  (ev_tick e, low_byte (ev_status e), low_byte (ev_p1 e), low_byte (ev_p2 e)).

(** A note of the melody whose pitch resolves. *)
Definition resolves (n : note) : bool :=
  match pitch_to_midi (pitch n) with Ok _ => true | _ => false end.

(** The two events of a note whose pitch resolves and whose ticks are
    computed, none otherwise. *)
Definition note_events (n : note) : list event :=
  match pitch_to_midi (pitch n) with
  | Ok midi_note =>
      match note_pair n midi_note with
      | Ok evs => evs
      | _ => []
      end
  | _ => []
  end.

(** [float(n["start_beat"])] is below zero. *)
Definition starts_before_zero (n : note) : bool :=
  match py_float (start_beat n) with
  | Ok x => flt x fzero
  | _ => false
  end.

(** A zero or a finite number: neither an infinity nor NaN. *)
Definition is_finite (x : float) : bool :=
  match x with
  | S754_zero _ | S754_finite _ _ _ => true
  | _ => false
  end.

(** A double that is not below zero: a zero, a positive number, plus
    infinity; NaN, which is below nothing, is counted in. *)
Definition not_negative (x : float) : bool :=
  match x with
  | S754_finite true _ _ | S754_infinity true => false
  | _ => true
  end.

(** The score without the notes whose pitch does not resolve. *)
Definition kept (music_json : score) : score :=
  Score (tempo_bpm music_json) (filter resolves (melody music_json)).

(** *** Sample inputs *)

(** Two notes that meet at tick 480. *)
Definition two_notes : score :=
  Score (Some 120) [Note "D4" (Int 1) (Int 1) (Some 70);
                    Note "C4" (Int 0) (Int 1) (Some 80)].

(** The double of a fraction, for the sample inputs. *)
Definition dbl (a : Z) (b : positive) : number := Float (float_of_ratio a b).

(** A note whose start and length are [1/256] of a beat, a double: exactly
    1.875 ticks. *)
Definition short_note : note := Note "C4" (dbl 1 256) (dbl 1 256) (Some 80).

(** A note that starts at beat 0.3: the double below 3/10, whose product
    with 480 rounds to the double 144.0. *)
Definition rounded_note : note := Note "C4" (dbl 3 10) (Int 1) (Some 80).

(** A note that starts one beat before the piece. *)
Definition early_note : note := Note "C4" (Int (-1)) (Int 1) (Some 80).

(** A note of [10^308] beats, a double: its ticks are beyond the doubles. *)
Definition endless_note : note :=
  Note "C4" (Int 0) (Float (float_of_Z (10 ^ 308))) (Some 80).

(** A quarter of a beat at 120 beats per minute: 0.125 seconds. *)
Definition quarter_beat : score :=
  Score (Some 120) [Note "C4" (Int 0) (dbl 1 4) (Some 80)].

(** One and a half beats at 40 beats per minute: 2.25 seconds. *)
Definition slow_note : score :=
  Score (Some 40) [Note "C4" (Int 0) (dbl 3 2) (Some 80)].

(** A melody with an entry whose pitch does not parse. *)
Definition with_bad_pitch : score :=
  Score (Some 90) [Note "Z9" (Int 0) (Int 4) (Some 80);
                   Note "C4" (Int 0) (Int 1) (Some 80)].

(** A melody of one entry, whose pitch does not parse and which starts at
    beat [10^308]. *)
Definition far_bad_pitch : score :=
  Score (Some 90) [Note "Z9" (Float (float_of_Z (10 ^ 308))) (Int 1) (Some 80)].

(** A melody of one entry, whose pitch does not parse and whose start is
    the integer [10^400], beyond the doubles. *)
Definition huge_bad_pitch : score :=
  Score (Some 90) [Note "Z9" (Int (10 ^ 400)) (Int 1) (Some 80)].

Definition token_C4 : token := Token "C" None false ["4"%char].
Definition token_C3 : token := Token "C" None false ["3"%char].
Definition token_Fsharp_neg1 : token := Token "F" (Some "#"%char) true ["1"%char].

(** The letter C followed by 4301 zeros. *)
Definition long_token : token := Token "C" None false (repeat "0"%char 4301).

(** *** The canonical WAV layout *)

(** A value as two and as four little-endian bytes. *)
Definition le16 (v : Z) : list byte := [low_byte v; low_byte (v / 2 ^ 8)].

Definition le32 (v : Z) : list byte :=
  [low_byte v; low_byte (v / 2 ^ 8); low_byte (v / 2 ^ 16); low_byte (v / 2 ^ 24)].

(** The little-endian field of [width] bytes at offset [off]. *)
Definition field_at (wav : list byte) (off width : nat) : Z :=
  le_value (firstn width (skipn off wav)).

(** A mono 16-bit PCM file of [n_samples] samples: [RIFF] and its size,
    [WAVE], a 16-byte [fmt ] chunk (format 1, one channel, the sample rate,
    the byte rate, block align 2, 16 bits), and the [data] chunk. *)
Definition canonical_wav (sample_rate n_samples : Z) (wav : list byte) : Prop :=
  firstn 4 wav = bytes_of_string "RIFF" /\
  field_at wav 4 4 = 36 + 2 * n_samples /\
  firstn 8 (skipn 8 wav) = bytes_of_string "WAVEfmt " /\
  field_at wav 16 4 = 16 /\
  field_at wav 20 2 = 1 /\
  field_at wav 22 2 = 1 /\
  field_at wav 24 4 = sample_rate /\
  field_at wav 28 4 = 2 * sample_rate /\
  field_at wav 32 2 = 2 /\
  field_at wav 34 2 = 16 /\
  firstn 4 (skipn 36 wav) = bytes_of_string "data" /\
  field_at wav 40 4 = 2 * n_samples /\
  Z.of_nat (List.length wav) = 44 + 2 * n_samples.

(** A recorded buffer of one 16-bit mono sample at 100 Hz: 0.01 s. *)
Definition one_sample_wav : list byte :=
  bytes_of_string "RIFF" ++ le32 38 ++ bytes_of_string "WAVEfmt "
  ++ le32 16 ++ le16 1 ++ le16 1 ++ le32 100 ++ le32 200 ++ le16 2 ++ le16 16
  ++ bytes_of_string "data" ++ le32 2 ++ [x00; x00].

(** The duration the header fields give, as an exact fraction. *)
Definition header_duration (buf : list byte) : Q :=
  (inject_Z (Z.of_nat (List.length buf) - 44) / inject_Z (wav_bits buf / 8)
   / inject_Z (wav_sample_rate buf * wav_channels buf))%Q.

(** *** The recording length shown to the user *)

(** [mins = int(dur // 60)] and [secs = dur - mins * 60], computed from the
    result of [_wav_duration] before it is displayed, on the exact value
    of the double. *)
Definition recording_mins (dur : float) : Z := Qfloor (exact dur / 60).

Definition recording_secs (dur : float) : Q :=
  (exact dur - inject_Z (recording_mins dur) * 60)%Q.

(** The double nearest to [round(a / b, 1)] for two integers, and [0.0]
    where the quotient or its rounding raises. *)
Definition rounded_quotient (a b : Z) : float :=
  match (q <- true_div a b ;; py_round1 q) with
  | Ok d => d
  | _ => fzero
  end.

(** *** The window of a note in the sample buffer *)

(** Index [p] lies in the window [[s0, s0 + ns)]. *)
Definition in_window (w : Z * Z) (p : nat) : bool :=
  (fst w <=? Z.of_nat p) && (Z.of_nat p <? fst w + snd w).

(** *** Signed 16-bit samples *)

(** The value of two little-endian bytes read as [<h]. *)
Definition s16_value (lo hi : byte) : Z :=
  let u := byte_to_Z lo + 256 * byte_to_Z hi in
  if u <? 32768 then u else u - 65536.

(* ===================================================================== *)
(** * Part II. Properties *)
(* ===================================================================== *)

(** ** The program on sample inputs *)

Example pitch_C4 : pitch_to_midi "C4" = Ok 60. Proof. reflexivity. Qed.
Example pitch_Bb3 : pitch_to_midi " Bb3 " = Ok 58. Proof. reflexivity. Qed.
Example pitch_Z9 : pitch_to_midi "Z9" = Raise ValueError. Proof. reflexivity. Qed.
Example pitch_Cneg : pitch_to_midi "C#-2" = Ok 49. Proof. reflexivity. Qed.
Example pitch_C9 : pitch_to_midi "C#9" = Ok 61. Proof. reflexivity. Qed.

Example varint_0 : _encode_varint 1 0 = Ok [x00]. Proof. reflexivity. Qed.
Example varint_480 : _encode_varint 2 480 = Ok [x83; x60]. Proof. reflexivity. Qed.
Example varint_neg : _encode_varint 50 (-480) = OutOfFuel. Proof. reflexivity. Qed.
Example tempo_90 : _meta_tempo 90 = Ok [xff; x51; x03; x0a; x2c; x2a].
Proof. reflexivity. Qed.

Example build_midi_scenario1 :
  build_midi 3 scenario1 =
  Ok [x4d; x54; x68; x64; x00; x00; x00; x06; x00; x00; x00; x01; x01; xe0;
      x4d; x54; x72; x6b; x00; x00; x00; x17;
      x00; xff; x51; x03; x0a; x2c; x2a;
      x00; xc0; x00;
      x00; x90; x3c; x50;
      x83; x60; x80; x3c; x00;
      x00; xff; x2f; x00].
Proof. reflexivity. Qed.

Example read_scenario1 :
  match build_midi 3 scenario1 with
  | Ok file => read_midi file
  | _ => None
  end = Some [(0, x90, x3c, x50); (480, x80, x3c, x00)].
Proof. reflexivity. Qed.

(** ** Bytes *)

Lemma byte_to_Z_range (b : byte) : 0 <= byte_to_Z b < 256.
Proof.
  unfold byte_to_Z. pose proof (Byte.to_N_bounded b). lia.
Qed.

Lemma low_byte_value (z : Z) : 0 <= z < 256 -> byte_to_Z (low_byte z) = z.
Proof.
  intros Hz. unfold low_byte, byte_to_Z.
  rewrite Z.mod_small by lia.
  destruct (Byte.of_N (Z.to_N z)) as [b|] eqn:E.
  - apply Byte.to_of_N in E. rewrite E. lia.
  - apply Byte.of_N_None_iff in E. lia.
Qed.

Lemma byte_of_Z_ok (z : Z) : 0 <= z < 256 -> byte_of_Z z = Ok (low_byte z).
Proof.
  intros Hz. unfold byte_of_Z, low_byte.
  destruct (Z.ltb_spec z 0); [lia|].
  rewrite Z.mod_small by lia.
  destruct (Byte.of_N (Z.to_N z)) as [b|] eqn:E; [reflexivity|].
  apply Byte.of_N_None_iff in E. lia.
Qed.

Lemma py_bytes_ok (l : list Z) :
  Forall (fun z => 0 <= z < 256) l -> py_bytes l = Ok (List.map low_byte l).
Proof.
  induction 1 as [|z l Hz _ IH]; simpl; [reflexivity|].
  rewrite (byte_of_Z_ok z Hz). simpl. rewrite IH. reflexivity.
Qed.

(** ** Variable-length quantities *)

Lemma lor_continuation (x : Z) : 0 <= x < 128 -> Z.lor x 128 = x + 128.
Proof.
  intros Hx.
  assert (H : forallb (fun n => Z.lor (Z.of_nat n) 128 =? Z.of_nat n + 128)
                      (seq 0 128) = true) by (vm_compute; reflexivity).
  rewrite forallb_forall in H.
  specialize (H (Z.to_nat x)).
  rewrite Z2Nat.id in H by lia.
  apply Z.eqb_eq, H, in_seq. lia.
Qed.

Lemma land_127 (v : Z) : Z.land v 127 = v mod 128.
Proof. change 127 with (Z.ones 7). rewrite Z.land_ones by lia. reflexivity. Qed.

Lemma shiftr_7 (v : Z) : Z.shiftr v 7 = v / 128.
Proof. rewrite Z.shiftr_div_pow2 by lia. reflexivity. Qed.

Lemma group_range (v : Z) : 128 <= Z.lor (Z.land v 127) 128 < 256.
Proof.
  rewrite land_127. pose proof (Z.mod_pos_bound v 128 ltac:(lia)).
  rewrite lor_continuation; lia.
Qed.

(** The loop only ever appends to [buf]. *)
Lemma varint_loop_prefix (fuel : nat) :
  forall v buf,
    varint_loop fuel v buf =
    match varint_loop fuel v [] with
    | Ok gs => Ok (buf ++ gs)
    | Raise e => Raise e
    | OutOfFuel => OutOfFuel
    end.
Proof.
  induction fuel as [|fuel IH]; intros v buf; simpl; [reflexivity|].
  destruct (v =? 0).
  - rewrite app_nil_r. reflexivity.
  - rewrite (IH _ (buf ++ _)), (IH _ [_]).
    destruct (varint_loop fuel (Z.shiftr v 7) []); try reflexivity.
    rewrite <- app_assoc. reflexivity.
Qed.

(** More fuel does not change a result. *)
Lemma varint_loop_mono (fuel : nat) :
  forall fuel' v buf out,
    varint_loop fuel v buf = Ok out -> (fuel <= fuel')%nat ->
    varint_loop fuel' v buf = Ok out.
Proof.
  induction fuel as [|fuel IH]; intros fuel' v buf out H Hle; simpl in H; [discriminate|].
  destruct fuel' as [|fuel']; [lia|]. simpl.
  destruct (v =? 0); [assumption|].
  apply IH; [assumption | lia].
Qed.

(** The loop exits on every non-negative value. *)
Lemma varint_loop_terminates (fuel : nat) :
  forall v buf, 0 <= v < Z.of_nat fuel -> exists out, varint_loop fuel v buf = Ok out.
Proof.
  induction fuel as [|fuel IH]; intros v buf Hv; [lia|]. simpl.
  destruct (Z.eqb_spec v 0); [eauto|].
  apply IH. rewrite shiftr_7.
  split; [apply Z.div_pos; lia|].
  assert (v / 128 < v) by (apply Z.div_lt; lia). lia.
Qed.

(** The loop never exits on a negative value. *)
Lemma varint_loop_negative (fuel : nat) :
  forall v buf, v < 0 -> varint_loop fuel v buf = OutOfFuel.
Proof.
  induction fuel as [|fuel IH]; intros v buf Hv; simpl; [reflexivity|].
  destruct (Z.eqb_spec v 0); [lia|].
  apply IH. apply Z.shiftr_neg. assumption.
Qed.

(** What a reader sees in the continuation bytes the loop produced. *)
Lemma varint_loop_read (fuel : nat) :
  forall v gs,
    0 <= v -> varint_loop fuel v [] = Ok gs ->
    Forall (fun g => 128 <= g < 256) gs /\
    forall acc tail,
      read_varint_from acc (List.map low_byte (rev gs) ++ tail) =
      read_varint_from (acc * 128 ^ Z.of_nat (List.length gs) + v) tail.
Proof.
  induction fuel as [|fuel IH]; intros v gs Hv H; simpl in H; [discriminate|].
  destruct (Z.eqb_spec v 0) as [->|Hnz].
  - injection H as <-. split; [constructor|]. intros. simpl. f_equal. lia.
  - rewrite varint_loop_prefix in H.
    destruct (varint_loop fuel (Z.shiftr v 7) []) as [gs'| |] eqn:E; try discriminate.
    injection H as <-.
    assert (Hs : 0 <= Z.shiftr v 7) by (apply Z.shiftr_nonneg; lia).
    destruct (IH _ _ Hs E) as (Hr & Hread).
    pose proof (group_range v) as Hg.
    split; [constructor; assumption|].
    intros acc tail. cbn [rev]. rewrite map_app, <- app_assoc. cbn [List.map app].
    rewrite Hread. cbn [read_varint_from].
    rewrite low_byte_value by lia.
    destruct (Z.ltb_spec (Z.lor (Z.land v 127) 128) 128); [lia|].
    f_equal.
    rewrite land_127 in *. rewrite shiftr_7.
    rewrite lor_continuation by (apply Z.mod_pos_bound; lia).
    cbn [List.length]. rewrite Nat2Z.inj_succ, Z.pow_succ_r by lia.
    pose proof (Z.div_mod v 128 ltac:(lia)). lia.
Qed.

Lemma encode_varint_negative (fuel : nat) (n : Z) :
  n < 0 -> _encode_varint fuel n = OutOfFuel.
Proof.
  intros Hn. unfold _encode_varint.
  rewrite varint_loop_negative; [reflexivity|].
  apply Z.shiftr_neg. assumption.
Qed.

Lemma encode_varint_mono (fuel fuel' : nat) (n : Z) (bs : list byte) :
  _encode_varint fuel n = Ok bs -> (fuel <= fuel')%nat -> _encode_varint fuel' n = Ok bs.
Proof.
  unfold _encode_varint. intros H Hle.
  destruct (varint_loop fuel (Z.shiftr n 7) [Z.land n 127]) as [buf| |] eqn:E;
    try discriminate.
  rewrite (varint_loop_mono _ _ _ _ _ E Hle). exact H.
Qed.

Lemma encode_varint_terminates (n : Z) :
  0 <= n -> exists bs, _encode_varint (S (Z.to_nat n)) n = Ok bs.
Proof.
  intros Hn. unfold _encode_varint.
  assert (Hs : 0 <= Z.shiftr n 7 < Z.of_nat (S (Z.to_nat n))).
  { rewrite shiftr_7. split; [apply Z.div_pos; lia|].
    assert (n / 128 <= n) by (apply Z.div_le_upper_bound; lia). lia. }
  rewrite varint_loop_prefix.
  destruct (varint_loop_terminates _ _ [] Hs) as (gs & Hgs).
  rewrite Hgs. cbn [bind].
  destruct (varint_loop_read _ _ _ (proj1 Hs) Hgs) as (Hr & _).
  eexists. apply py_bytes_ok.
  rewrite rev_app_distr. apply Forall_app. split.
  - apply Forall_rev. eapply Forall_impl; [|exact Hr]. simpl. lia.
  - constructor; [|constructor].
    rewrite land_127. pose proof (Z.mod_pos_bound n 128 ltac:(lia)). lia.
Qed.

Lemma continuation_shape_app (gs : list byte) (b : byte) :
  Forall (fun g => 128 <= byte_to_Z g) gs -> byte_to_Z b < 128 ->
  continuation_shape (gs ++ [b]).
Proof.
  intros Hgs Hb. induction Hgs as [|g gs Hg _ IH]; simpl; [assumption|].
  destruct (gs ++ [b]) eqn:E; [destruct gs; discriminate|].
  split; assumption.
Qed.

(** What any successful call returns. *)
Lemma encode_varint_spec (fuel : nat) (n : Z) (bs : list byte) :
  _encode_varint fuel n = Ok bs ->
  0 <= n /\ continuation_shape bs /\ bs <> [] /\
  forall tail, read_varint (bs ++ tail) = Some (n, tail).
Proof.
  intros H.
  assert (Hn : 0 <= n).
  { destruct (Z.lt_ge_cases n 0) as [Hneg|]; [|assumption].
    rewrite encode_varint_negative in H by assumption. discriminate. }
  split; [assumption|].
  unfold _encode_varint in H. rewrite varint_loop_prefix in H.
  destruct (varint_loop fuel (Z.shiftr n 7) []) as [gs| |] eqn:E; try discriminate.
  cbn [bind] in H.
  assert (Hs : 0 <= Z.shiftr n 7) by (apply Z.shiftr_nonneg; lia).
  destruct (varint_loop_read _ _ _ Hs E) as (Hr & Hread).
  assert (Hlow : 0 <= Z.land n 127 < 128).
  { rewrite land_127. apply Z.mod_pos_bound. lia. }
  rewrite rev_app_distr in H. cbn [rev app] in H.
  rewrite py_bytes_ok in H.
  2:{ apply Forall_app. split.
      - apply Forall_rev. eapply Forall_impl; [|exact Hr]. simpl. lia.
      - constructor; [lia | constructor]. }
  injection H as <-. rewrite map_app. cbn [List.map].
  split; [|split].
  - apply continuation_shape_app.
    + apply Forall_forall. intros g Hg. apply in_map_iff in Hg.
      destruct Hg as (z & <- & Hz). apply in_rev in Hz.
      rewrite Forall_forall in Hr. specialize (Hr z Hz).
      rewrite low_byte_value; lia.
    + rewrite low_byte_value; lia.
  - destruct (List.map low_byte (rev gs)); discriminate.
  - intros tail. unfold read_varint. rewrite <- app_assoc. rewrite Hread.
    cbn [app read_varint_from]. rewrite low_byte_value by lia.
    destruct (Z.ltb_spec (Z.land n 127) 128); [|lia].
    f_equal. f_equal. rewrite land_127, shiftr_7.
    pose proof (Z.div_mod n 128 ltac:(lia)). lia.
Qed.

(** C2. For every non-negative [n], [_encode_varint] returns bytes that
    read back as [n]: base 128, most significant group first, the
    continuation bit on every byte but the last.  Any amount of fuel that
    lets the loop finish gives the same bytes.  The encodings of 0, 127 and
    128 are [00], [7F] and [81 00]. *)
Theorem encode_varint_round_trip (n : Z) (Hn : 0 <= n) :
  (exists bs,
      _encode_varint (S (Z.to_nat n)) n = Ok bs /\
      (forall fuel bs', _encode_varint fuel n = Ok bs' -> bs' = bs) /\
      continuation_shape bs /\
      read_varint bs = Some (n, [])) /\
  _encode_varint 1 0 = Ok [x00] /\
  _encode_varint 1 127 = Ok [x7f] /\
  _encode_varint 2 128 = Ok [x81; x00].
Proof.
  split; [|repeat split; reflexivity].
  destruct (encode_varint_terminates n Hn) as (bs & Hbs).
  exists bs. split; [assumption|].
  destruct (encode_varint_spec _ _ _ Hbs) as (_ & Hshape & _ & Hread).
  split; [|split].
  - intros fuel bs' H'.
    destruct (Nat.le_ge_cases fuel (S (Z.to_nat n))) as [Hle|Hle].
    + pose proof (encode_varint_mono _ _ _ _ H' Hle). congruence.
    + pose proof (encode_varint_mono _ _ _ _ Hbs Hle). congruence.
  - assumption.
  - specialize (Hread []). rewrite app_nil_r in Hread. assumption.
Qed.

Lemma encode_varint_round_trip_witness :
  exists bs, _encode_varint 301 300 = Ok bs /\ read_varint bs = Some (300, []).
Proof.
  destruct (encode_varint_round_trip 300 ltac:(lia)) as ((bs & Hbs & _ & _ & Hread) & _).
  exists bs. split; [exact Hbs | exact Hread].
Defined.

(** ** Octave folding *)

Lemma up_loop_closed (fuel : nat) :
  forall m, PITCH_MIN - m <= Z.of_nat fuel ->
            up_loop fuel m = if m <? PITCH_MIN then PITCH_MIN + (m - PITCH_MIN) mod 12 else m.
Proof.
  unfold PITCH_MIN.
  induction fuel as [|fuel IH]; intros m Hf; cbn [up_loop]; unfold PITCH_MIN.
  - destruct (Z.ltb_spec m 48); [lia | reflexivity].
  - destruct (Z.ltb_spec m 48) as [Hlt|]; [|reflexivity].
    rewrite IH by lia.
    replace (m + 12 - 48) with (m - 48 + 1 * 12) by lia.
    rewrite Z_mod_plus_full.
    destruct (Z.ltb_spec (m + 12) 48) as [|Hge]; [reflexivity|].
    replace (m - 48) with (m - 36 + (-1) * 12) by lia.
    rewrite Z_mod_plus_full, Z.mod_small by lia. lia.
Qed.

Lemma down_loop_closed (fuel : nat) :
  forall m, m - PITCH_MAX <= Z.of_nat fuel ->
            down_loop fuel m = if m >? PITCH_MAX then PITCH_MAX - (PITCH_MAX - m) mod 12 else m.
Proof.
  unfold PITCH_MAX.
  induction fuel as [|fuel IH]; intros m Hf; cbn [down_loop]; unfold PITCH_MAX.
  - destruct (Z.gtb_spec m 72); [lia | reflexivity].
  - destruct (Z.gtb_spec m 72) as [Hgt|]; [|reflexivity].
    rewrite IH by lia.
    replace (72 - (m - 12)) with (72 - m + 1 * 12) by lia.
    rewrite Z_mod_plus_full.
    destruct (Z.gtb_spec (m - 12) 72) as [|Hle]; [reflexivity|].
    replace (72 - m) with (84 - m + (-1) * 12) by lia.
    rewrite Z_mod_plus_full, Z.mod_small by lia. lia.
Qed.

Lemma fold_up_closed (m : Z) :
  fold_up m = if m <? PITCH_MIN then PITCH_MIN + (m - PITCH_MIN) mod 12 else m.
Proof. apply up_loop_closed. lia. Qed.

Lemma fold_down_closed (m : Z) :
  fold_down m = if m >? PITCH_MAX then PITCH_MAX - (PITCH_MAX - m) mod 12 else m.
Proof. apply down_loop_closed. lia. Qed.

(** [fold_up] and [fold_down] satisfy the equations of the two [while]
    loops. *)
Lemma fold_up_loop (m : Z) :
  fold_up m = if m <? PITCH_MIN then fold_up (m + 12) else m.
Proof.
  rewrite !fold_up_closed. unfold PITCH_MIN.
  destruct (Z.ltb_spec m 48); [|reflexivity].
  replace (m + 12 - 48) with (m - 48 + 1 * 12) by lia.
  rewrite Z_mod_plus_full.
  destruct (Z.ltb_spec (m + 12) 48); [reflexivity|].
  replace (m - 48) with (m - 36 + (-1) * 12) by lia.
  rewrite Z_mod_plus_full, Z.mod_small by lia. lia.
Qed.

Lemma fold_down_loop (m : Z) :
  fold_down m = if m >? PITCH_MAX then fold_down (m - 12) else m.
Proof.
  rewrite !fold_down_closed. unfold PITCH_MAX.
  destruct (Z.gtb_spec m 72); [|reflexivity].
  replace (72 - (m - 12)) with (72 - m + 1 * 12) by lia.
  rewrite Z_mod_plus_full.
  destruct (Z.gtb_spec (m - 12) 72); [reflexivity|].
  replace (72 - m) with (84 - m + (-1) * 12) by lia.
  rewrite Z_mod_plus_full, Z.mod_small by lia. lia.
Qed.

(** The folded value, in closed form. *)
Lemma fold_closed (m : Z) :
  fold_down (fold_up m) =
  if m <? 48 then 48 + (m - 48) mod 12
  else if m >? 72 then 72 - (72 - m) mod 12
  else m.
Proof.
  rewrite fold_up_closed, fold_down_closed. unfold PITCH_MIN, PITCH_MAX.
  destruct (Z.ltb_spec m 48).
  - pose proof (Z.mod_pos_bound (m - 48) 12 ltac:(lia)).
    destruct (Z.gtb_spec (48 + (m - 48) mod 12) 72); [lia | reflexivity].
  - reflexivity.
Qed.

Lemma fold_range (m : Z) : 48 <= fold_down (fold_up m) <= 72.
Proof.
  rewrite fold_closed.
  pose proof (Z.mod_pos_bound (m - 48) 12 ltac:(lia)).
  pose proof (Z.mod_pos_bound (72 - m) 12 ltac:(lia)).
  destruct (Z.ltb_spec m 48); [lia|].
  destruct (Z.gtb_spec m 72); lia.
Qed.

Lemma fold_pitch_class (m : Z) : fold_down (fold_up m) mod 12 = m mod 12.
Proof.
  rewrite fold_closed.
  destruct (Z.ltb_spec m 48); [|destruct (Z.gtb_spec m 72); [|reflexivity]].
  - replace 48 with (4 * 12) at 1 by lia.
    rewrite Z.add_comm, Z_mod_plus_full, Z.mod_mod by lia.
    replace (m - 48) with (m + (-4) * 12) by lia.
    apply Z_mod_plus_full.
  - pose proof (Z.div_mod (72 - m) 12 ltac:(lia)) as E.
    replace (72 - (72 - m) mod 12) with (m + (72 - m) / 12 * 12) by lia.
    apply Z_mod_plus_full.
Qed.

(** ** Parsing a pitch token *)

Ltac digit_cases H :=
  unfold decimal_digits in H; simpl In in H;
  repeat (destruct H as [<-|H]); [..|contradiction].

Lemma digit_is_digit (d : ascii) : In d decimal_digits -> is_digit d = true.
Proof. intros H. digit_cases H; reflexivity. Qed.

Lemma digit_not_space (d : ascii) : In d decimal_digits -> is_space d = false.
Proof. intros H. digit_cases H; reflexivity. Qed.

Lemma digits_all_digits (ds : list ascii) :
  ds <> [] -> Forall (fun d => In d decimal_digits) ds -> all_digits ds = true.
Proof.
  intros Hne H. destruct ds as [|d ds]; [congruence|].
  unfold all_digits. apply forallb_forall. intros c Hc.
  rewrite Forall_forall in H. apply digit_is_digit, H, Hc.
Qed.

Lemma digits_value_from (ds : list ascii) :
  forall acc,
    fold_left (fun a d => 10 * a + digit_value d) ds acc =
    acc * 10 ^ Z.of_nat (List.length ds) + decimal ds.
Proof.
  induction ds as [|d ds IH]; intros acc; cbn [fold_left decimal List.length].
  - simpl. lia.
  - rewrite IH. rewrite Nat2Z.inj_succ, Z.pow_succ_r by lia.
    unfold digit_value, code. lia.
Qed.

Lemma digits_value_decimal (ds : list ascii) : digits_value ds = decimal ds.
Proof. unfold digits_value. rewrite digits_value_from. lia. Qed.

Lemma match_octave_token (neg : bool) (ds : list ascii) :
  ds <> [] -> Forall (fun d => In d decimal_digits) ds ->
  match_octave (sign_chars neg ++ ds) = Some (sign_chars neg ++ ds) /\
  int_of_decimal (sign_chars neg ++ ds) =
    if (int_max_str_digits <? List.length ds)%nat then Raise ValueError
    else Ok (if neg then - decimal ds else decimal ds).
Proof.
  intros Hne Hds. pose proof (digits_all_digits ds Hne Hds) as Hall.
  destruct neg; cbn [sign_chars app].
  - cbn [match_octave]. unfold int_of_decimal. cbv beta iota.
    rewrite Hall, digits_value_decimal. auto.
  - destruct ds as [|d ds]; [congruence|].
    assert (Hd : In d decimal_digits) by (inversion Hds; assumption).
    rewrite <- digits_value_decimal. unfold int_of_decimal.
    digit_cases Hd; cbn [match_octave]; cbv beta iota; rewrite Hall; auto.
Qed.

Lemma letter_semitone (c : ascii) :
  In c letters -> exists s, _NOTE_MAP c = Some s /\ is_space c = false.
Proof.
  unfold letters. simpl In. intros H.
  repeat (destruct H as [<-|H]); [..|contradiction]; eexists; split; reflexivity.
Qed.

Lemma lstrip_id (c : ascii) (s : list ascii) :
  is_space c = false -> lstrip (c :: s) = c :: s.
Proof. intros H. simpl. rewrite H. reflexivity. Qed.

Lemma strip_id (s : list ascii) (c z : ascii) (mid : list ascii) :
  s = c :: mid ++ [z] -> is_space c = false -> is_space z = false -> strip s = s.
Proof.
  intros -> Hc Hz. unfold strip. rewrite lstrip_id by assumption.
  change (c :: mid ++ [z]) with ((c :: mid) ++ [z]).
  rewrite rev_app_distr. cbn [rev app]. rewrite lstrip_id by assumption.
  change (z :: rev mid ++ [c]) with ([z] ++ rev (c :: mid)).
  rewrite rev_app_distr, rev_involutive. reflexivity.
Qed.

Lemma token_chars_strip (t : token) :
  token_ok t -> strip (token_chars t) = token_chars t.
Proof.
  intros (Hl & _ & Hne & Hds).
  destruct (letter_semitone _ Hl) as (s & _ & Hsp).
  destruct (exists_last Hne) as (ds' & z & E).
  assert (Hz : In z decimal_digits).
  { rewrite Forall_forall in Hds. apply Hds. rewrite E. apply in_or_app. right. left. reflexivity. }
  unfold token_chars. rewrite E.
  eapply strip_id with (z := z); [|exact Hsp | exact (digit_not_space _ Hz)].
  rewrite !app_assoc. reflexivity.
Qed.

Lemma fullmatch_token (t : token) :
  token_ok t ->
  exists acc,
    fullmatch_pitch (token_chars t) =
      Some (tk_letter t, acc, sign_chars (tk_negative t) ++ tk_digits t) /\
    _ACCID_MAP_get acc =
      match tk_accidental t with
      | Some "#"%char => 1
      | Some "b"%char => -1
      | _ => 0
      end.
Proof.
  intros (Hl & Ha & Hne & Hds).
  destruct (letter_semitone _ Hl) as (s & Hs & _).
  destruct (match_octave_token (tk_negative t) _ Hne Hds) as (Hm & _).
  destruct t as [c a neg ds]. cbn [tk_letter tk_accidental tk_negative tk_digits] in *.
  unfold token_chars. cbn [tk_letter tk_accidental tk_negative tk_digits].
  cbn [fullmatch_pitch]. rewrite Hs.
  simpl In in Ha. destruct Ha as [<-|[<-|[<-|[]]]].
  - exists []. split; [|reflexivity]. cbn [app].
    destruct neg; cbn [sign_chars app] in *.
    + cbn [is_accidental]. simpl (Ascii.eqb _ _ || _). cbn iota. rewrite Hm. reflexivity.
    + destruct ds as [|d ds]; [congruence|].
      assert (Hd : In d decimal_digits) by (inversion Hds; assumption).
      digit_cases Hd; simpl (is_accidental _); cbn iota; rewrite Hm; reflexivity.
  - exists ["#"%char]. split; [|reflexivity]. cbn [app].
    simpl (is_accidental _). cbn iota. rewrite Hm. reflexivity.
  - exists ["b"%char]. split; [|reflexivity]. cbn [app].
    simpl (is_accidental _). cbn iota. rewrite Hm. reflexivity.
Qed.

(** On a token of the grammar, [pitch_to_midi] is decided by the number
    of digits of the octave. *)
Lemma pitch_to_midi_token_cases (t : token) :
  token_ok t ->
  pitch_to_midi (token_text t) =
    if (int_max_str_digits <? List.length (tk_digits t))%nat then Raise ValueError
    else Ok (fold_down (fold_up (token_base t))).
Proof.
  intros Hok.
  destruct (fullmatch_token t Hok) as (acc & Hfm & Hacc).
  pose proof (token_chars_strip t Hok) as Hstrip.
  destruct Hok as (Hl & Ha & Hne & Hds).
  destruct (letter_semitone _ Hl) as (s & Hs & _).
  destruct (match_octave_token (tk_negative t) _ Hne Hds) as (_ & Hint).
  unfold pitch_to_midi, token_text.
  rewrite list_ascii_of_string_of_list_ascii, Hstrip, Hfm, Hint.
  destruct (int_max_str_digits <? List.length (tk_digits t))%nat; [reflexivity|].
  cbn [bind]. rewrite Hs, Hacc.
  unfold token_base, token_octave. rewrite Hs. reflexivity.
Qed.

(** Within the digit limit, [pitch_to_midi] folds the token's base
    number. *)
Lemma pitch_to_midi_token (t : token) :
  token_ok t -> within_digit_limit t ->
  pitch_to_midi (token_text t) = Ok (fold_down (fold_up (token_base t))).
Proof.
  intros Hok Hd. rewrite (pitch_to_midi_token_cases t Hok).
  unfold within_digit_limit in Hd.
  destruct (Nat.ltb_spec int_max_str_digits (List.length (tk_digits t)));
    [lia | reflexivity].
Qed.

(** Beyond the limit, [int()] raises and so does [pitch_to_midi]. *)
Lemma pitch_to_midi_long (t : token) :
  token_ok t -> ~ within_digit_limit t ->
  pitch_to_midi (token_text t) = Raise ValueError.
Proof.
  intros Hok Hd. rewrite (pitch_to_midi_token_cases t Hok).
  unfold within_digit_limit in Hd.
  destruct (Nat.ltb_spec int_max_str_digits (List.length (tk_digits t)));
    [reflexivity | lia].
Qed.

Lemma long_token_ok : token_ok long_token.
Proof.
  unfold token_ok, long_token. cbn [tk_letter tk_accidental tk_digits].
  split; [unfold letters; simpl; auto 12|].
  split; [simpl; auto|].
  split; [discriminate|].
  apply Forall_forall. intros d Hd. apply repeat_spec in Hd. subst d.
  unfold decimal_digits. simpl. auto 12.
Qed.

Lemma long_token_over_limit : ~ within_digit_limit long_token.
Proof.
  unfold within_digit_limit, long_token, int_max_str_digits.
  cbn [tk_digits]. rewrite repeat_length. lia.
Qed.

(** C4, as stated, fails: the letter C followed by 4301 zeros is a token of
    the grammar, and [int()] refuses its octave, so [pitch_to_midi] raises
    [ValueError]. *)
Lemma long_octave_does_not_resolve :
  ~ (forall s : string,
        matches_grammar s ->
        exists m, pitch_to_midi s = Ok m /\ PITCH_MIN <= m <= PITCH_MAX).
Proof.
  intros H.
  destruct (H (token_text long_token)) as (m & Hm & _).
  - exists long_token. split; [exact long_token_ok | reflexivity].
  - rewrite (pitch_to_midi_long long_token long_token_ok long_token_over_limit) in Hm.
    discriminate Hm.
Qed.

(** C4, amended. A pitch token of the grammar [[A-G][#b]?-?\d+] whose
    octave has at most 4300 digits resolves, to a number in the closed
    range 48..72; with more digits [pitch_to_midi] raises [ValueError].
    ["C4"], ["C3"] and ["C5"] resolve to 60, 48 and 72. *)
Theorem pitch_to_midi_in_range (t : token) (Ht : token_ok t) :
  (within_digit_limit t ->
   exists m, pitch_to_midi (token_text t) = Ok m /\ PITCH_MIN <= m <= PITCH_MAX) /\
  (~ within_digit_limit t -> pitch_to_midi (token_text t) = Raise ValueError) /\
  pitch_to_midi "C4" = Ok 60 /\
  pitch_to_midi "C3" = Ok 48 /\
  pitch_to_midi "C5" = Ok 72.
Proof.
  split; [|split; [|repeat split; reflexivity]].
  - intros Hd. rewrite (pitch_to_midi_token t Ht Hd).
    eexists. split; [reflexivity|]. apply fold_range.
  - intros Hd. apply pitch_to_midi_long; assumption.
Qed.

Lemma token_Fsharp_neg1_ok : token_ok token_Fsharp_neg1.
Proof.
  unfold token_ok, token_Fsharp_neg1, letters, decimal_digits. simpl.
  repeat split; auto 12; try discriminate.
  all: try (constructor; [simpl; auto 12 | constructor]).
Defined.

Lemma one_digit_within_limit (t : token) :
  (List.length (tk_digits t) <= 1)%nat -> within_digit_limit t.
Proof. unfold within_digit_limit, int_max_str_digits. lia. Defined.

Lemma pitch_to_midi_in_range_witness :
  exists m, pitch_to_midi "F#-1" = Ok m /\ PITCH_MIN <= m <= PITCH_MAX.
Proof.
  refine (proj1 (pitch_to_midi_in_range token_Fsharp_neg1 token_Fsharp_neg1_ok) _).
  apply one_digit_within_limit. simpl. lia.
Defined.

Lemma token_C4_ok : token_ok token_C4.
Proof.
  unfold token_ok, token_C4, letters, decimal_digits. simpl.
  repeat split; auto 12; try discriminate.
  all: try (constructor; [simpl; auto 12 | constructor]).
Defined.

Lemma token_C3_ok : token_ok token_C3.
Proof.
  unfold token_ok, token_C3, letters, decimal_digits. simpl.
  repeat split; auto 12; try discriminate.
  all: try (constructor; [simpl; auto 12 | constructor]).
Defined.

(** C3, as stated, fails: ["C3"] is ["C4"] moved down one octave, and the
    two resolve to 48 and 60. *)
Lemma octave_shift_not_invariant :
  ~ (forall (t t' : token) (k : Z),
        token_ok t -> token_ok t' -> shifted k t t' ->
        pitch_to_midi (token_text t') = pitch_to_midi (token_text t)).
Proof.
  intros H.
  specialize (H token_C4 token_C3 (-1) token_C4_ok token_C3_ok).
  assert (Hs : shifted (-1) token_C4 token_C3) by (repeat split).
  specialize (H Hs). vm_compute in H. discriminate.
Qed.

(** C3, amended. Moving the octave of a token by [k] keeps the pitch class:
    when both octaves are within the 4300 digits [int()] converts, both
    tokens resolve, to numbers of 48..72 that are equal modulo 12; the two
    numbers are equal when both unfolded numbers lie below 48, when both
    lie above 72, and when [k] is 0. *)
Theorem octave_shift_keeps_pitch_class (t t' : token) (k : Z)
        (Ht : token_ok t) (Ht' : token_ok t')
        (Hd : within_digit_limit t) (Hd' : within_digit_limit t')
        (Hk : shifted k t t') :
  exists m m',
    pitch_to_midi (token_text t) = Ok m /\
    pitch_to_midi (token_text t') = Ok m' /\
    PITCH_MIN <= m <= PITCH_MAX /\ PITCH_MIN <= m' <= PITCH_MAX /\
    m' mod 12 = m mod 12 /\
    token_base t' = token_base t + 12 * k /\
    (token_base t < PITCH_MIN -> token_base t' < PITCH_MIN -> m' = m) /\
    (token_base t > PITCH_MAX -> token_base t' > PITCH_MAX -> m' = m) /\
    (k = 0 -> m' = m).
Proof.
  assert (Hb : token_base t' = token_base t + 12 * k).
  { destruct Hk as (Hl & Ha & Ho). unfold token_base. rewrite Hl, Ha, Ho. lia. }
  exists (fold_down (fold_up (token_base t))), (fold_down (fold_up (token_base t'))).
  split; [apply pitch_to_midi_token; assumption|].
  split; [apply pitch_to_midi_token; assumption|].
  split; [apply fold_range|]. split; [apply fold_range|].
  split.
  { rewrite !fold_pitch_class, Hb.
    replace (token_base t + 12 * k) with (token_base t + k * 12) by lia.
    apply Z_mod_plus_full. }
  split; [assumption|].
  unfold PITCH_MIN, PITCH_MAX. rewrite !fold_closed.
  split; [|split].
  - intros H1 H2.
    destruct (Z.ltb_spec (token_base t) 48); [|lia].
    destruct (Z.ltb_spec (token_base t') 48); [|lia].
    rewrite Hb. f_equal.
    replace (token_base t + 12 * k - 48) with (token_base t - 48 + k * 12) by lia.
    apply Z_mod_plus_full.
  - intros H1 H2.
    destruct (Z.ltb_spec (token_base t) 48); [lia|].
    destruct (Z.ltb_spec (token_base t') 48); [lia|].
    destruct (Z.gtb_spec (token_base t) 72); [|lia].
    destruct (Z.gtb_spec (token_base t') 72); [|lia].
    rewrite Hb. f_equal.
    replace (72 - (token_base t + 12 * k)) with (72 - token_base t + (- k) * 12) by lia.
    apply Z_mod_plus_full.
  - intros ->. rewrite Hb. replace (token_base t + 12 * 0) with (token_base t) by lia.
    reflexivity.
Qed.

Lemma octave_shift_keeps_pitch_class_witness :
  exists m m',
    pitch_to_midi "C4" = Ok m /\ pitch_to_midi "C3" = Ok m' /\ m' mod 12 = m mod 12.
Proof.
  destruct (octave_shift_keeps_pitch_class token_C4 token_C3 (-1) token_C4_ok token_C3_ok)
    as (m & m' & H1 & H2 & _ & _ & H3 & _).
  - apply one_digit_within_limit. simpl. lia.
  - apply one_digit_within_limit. simpl. lia.
  - repeat split.
  - exists m, m'. repeat split; assumption.
Defined.

(** ** The tempo meta-event *)

Lemma low_byte_mod (z : Z) : byte_to_Z (low_byte z) = z mod 256.
Proof.
  unfold low_byte, byte_to_Z.
  pose proof (Z.mod_pos_bound z 256 ltac:(lia)) as Hm.
  destruct (Byte.of_N (Z.to_N (z mod 256))) as [b|] eqn:E.
  - apply Byte.to_of_N in E. rewrite E. lia.
  - apply Byte.of_N_None_iff in E. lia.
Qed.

(** [int(n / d)] on exact quotients of non-negative integers is the floor
    quotient. *)
Lemma py_int_quotient (n d : Z) :
  0 <= n -> 0 < d -> py_int (inject_Z n / inject_Z d) = n / d.
Proof.
  intros Hn Hd. destruct d as [|p|p]; try lia.
  unfold py_int, Qdiv, Qinv, Qmult, inject_Z. cbn [Qnum Qden].
  rewrite Z.mul_1_r, Pos.mul_1_l.
  apply Z.quot_div_nonneg; lia.
Qed.

Lemma clamped_bpm_range (sc : score) : 40 <= clamped_bpm sc <= 200.
Proof. unfold clamped_bpm, clamp. lia. Qed.

Lemma clamped_bpm_id (sc : score) (b : Z) :
  tempo_bpm sc = Some b -> 40 <= b <= 200 -> clamped_bpm sc = b.
Proof. intros E Hb. unfold clamped_bpm, clamp. rewrite E. simpl. lia. Qed.

Lemma meta_tempo_bytes (b : Z) :
  40 <= b <= 200 ->
  let us := 60000000 / b in
  _meta_tempo b =
    Ok [xff; x51; x03; low_byte (us / 2 ^ 16); low_byte (us / 2 ^ 8); low_byte us] /\
  0 <= us < 2 ^ 24.
Proof.
  intros Hb us.
  assert (Hus : 0 <= us < 2 ^ 24).
  { unfold us. split; [apply Z.div_pos; lia|].
    apply Z.div_lt_upper_bound; lia. }
  split; [|assumption].
  unfold _meta_tempo.
  destruct (Z.eqb_spec b 0); [lia|].
  rewrite py_int_quotient by lia. fold us.
  unfold pack_be32.
  destruct (Z.leb_spec 0 us); [|lia].
  destruct (Z.ltb_spec us (2 ^ 32)); [|lia].
  reflexivity.
Qed.

(** The same microseconds through the double quotient, as the code
    computes them, for every tempo that [build_midi] passes. *)
Lemma tempo_quotient_exact (b : Z) :
  40 <= b <= 200 ->
  (q <- true_div 60000000 b ;; int_of_float q) = Ok (60000000 / b).
Proof.
  intros Hb.
  assert (Hall : forallb (fun k : nat =>
                   match (q <- true_div 60000000 (40 + Z.of_nat k) ;; int_of_float q) with
                   | Ok us => us =? 60000000 / (40 + Z.of_nat k)
                   | _ => false
                   end) (seq 0 161) = true) by (vm_compute; reflexivity).
  rewrite forallb_forall in Hall.
  specialize (Hall (Z.to_nat (b - 40))).
  replace (40 + Z.of_nat (Z.to_nat (b - 40))) with b in Hall by lia.
  assert (Hin : In (Z.to_nat (b - 40)) (seq 0 161)) by (apply in_seq; lia).
  specialize (Hall Hin).
  destruct (q <- true_div 60000000 b ;; int_of_float q) as [us| |]; try discriminate Hall.
  apply Z.eqb_eq in Hall. rewrite Hall. reflexivity.
Qed.

Lemma track_prelude_bytes (fuel : nat) (b : Z) :
  40 <= b <= 200 ->
  let us := 60000000 / b in
  track_prelude (S fuel) b =
    Ok [x00; xff; x51; x03; low_byte (us / 2 ^ 16); low_byte (us / 2 ^ 8); low_byte us;
        x00; xc0; x00].
Proof.
  intros Hb us. destruct (meta_tempo_bytes b Hb) as (Hm & _). fold us in Hm.
  unfold track_prelude. cbn [_encode_varint varint_loop].
  change (Z.shiftr 0 7 =? 0) with true. cbn [bind].
  change (py_bytes (rev [Z.land 0 127])) with (Ok (A:=list byte) [x00]).
  cbn [bind]. rewrite Hm. cbn [bind].
  change (py_bytes [192; 0]) with (Ok (A:=list byte) [xc0; x00]).
  reflexivity.
Qed.

(** C6. For a tempo [b] of 40..200 the tempo meta-event is [FF 51 03] and
    three bytes whose big-endian value is the floor of [60000000 / b]; it
    opens the track that [build_midi] writes for a score of that tempo. *)
Theorem tempo_event_payload (b : Z) (Hb : 40 <= b <= 200) :
  exists b1 b2 b3,
    _meta_tempo b = Ok [xff; x51; x03; b1; b2; b3] /\
    be_value [b1; b2; b3] = 60000000 / b /\
    forall (sc : score) (fuel : nat),
      tempo_bpm sc = Some b ->
      track_prelude (S fuel) (clamped_bpm sc) =
        Ok [x00; xff; x51; x03; b1; b2; b3; x00; xc0; x00].
Proof.
  destruct (meta_tempo_bytes b Hb) as (Hm & Hus).
  set (us := 60000000 / b) in *.
  exists (low_byte (us / 2 ^ 16)), (low_byte (us / 2 ^ 8)), (low_byte us).
  split; [exact Hm|]. split.
  - unfold be_value. cbn [fold_left]. rewrite !low_byte_mod.
    change (2 ^ 16) with 65536. change (2 ^ 8) with 256.
    change (2 ^ 24) with 16777216 in Hus.
    Z.div_mod_to_equations. lia.
  - intros sc fuel E. rewrite (clamped_bpm_id sc b E Hb).
    apply track_prelude_bytes. exact Hb.
Qed.

Lemma tempo_event_payload_witness :
  exists b1 b2 b3,
    _meta_tempo 90 = Ok [xff; x51; x03; b1; b2; b3] /\
    be_value [b1; b2; b3] = 60000000 / 90.
Proof.
  destruct (tempo_event_payload 90 ltac:(lia)) as (b1 & b2 & b3 & H1 & H2 & _).
  exists b1, b2, b3. split; assumption.
Defined.

(** ** The stable sort *)

Section StableSortFacts.
Context {A : Type} (leb : A -> A -> bool).
Hypothesis leb_total : forall a b, leb a b = false -> leb b a = true.
Hypothesis leb_trans : forall a b c, leb a b = true -> leb b c = true -> leb a c = true.

Let le (a b : A) : Prop := leb a b = true.

Lemma insert_sorted_perm (x : A) (l : list A) :
  Permutation (insert_sorted leb x l) (x :: l).
Proof.
  induction l as [|y l IH]; simpl; [reflexivity|].
  destruct (leb x y); [reflexivity|].
  rewrite IH. apply perm_swap.
Qed.

Lemma stable_sort_perm (l : list A) : Permutation (stable_sort leb l) l.
Proof.
  induction l as [|x l IH]; simpl; [reflexivity|].
  rewrite insert_sorted_perm. constructor. exact IH.
Qed.

Lemma insert_sorted_sorted (x : A) (l : list A) :
  StronglySorted le l -> StronglySorted le (insert_sorted leb x l).
Proof.
  induction 1 as [|y l Hs IH Hy]; simpl.
  - constructor; constructor.
  - destruct (leb x y) eqn:E.
    + constructor; [constructor; assumption|].
      constructor; [exact E|].
      eapply Forall_impl; [|exact Hy]. intros z Hz. eapply leb_trans; eassumption.
    + constructor; [exact IH|].
      assert (Hp := insert_sorted_perm x l).
      eapply Permutation_Forall; [symmetry; exact Hp|].
      constructor; [apply leb_total; exact E | exact Hy].
Qed.

Lemma stable_sort_sorted (l : list A) : StronglySorted le (stable_sort leb l).
Proof.
  induction l as [|x l IH]; simpl; [constructor|].
  apply insert_sorted_sorted. exact IH.
Qed.

End StableSortFacts.

Lemma event_leb_le (a b : event) : event_leb a b = true <-> event_le a b.
Proof.
  unfold event_leb, event_le.
  rewrite orb_true_iff, andb_true_iff, Z.ltb_lt, Z.eqb_eq, Z.leb_le. reflexivity.
Qed.

Lemma event_leb_total (a b : event) : event_leb a b = false -> event_leb b a = true.
Proof.
  intros H. apply event_leb_le.
  assert (Hn : ~ event_le a b) by (rewrite <- event_leb_le; congruence).
  unfold event_le in *. lia.
Qed.

Lemma event_leb_trans (a b c : event) :
  event_leb a b = true -> event_leb b c = true -> event_leb a c = true.
Proof.
  rewrite !event_leb_le. unfold event_le. lia.
Qed.

(** ** The scheduler *)

Lemma int_of_decimal_cases (s : list ascii) :
  (exists z, int_of_decimal s = Ok z) \/ int_of_decimal s = Raise ValueError.
Proof.
  unfold int_of_decimal.
  destruct (match s with
            | "-"%char :: ds => (true, ds)
            | _ => (false, s)
            end) as [negative ds].
  destruct (int_max_str_digits <? List.length ds)%nat; [right | left; eexists]; reflexivity.
Qed.

(** [pitch_to_midi] returns a number of the range or raises [ValueError]. *)
Lemma pitch_to_midi_cases (s : string) :
  (exists m, pitch_to_midi s = Ok m /\ PITCH_MIN <= m <= PITCH_MAX) \/
  pitch_to_midi s = Raise ValueError.
Proof.
  unfold pitch_to_midi.
  destruct (fullmatch_pitch _) as [[[c acc] o]|]; [|right; reflexivity].
  destruct (int_of_decimal_cases o) as [(z & ->)| ->]; [|right; reflexivity].
  cbn [bind].
  destruct (_NOTE_MAP c); [|right; reflexivity].
  left. eexists. split; [reflexivity|]. apply fold_range.
Qed.

Lemma resolves_false (n : note) :
  resolves n = false <-> pitch_to_midi (pitch n) = Raise ValueError.
Proof.
  unfold resolves.
  destruct (pitch_to_midi_cases (pitch n)) as [(m & -> & _)| ->]; split; congruence.
Qed.

Lemma resolves_true (n : note) :
  resolves n = true <-> exists m, pitch_to_midi (pitch n) = Ok m.
Proof.
  unfold resolves.
  destruct (pitch_to_midi_cases (pitch n)) as [(m & -> & _)| ->]; split;
    try congruence; eauto.
  intros (m & H). discriminate.
Qed.

(** The two events of a note, from its ticks. *)
Lemma note_pair_ok (n : note) (m : Z) (two : list event) :
  note_pair n m = Ok two ->
  exists s d,
    start_tick n = Ok s /\ duration_ticks n = Ok d /\ 1 <= d /\
    two = [note_on s m (clamped_velocity n); note_off (s + d) m].
Proof.
  unfold note_pair. intros H.
  destruct (start_tick n) as [s| |]; try discriminate H. cbn [bind] in H.
  destruct (duration_ticks n) as [d| |] eqn:Ed; try discriminate H. cbn [bind] in H.
  injection H as <-. exists s, d. repeat split.
  unfold duration_ticks in Ed.
  destruct (ticks_of_beats (duration_beats n)) as [y| |]; try discriminate Ed.
  cbn [bind] in Ed.
  destruct (int_of_float _) as [t| |]; try discriminate Ed.
  cbn [bind] in Ed. injection Ed as <-. lia.
Qed.

Lemma note_events_ok (n : note) (m s d : Z) :
  pitch_to_midi (pitch n) = Ok m -> start_tick n = Ok s -> duration_ticks n = Ok d ->
  note_events n = [note_on s m (clamped_velocity n); note_off (s + d) m].
Proof.
  intros Hm Hs Hd. unfold note_events, note_pair. rewrite Hm, Hs, Hd. reflexivity.
Qed.

(** When the loop returns, it has computed the ticks of every note whose
    pitch resolves, and collected their events in the order of the
    notes. *)
Lemma collect_events_ok (notes : list note) :
  forall evs,
    collect_events notes = Ok evs ->
    evs = flat_map note_events notes /\
    forall n m, In n notes -> pitch_to_midi (pitch n) = Ok m ->
                exists two, note_pair n m = Ok two.
Proof.
  induction notes as [|n notes IH]; intros evs H.
  - injection H as <-. split; [reflexivity | intros ? ? []].
  - cbn [collect_events] in H. cbn [flat_map]. unfold note_events at 1.
    destruct (pitch_to_midi_cases (pitch n)) as [(m & Hm & _)|Hm]; rewrite Hm in *.
    + destruct (note_pair n m) as [two| |] eqn:Ep; try discriminate H.
      cbn [bind] in H.
      destruct (collect_events notes) as [rest| |]; try discriminate H.
      cbn [bind] in H. injection H as <-.
      destruct (IH rest eq_refl) as (-> & Hall). split; [reflexivity|].
      intros n' m' [<-|Hin] Hm'.
      * rewrite Hm in Hm'. injection Hm' as <-. eauto.
      * eapply Hall; eassumption.
    + destruct (IH evs H) as (-> & Hall). split; [reflexivity|].
      intros n' m' [<-|Hin] Hm'; [congruence|]. eapply Hall; eassumption.
Qed.

(** Conversely the loop returns when the ticks of every note whose pitch
    resolves are computed. *)
Lemma collect_events_returns (notes : list note) :
  (forall n m, In n notes -> pitch_to_midi (pitch n) = Ok m ->
               exists two, note_pair n m = Ok two) ->
  collect_events notes = Ok (flat_map note_events notes).
Proof.
  induction notes as [|n notes IH]; intros H; [reflexivity|].
  cbn [collect_events flat_map]. unfold note_events at 1.
  rewrite IH by (intros n' m' Hin; apply H; right; exact Hin).
  destruct (pitch_to_midi_cases (pitch n)) as [(m & Hm & _)|Hm]; rewrite Hm.
  - destruct (H n m (or_introl eq_refl) Hm) as (two & ->). reflexivity.
  - reflexivity.
Qed.

Lemma start_keys_notes (notes : list note) :
  forall ks, start_keys notes = Ok ks -> List.map snd ks = notes.
Proof.
  induction notes as [|n notes IH]; intros ks H.
  - injection H as <-. reflexivity.
  - cbn [start_keys] in H.
    destruct (py_float (start_beat n)) as [k| |]; try discriminate H. cbn [bind] in H.
    destruct (start_keys notes) as [ks'| |]; try discriminate H. cbn [bind] in H.
    injection H as <-. cbn [List.map snd]. f_equal. apply IH. reflexivity.
Qed.

(** [sorted] returns the notes of the melody, in some order. *)
Lemma sorted_by_start_perm (notes sorted : list note) :
  sorted_by_start notes = Ok sorted -> Permutation sorted notes.
Proof.
  unfold sorted_by_start. intros H.
  destruct (start_keys notes) as [ks| |] eqn:Ek; try discriminate H.
  cbn [bind] in H. injection H as <-.
  rewrite <- (start_keys_notes _ _ Ek).
  apply Permutation_map, stable_sort_perm.
Qed.

(** What the scheduler returns: the events of the notes, taken in some
    order of the melody and sorted by tick and priority. *)
Lemma scheduled_events_eq (sc : score) (evs : list event) :
  scheduled_events sc = Ok evs ->
  exists notes,
    Permutation notes (melody sc) /\
    evs = stable_sort event_leb (flat_map note_events notes) /\
    forall n m, In n (melody sc) -> pitch_to_midi (pitch n) = Ok m ->
                exists two, note_pair n m = Ok two.
Proof.
  unfold scheduled_events. intros H.
  destruct (sorted_by_start (melody sc)) as [notes| |] eqn:Es; try discriminate H.
  cbn [bind] in H.
  destruct (collect_events notes) as [events| |] eqn:Ec; try discriminate H.
  cbn [bind] in H. injection H as <-.
  pose proof (sorted_by_start_perm _ _ Es) as Hperm.
  destruct (collect_events_ok _ _ Ec) as (-> & Hall).
  exists notes. split; [exact Hperm|]. split; [reflexivity|].
  intros n m Hin. apply Hall. eapply Permutation_in; [symmetry; exact Hperm | exact Hin].
Qed.

Lemma clamped_velocity_range (n : note) : 0 <= clamped_velocity n <= 127.
Proof. unfold clamped_velocity, clamp. lia. Qed.

Lemma note_events_cases (n : note) :
  note_events n = [] \/
  exists m s d,
    pitch_to_midi (pitch n) = Ok m /\ PITCH_MIN <= m <= PITCH_MAX /\
    start_tick n = Ok s /\ duration_ticks n = Ok d /\ 1 <= d /\
    note_events n = [note_on s m (clamped_velocity n); note_off (s + d) m].
Proof.
  unfold note_events.
  destruct (pitch_to_midi_cases (pitch n)) as [(m & Hm & Hr)|Hm]; rewrite Hm;
    [|left; reflexivity].
  destruct (note_pair n m) as [two| |] eqn:Ep; try (left; reflexivity).
  destruct (note_pair_ok _ _ _ Ep) as (s & d & Hs & Hd & H1 & ->).
  right. exists m, s, d. auto 7.
Qed.

Lemma note_events_scheduler (n : note) : Forall scheduler_event (note_events n).
Proof.
  destruct (note_events_cases n) as [-> |(m & s & d & _ & Hm & _ & _ & _ & ->)];
    [constructor|].
  pose proof (clamped_velocity_range n).
  repeat constructor; simpl; auto; lia.
Qed.

Lemma flat_map_Forall {A B : Type} (P : B -> Prop) (f : A -> list B) (l : list A) :
  (forall a, In a l -> Forall P (f a)) -> Forall P (flat_map f l).
Proof.
  intros H. apply Forall_forall. intros b Hb.
  apply in_flat_map in Hb. destruct Hb as (a & Ha & Hb).
  specialize (H a Ha). rewrite Forall_forall in H. auto.
Qed.

(** The sorted list holds scheduler events only, in the order of
    [event_le]. *)
Lemma scheduled_events_sorted (sc : score) (evs : list event) :
  scheduled_events sc = Ok evs ->
  StronglySorted event_le evs /\ Forall scheduler_event evs.
Proof.
  intros H. destruct (scheduled_events_eq _ _ H) as (notes & _ & -> & _). split.
  - eapply StronglySorted_ind with
      (P := fun l => StronglySorted event_le l)
      (l := stable_sort event_leb _).
    + constructor.
    + intros a l _ IH Ha. constructor; [exact IH|].
      eapply Forall_impl; [|exact Ha]. intros b. apply event_leb_le.
    + apply stable_sort_sorted; [exact event_leb_total | exact event_leb_trans].
  - eapply Permutation_Forall; [symmetry; apply stable_sort_perm|].
    apply flat_map_Forall. intros n _. apply note_events_scheduler.
Qed.

(** The events of the list are those of the notes of the melody. *)
Lemma scheduled_events_In_iff (sc : score) (evs : list event) (e : event) :
  scheduled_events sc = Ok evs ->
  In e evs <-> exists n, In n (melody sc) /\ In e (note_events n).
Proof.
  intros H. destruct (scheduled_events_eq _ _ H) as (notes & Hperm & -> & _).
  split.
  - intros He.
    apply (Permutation_in _ (stable_sort_perm event_leb _)) in He.
    apply in_flat_map in He. destruct He as (n & Hn & He).
    exists n. split; [|exact He]. eapply Permutation_in; eassumption.
  - intros (n & Hn & He).
    eapply Permutation_in; [symmetry; apply stable_sort_perm|].
    apply in_flat_map. exists n. split; [|exact He].
    eapply Permutation_in; [symmetry; exact Hperm | exact Hn].
Qed.

(** A note of the melody whose pitch resolves has its two events in the
    list the scheduler returns, at the ticks computed for it. *)
Lemma scheduled_events_In (sc : score) (evs : list event) (n : note) (m : Z) :
  scheduled_events sc = Ok evs ->
  In n (melody sc) -> pitch_to_midi (pitch n) = Ok m ->
  exists s d,
    start_tick n = Ok s /\ duration_ticks n = Ok d /\ 1 <= d /\
    In (note_on s m (clamped_velocity n)) evs /\ In (note_off (s + d) m) evs.
Proof.
  intros H Hn Hm.
  destruct (scheduled_events_eq _ _ H) as (_ & _ & _ & Hall).
  destruct (Hall n m Hn Hm) as (two & Hp).
  destruct (note_pair_ok _ _ _ Hp) as (s & d & Hs & Hd & H1 & ->).
  exists s, d. repeat split; try assumption.
  - apply (scheduled_events_In_iff sc evs _ H). exists n. split; [exact Hn|].
    rewrite (note_events_ok n m s d Hm Hs Hd). left. reflexivity.
  - apply (scheduled_events_In_iff sc evs _ H). exists n. split; [exact Hn|].
    rewrite (note_events_ok n m s d Hm Hs Hd). right. left. reflexivity.
Qed.

(** ** Writing the events and reading them back *)

Lemma scheduler_event_bytes (e : event) :
  scheduler_event e ->
  py_bytes [ev_status e; ev_p1 e; ev_p2 e] =
    Ok [low_byte (ev_status e); low_byte (ev_p1 e); low_byte (ev_p2 e)] /\
  (low_byte (ev_status e) = x90 \/ low_byte (ev_status e) = x80).
Proof.
  unfold scheduler_event, PITCH_MIN, PITCH_MAX. intros (Hs & Hp1 & Hp2). split.
  - apply py_bytes_ok. repeat constructor; lia.
  - destruct Hs as [(-> & _)|(-> & _)]; [left | right]; reflexivity.
Qed.

Lemma write_events_length (fuel : nat) (evs : list event) :
  forall cur body,
    write_events fuel cur evs = Ok body -> (List.length evs <= List.length body)%nat.
Proof.
  induction evs as [|e evs IH]; intros cur body H; [simpl; lia|].
  cbn [write_events] in H.
  destruct (_encode_varint fuel (ev_tick e - cur)) as [d| |]; try discriminate.
  cbn [bind] in H.
  destruct (py_bytes [ev_status e; ev_p1 e; ev_p2 e]) as [msg| |] eqn:Em; try discriminate.
  cbn [bind] in H.
  destruct (write_events fuel (ev_tick e) evs) as [tail| |] eqn:Et; try discriminate.
  injection H as <-. specialize (IH _ _ Et).
  assert (List.length msg = 3%nat).
  { cbn [py_bytes] in Em.
    destruct (byte_of_Z (ev_status e)); try discriminate.
    destruct (byte_of_Z (ev_p1 e)); try discriminate.
    destruct (byte_of_Z (ev_p2 e)); try discriminate.
    injection Em as <-. reflexivity. }
  rewrite !length_app. cbn [List.length]. lia.
Qed.

Lemma read_track_end (fuel : nat) (tick : Z) :
  read_track (S fuel) tick end_of_track = Some [].
Proof. reflexivity. Qed.

(** The reader recovers the scheduler's events from the bytes the loop
    wrote, followed by end-of-track. *)
Lemma read_track_events (fuel : nat) (evs : list event) :
  forall cur body rfuel,
    Forall scheduler_event evs ->
    write_events fuel cur evs = Ok body ->
    (List.length evs < rfuel)%nat ->
    read_track rfuel cur (body ++ end_of_track) = Some (List.map msg_of_event evs).
Proof.
  induction evs as [|e evs IH]; intros cur body rfuel Hv H Hlen.
  - simpl in H. injection H as <-. destruct rfuel; [simpl in Hlen; lia|]. reflexivity.
  - destruct rfuel as [|rfuel]; [simpl in Hlen; lia|].
    inversion Hv as [|? ? He Hv']; subst.
    cbn [write_events] in H.
    destruct (_encode_varint fuel (ev_tick e - cur)) as [d| |] eqn:Ed; try discriminate.
    cbn [bind] in H.
    destruct (scheduler_event_bytes e He) as (Hmsg & Hst).
    rewrite Hmsg in H. cbn [bind] in H.
    destruct (write_events fuel (ev_tick e) evs) as [tail| |] eqn:Et; try discriminate.
    injection H as <-.
    destruct (encode_varint_spec _ _ _ Ed) as (_ & _ & _ & Hread).
    cbn [read_track]. rewrite <- !app_assoc. rewrite Hread.
    cbn [app].
    replace (cur + (ev_tick e - cur)) with (ev_tick e) by lia.
    rewrite (IH (ev_tick e) tail rfuel Hv' Et) by (simpl in Hlen; lia).
    cbn [List.map option_map].
    change (msg_of_event e)
      with (ev_tick e, low_byte (ev_status e), low_byte (ev_p1 e), low_byte (ev_p2 e)).
    destruct Hst as [-> | ->]; reflexivity.
Qed.

Lemma read_track_prelude (fuel : nat) (a b c : byte) (rest : list byte) :
  read_track (S (S fuel)) 0
             (x00 :: xff :: x51 :: x03 :: a :: b :: c :: x00 :: xc0 :: x00 :: rest) =
  read_track fuel 0 rest.
Proof. reflexivity. Qed.

Lemma bytes_eqb_refl (l : list byte) : bytes_eqb l l = true.
Proof.
  induction l as [|b l IH]; simpl; [reflexivity|].
  rewrite IH, Byte.byte_dec_lb; reflexivity.
Qed.

Lemma be_value_pack (n : Z) (bs : list byte) :
  pack_be32 n = Ok bs -> be_value bs = n /\ List.length bs = 4%nat.
Proof.
  unfold pack_be32.
  destruct (Z.leb_spec 0 n); [|discriminate].
  destruct (Z.ltb_spec n (2 ^ 32)); [|discriminate].
  cbn [andb]. intros [= <-]. split; [|reflexivity].
  unfold be_value. cbn [fold_left]. rewrite !low_byte_mod.
  change (2 ^ 32) with 4294967296 in *.
  change (2 ^ 24) with 16777216. change (2 ^ 16) with 65536. change (2 ^ 8) with 256.
  Z.div_mod_to_equations. lia.
Qed.

Lemma track_prelude_shape (fuel : nat) (bpm : Z) (prelude : list byte) :
  track_prelude fuel bpm = Ok prelude ->
  exists a b c, prelude = [x00; xff; x51; x03; a; b; c; x00; xc0; x00].
Proof.
  unfold track_prelude. intros H.
  destruct (_encode_varint fuel 0) as [d0| |] eqn:E0; try discriminate.
  assert (d0 = [x00]).
  { assert (X : _encode_varint 1 0 = Ok [x00]) by reflexivity.
    destruct fuel; [discriminate|].
    pose proof (encode_varint_mono 1 (S fuel) 0 _ X ltac:(lia)). congruence. }
  subst d0. cbn [bind] in H.
  unfold _meta_tempo in H.
  destruct (bpm =? 0); [discriminate|].
  unfold pack_be32 in H.
  destruct ((0 <=? _) && (_ <? 2 ^ 32)); [|discriminate].
  cbn [bind skipn app] in H.
  change (py_bytes [192; 0]) with (Ok (A:=list byte) [xc0; x00]) in H.
  cbn [bind app] in H. injection H as <-. eauto.
Qed.

(** Whatever [build_midi] returns reads back as the scheduler's events. *)
Lemma build_midi_read (fuel : nat) (sc : score) (file : list byte) :
  build_midi fuel sc = Ok file ->
  exists evs,
    scheduled_events sc = Ok evs /\
    read_midi file = Some (List.map msg_of_event evs).
Proof.
  unfold build_midi. intros H.
  destruct (scheduled_events sc) as [evs| |] eqn:Es; try discriminate.
  cbn [bind] in H.
  destruct (track_prelude fuel (clamped_bpm sc)) as [prelude| |] eqn:Ep; try discriminate.
  cbn [bind] in H.
  destruct (write_events fuel 0 evs) as [body| |] eqn:Eb; try discriminate.
  cbn [bind] in H.
  change pack_header_fields
    with (Ok (A:=list byte) [x00; x00; x00; x06; x00; x00; x00; x01; x01; xe0]) in H.
  cbn [bind] in H.
  destruct (pack_be32 _) as [len| |] eqn:El; try discriminate.
  cbn [bind] in H. injection H as <-.
  exists evs. split; [reflexivity|].
  destruct (be_value_pack _ _ El) as (Hval & Hlen).
  destruct len as [|l3 [|l2 [|l1 [|l0 [|]]]]]; try discriminate.
  destruct (track_prelude_shape _ _ _ Ep) as (a & b & c & ->).
  destruct (scheduled_events_sorted _ _ Es) as (_ & Hv).
  unfold read_midi.
  change (bytes_of_string "MThd") with [x4d; x54; x68; x64].
  change (bytes_of_string "MTrk") with [x4d; x54; x72; x6b].
  cbn [app skipn firstn]. rewrite !bytes_eqb_refl.
  cbn [andb].
  match goal with
  | |- context [be_value ?l =? ?n] => replace (be_value l =? n) with true
  end.
  2:{ symmetry. apply Z.eqb_eq. cbn [app] in Hval. exact Hval. }
  cbn [List.length].
  rewrite read_track_prelude.
  apply read_track_events with (fuel := fuel); [exact Hv | exact Eb|].
  pose proof (write_events_length _ _ _ _ Eb).
  rewrite length_app. simpl. lia.
Qed.

(** ** Order of the serialized events *)

Lemma StronglySorted_nth {A : Type} (R : A -> A -> Prop) (l : list A) :
  StronglySorted R l ->
  forall i j a b,
    (i < j)%nat -> nth_error l i = Some a -> nth_error l j = Some b -> R a b.
Proof.
  induction 1 as [|x l Hs IH Hx]; intros i j a b Hij Hi Hj.
  - destruct i; discriminate.
  - destruct j as [|j]; [lia|]. simpl in Hj.
    destruct i as [|i]; simpl in Hi.
    + injection Hi as <-. rewrite Forall_forall in Hx.
      apply Hx. eapply nth_error_In. exact Hj.
    + apply (IH i j); [lia | assumption | assumption].
Qed.

Lemma msg_status_on (e : event) :
  scheduler_event e -> msg_status (msg_of_event e) = x90 -> ev_prio e = 1.
Proof.
  intros (Hs & _) H. unfold msg_status, msg_of_event in H.
  destruct Hs as [(_ & Hp)|(Hst & _)]; [exact Hp|].
  rewrite Hst in H. vm_compute in H. discriminate.
Qed.

Lemma msg_status_off (e : event) :
  scheduler_event e -> msg_status (msg_of_event e) = x80 -> ev_prio e = 0.
Proof.
  intros (Hs & _) H. unfold msg_status, msg_of_event in H.
  destruct Hs as [(Hst & _)|(_ & Hp)]; [|exact Hp].
  rewrite Hst in H. vm_compute in H. discriminate.
Qed.

(** C1. In the file [build_midi] returns, the note events appear by
    ascending tick, and no note-on ([90]) precedes a note-off ([80]) of the
    same tick. *)
Theorem build_midi_event_order (fuel : nat) (sc : score) (file : list byte)
        (H : build_midi fuel sc = Ok file) :
  exists msgs,
    read_midi file = Some msgs /\
    Forall (fun m => msg_status m = x80 \/ msg_status m = x90) msgs /\
    forall i j a b,
      (i < j)%nat -> nth_error msgs i = Some a -> nth_error msgs j = Some b ->
      msg_tick a <= msg_tick b /\
      (msg_tick a = msg_tick b -> ~ (msg_status a = x90 /\ msg_status b = x80)).
Proof.
  destruct (build_midi_read _ _ _ H) as (evs & Hev & Hread).
  destruct (scheduled_events_sorted _ _ Hev) as (Hsorted & Hvalid).
  exists (List.map msg_of_event evs). split; [exact Hread|]. split.
  - apply Forall_forall. intros m Hm. apply in_map_iff in Hm.
    destruct Hm as (e & <- & He). rewrite Forall_forall in Hvalid.
    destruct (scheduler_event_bytes e (Hvalid e He)) as (_ & [Hs|Hs]);
      unfold msg_status, msg_of_event; rewrite Hs; auto.
  - intros i j a b Hij Hi Hj.
    rewrite nth_error_map in Hi, Hj.
    destruct (nth_error evs i) as [ea|] eqn:Ei; [|discriminate].
    destruct (nth_error evs j) as [eb|] eqn:Ej; [|discriminate].
    injection Hi as <-. injection Hj as <-.
    pose proof (StronglySorted_nth _ _ Hsorted i j ea eb Hij Ei Ej) as Hle.
    rewrite Forall_forall in Hvalid.
    pose proof (Hvalid ea (nth_error_In _ _ Ei)) as Hva.
    pose proof (Hvalid eb (nth_error_In _ _ Ej)) as Hvb.
    change (msg_tick (msg_of_event ea)) with (ev_tick ea).
    change (msg_tick (msg_of_event eb)) with (ev_tick eb).
    unfold event_le in Hle. split; [lia|].
    intros Heq (Ha & Hb).
    apply (msg_status_on _ Hva) in Ha. apply (msg_status_off _ Hvb) in Hb. lia.
Qed.

Lemma build_midi_event_order_witness :
  exists file,
    build_midi 3 two_notes = Ok file /\
    exists msgs,
      read_midi file = Some msgs /\
      Forall (fun m => msg_status m = x80 \/ msg_status m = x90) msgs /\
      forall i j a b,
        (i < j)%nat -> nth_error msgs i = Some a -> nth_error msgs j = Some b ->
        msg_tick a <= msg_tick b /\
        (msg_tick a = msg_tick b -> ~ (msg_status a = x90 /\ msg_status b = x80)).
Proof.
  eexists. split; [vm_compute; reflexivity|].
  apply (build_midi_event_order 3 two_notes). vm_compute. reflexivity.
Defined.

Example two_notes_messages :
  match build_midi 3 two_notes with Ok file => read_midi file | _ => None end =
  Some [(0, x90, x3c, x50); (480, x80, x3c, x00); (480, x90, x3e, x46); (960, x80, x3e, x00)].
Proof. vm_compute. reflexivity. Qed.

(** ** Floats *)

(** Rounding keeps the sign it is given. *)
Lemma binary_round_aux_sign (s : bool) (m e : Z) (l : location) :
  let r := binary_round_aux prec emax s m e l in
  r = S754_zero s \/ r = S754_infinity s \/ r = S754_nan \/
  exists m' e', r = S754_finite s m' e'.
Proof.
  unfold binary_round_aux.
  destruct (shr_fexp prec emax m e l) as [mrs' e'].
  destruct (shr_fexp prec emax _ e' loc_Exact) as [mrs'' e''].
  destruct (shr_m mrs''); [auto | | auto].
  destruct (Z.leb e'' (Z.sub emax prec)); eauto 7.
Qed.

(** Rounding a mantissa that is not negative never gives NaN. *)
Lemma iter_pos_invariant {A : Type} (P : A -> Prop) (f : A -> A) :
  (forall x, P x -> P (f x)) -> forall n x, P x -> P (iter_pos f n x).
Proof.
  intros Hf. induction n as [n IH|n IH|]; intros x Hx; cbn [iter_pos]; auto.
Qed.

Lemma shr_1_nonneg (mrs : shr_record) : 0 <= shr_m mrs -> 0 <= shr_m (shr_1 mrs).
Proof.
  destruct mrs as [m r s]. cbn [shr_m shr_1].
  destruct m as [|[p|p|]|[p|p|]]; cbn [shr_m]; lia.
Qed.

Lemma shr_fexp_nonneg (m e : Z) (l : location) :
  0 <= m -> 0 <= shr_m (fst (shr_fexp prec emax m e l)).
Proof.
  intros Hm. unfold shr_fexp, shr.
  assert (H0 : 0 <= shr_m (shr_record_of_loc m l))
    by (destruct l as [|[| |]]; exact Hm).
  destruct (Z.sub _ e) as [|p|p]; cbn [fst]; try exact H0.
  apply (iter_pos_invariant (fun r => 0 <= shr_m r)); [exact shr_1_nonneg | exact H0].
Qed.

Lemma round_nearest_even_nonneg (m : Z) (l : location) :
  0 <= m -> 0 <= round_nearest_even m l.
Proof.
  intros Hm. unfold round_nearest_even.
  destruct l as [|[| |]]; try lia. destruct (Z.even m); lia.
Qed.

Lemma binary_round_aux_cases (s : bool) (m e : Z) (l : location) :
  0 <= m ->
  let r := binary_round_aux prec emax s m e l in
  r = S754_zero s \/ r = S754_infinity s \/ exists m' e', r = S754_finite s m' e'.
Proof.
  intros Hm. unfold binary_round_aux.
  pose proof (shr_fexp_nonneg m e l Hm) as H1.
  destruct (shr_fexp prec emax m e l) as [mrs' e']. cbn [fst] in H1.
  pose proof (shr_fexp_nonneg _ e' loc_Exact
                (round_nearest_even_nonneg _ (loc_of_shr_record mrs') H1)) as H2.
  destruct (shr_fexp prec emax _ e' loc_Exact) as [mrs'' e'']. cbn [fst] in H2.
  destruct (shr_m mrs''); [auto | | lia].
  destruct (Z.leb e'' (Z.sub emax prec)); eauto.
Qed.

(** The quotient of two positive integers is a zero, a positive double or
    plus infinity. *)
Lemma float_of_ratio_cases (a b : positive) :
  let r := float_of_ratio (Zpos a) b in
  r = S754_zero false \/ r = S754_infinity false \/ exists m e, r = S754_finite false m e.
Proof.
  cbn [float_of_ratio]. unfold SFdiv, SFdiv_core_binary.
  set (m' := match Z.sub (Z.sub 0 0) _ with
             | Zpos _ => _ | Z0 => _ | Zneg _ => _ end).
  assert (Hm' : 0 <= m').
  { unfold m'. destruct (Z.sub (Z.sub 0 0) _) as [|p|p]; try lia.
    apply Z.shiftl_nonneg. lia. }
  pose proof (Z.div_pos m' (Zpos b) Hm' ltac:(lia)) as Hd.
  unfold Z.div in Hd.
  destruct (Z.div_eucl m' (Zpos b)) as [q r]. cbn [fst] in Hd.
  apply (binary_round_aux_cases (xorb false false) q _ _ Hd).
Qed.

Lemma binary_round_aux_not_negative (m e : Z) (l : location) :
  not_negative (binary_round_aux prec emax false m e l) = true.
Proof.
  destruct (binary_round_aux_sign false m e l) as [-> |[-> |[-> |(m' & e' & ->)]]];
    reflexivity.
Qed.

Lemma binary_round_not_negative (m : positive) (e : Z) :
  not_negative (binary_round prec emax false m e) = true.
Proof.
  unfold binary_round. destruct (shl_align _ _ _) as [mz ez].
  apply binary_round_aux_not_negative.
Qed.

Lemma float_of_Z_not_negative (z : Z) : 0 <= z -> not_negative (float_of_Z z) = true.
Proof.
  intros Hz. unfold float_of_Z, binary_normalize.
  destruct z as [|p|p]; [reflexivity | apply binary_round_not_negative | lia].
Qed.

Lemma fmul_not_negative (x y : float) :
  not_negative x = true -> not_negative y = true -> not_negative (fmul x y) = true.
Proof.
  unfold fmul, SFmul.
  destruct x as [sx|[|]| |[|] mx ex], y as [sy|[|]| |[|] my ey];
    intros Hx Hy; try discriminate Hx; try discriminate Hy; try reflexivity.
  apply binary_round_aux_not_negative.
Qed.

Lemma fadd_not_negative (x y : float) :
  not_negative x = true -> not_negative y = true -> not_negative (fadd x y) = true.
Proof.
  unfold fadd, SFadd.
  destruct x as [[|]|[|]| |[|] mx ex], y as [[|]|[|]| |[|] my ey];
    intros Hx Hy; try discriminate Hx; try discriminate Hy; try reflexivity.
  cbn [cond_Zopp]. unfold binary_normalize. cbn [Z.add].
  apply binary_round_not_negative.
Qed.

Lemma fdiv_not_negative (x : float) (my : positive) (ey : Z) :
  not_negative x = true -> not_negative (fdiv x (S754_finite false my ey)) = true.
Proof.
  unfold fdiv, SFdiv.
  destruct x as [[|]|[|]| |[|] mx ex]; intros Hx; try discriminate Hx; try reflexivity.
  destruct (SFdiv_core_binary prec emax (Zpos mx) ex (Zpos my) ey) as [[mz ez] lz].
  apply binary_round_aux_not_negative.
Qed.

Lemma float_of_ratio_not_negative (a : Z) (b : positive) :
  0 <= a -> not_negative (float_of_ratio a b) = true.
Proof.
  intros Ha. destruct a as [|p|p]; [reflexivity | | lia].
  apply (fdiv_not_negative (S754_finite false p 0) b 0). reflexivity.
Qed.

(** A double that is not below zero in the sense of [<]. *)
Lemma flt_zero_not_negative (x : float) : flt x fzero = false -> not_negative x = true.
Proof. destruct x as [s|[|]| |[|] m e]; intros H; try reflexivity; discriminate H. Qed.

Lemma exact_nonneg (x : float) : not_negative x = true -> (0 <= exact x)%Q.
Proof.
  destruct x as [s|s| |[|] m e]; intros H; try discriminate H; try apply Qle_refl.
  unfold exact. destruct e as [|p|p].
  - unfold Qle. cbn [Qnum Qden inject_Z]. lia.
  - unfold Qle. cbn [Qnum Qden inject_Z].
    pose proof (Z.pow_pos_nonneg 2 (Zpos p) ltac:(lia) ltac:(lia)). nia.
  - unfold Qle. cbn [Qnum Qden]. lia.
Qed.

Lemma checked_ok (x y : float) : checked x = Ok y -> y = x /\ forall s, x <> S754_infinity s.
Proof.
  destruct x; intros H; try discriminate H; injection H as <-; split;
    try reflexivity; intros s'; discriminate.
Qed.

Lemma py_float_not_negative (z : Z) (x : float) :
  0 <= z -> py_float (Int z) = Ok x -> not_negative x = true.
Proof.
  intros Hz H. cbn [py_float] in H. unfold float_of_int in H.
  apply checked_ok in H. destruct H as (-> & _).
  apply float_of_Z_not_negative. exact Hz.
Qed.

(** The order [<] of the doubles: it is transitive, and a double that is
    not NaN lies above the smaller or below the larger of two doubles in
    that order. *)
Ltac compare_cases :=
  repeat match goal with
         | H : context [Z.compare ?x ?y] |- _ => destruct (Z.compare_spec x y)
         | |- context [Z.compare ?x ?y] => destruct (Z.compare_spec x y)
         | H : context [Pos.compare_cont Eq ?x ?y] |- _ =>
             change (Pos.compare_cont Eq x y) with (Pos.compare x y) in *;
             destruct (Pos.compare_spec x y)
         | |- context [Pos.compare_cont Eq ?x ?y] =>
             change (Pos.compare_cont Eq x y) with (Pos.compare x y) in *;
             destruct (Pos.compare_spec x y)
         end.

Lemma flt_trans (a b c : float) : flt a b = true -> flt b c = true -> flt a c = true.
Proof.
  unfold flt, SFltb, SFcompare.
  destruct a as [sa|sa| |sa ma ea], b as [sb|sb| |sb mb eb], c as [sc|sc| |sc mc ec];
    try discriminate;
    try (destruct sa; try discriminate; destruct sb; try discriminate;
         destruct sc; try discriminate; reflexivity);
    try (destruct sa; destruct sb; try discriminate; reflexivity);
    try (destruct sb; destruct sc; try discriminate; reflexivity);
    try (destruct sa; destruct sc; try discriminate; reflexivity).
  all: destruct sa, sb, sc; try discriminate; try reflexivity.
  all: intros H1 H2; compare_cases; subst; try discriminate; try reflexivity; try lia.
Qed.

Lemma flt_neg_trans (a b c : float) :
  flt a c = true -> b <> S754_nan -> flt a b = true \/ flt b c = true.
Proof.
  unfold flt, SFltb, SFcompare.
  destruct a as [sa|sa| |sa ma ea], b as [sb|sb| |sb mb eb], c as [sc|sc| |sc mc ec];
    try discriminate; try congruence;
    try (destruct sa; try discriminate; destruct sb; destruct sc;
         try discriminate; auto; fail);
    try (destruct sa; destruct sb; try discriminate; auto; fail);
    try (destruct sb; destruct sc; try discriminate; auto; fail);
    try (destruct sa; destruct sc; try discriminate; auto; fail);
    try (destruct sb; auto; fail).
  all: destruct sa, sb, sc; try discriminate; auto.
  all: intros H1 _; compare_cases; subst; try discriminate; auto; try lia.
Qed.

Lemma flt_irrefl (a : float) : flt a a = false.
Proof.
  unfold flt, SFltb, SFcompare.
  destruct a as [sa|sa| |sa ma ea]; try reflexivity; try (destruct sa; reflexivity).
  destruct sa; compare_cases; subst; try reflexivity; try lia.
Qed.

Lemma flt_not_nan (a b : float) : flt a b = true -> b <> S754_nan.
Proof. intros H ->. destruct a; discriminate H. Qed.

(** ** Event times *)

Lemma Qle_bool_0 (x : Q) : Qle_bool 0 x = (0 <=? Qnum x).
Proof. unfold Qle_bool. cbn [Qnum Qden]. rewrite Z.mul_1_r. reflexivity. Qed.

(** [py_int] is truncation toward zero. *)
Lemma py_int_trunc (x : Q) : py_int x = Qtrunc x.
Proof.
  unfold py_int, Qtrunc. rewrite Qle_bool_0.
  destruct x as [n d]. cbn [Qnum Qden].
  destruct (Z.leb_spec 0 n) as [Hn|Hn].
  - unfold Qfloor. apply Z.quot_div_nonneg; lia.
  - unfold Qceiling, Qfloor, Qopp. cbn [Qnum Qden].
    rewrite <- (Z.opp_involutive n) at 1.
    rewrite Z.quot_opp_l by lia. f_equal.
    apply Z.quot_div_nonneg; lia.
Qed.

Lemma py_int_nonneg (x : Q) : (0 <= x)%Q -> 0 <= py_int x.
Proof.
  intros H. unfold py_int. apply Z.quot_pos; [|lia].
  unfold Qle in H. cbn [Qnum Qden] in H. lia.
Qed.

(** [int()] returns on the finite doubles, with the truncation of their
    exact value. *)
Lemma int_of_float_ok (x : float) (z : Z) :
  int_of_float x = Ok z -> is_finite x = true /\ z = Qtrunc (exact x).
Proof.
  destruct x; intros H; try discriminate H; injection H as <-;
    (split; [reflexivity | apply py_int_trunc]).
Qed.

Lemma int_of_float_finite (x : float) :
  is_finite x = true -> int_of_float x = Ok (Qtrunc (exact x)).
Proof.
  destruct x; intros H; try discriminate H; cbn [int_of_float];
    rewrite py_int_trunc; reflexivity.
Qed.

Lemma int_of_float_nonneg (x : float) (z : Z) :
  not_negative x = true -> int_of_float x = Ok z -> 0 <= z.
Proof.
  intros Hx H. pose proof (exact_nonneg x Hx) as He.
  destruct x; try discriminate H; injection H as <-; apply py_int_nonneg, He.
Qed.

Lemma tpb_not_negative : not_negative (float_of_Z tpb) = true.
Proof. reflexivity. Qed.

(** A note that does not start below zero is scheduled at tick 0 or
    later. *)
Lemma start_tick_nonneg (n : note) (s : Z) :
  starts_before_zero n = false -> start_tick n = Ok s -> 0 <= s.
Proof.
  unfold starts_before_zero, start_tick, ticks_of_beats.
  destruct (py_float (start_beat n)) as [x| |]; try discriminate.
  cbn [bind]. intros Hx Hs.
  apply (int_of_float_nonneg _ _ (fmul_not_negative _ _ (flt_zero_not_negative _ Hx)
                                                    tpb_not_negative) Hs).
Qed.

(** C5, as stated, fails: a note that starts at 1.875 ticks is scheduled
    at tick 1, not at the rounded tick 2, and its length of 1.875 ticks
    becomes 1 tick, not 2. *)
Lemma scheduler_does_not_round :
  ~ (forall (sc : score) (n : note) (m : Z) (evs : list event) (p q : float),
        In n (melody sc) -> pitch_to_midi (pitch n) = Ok m ->
        scheduled_events sc = Ok evs ->
        ticks_of_beats (start_beat n) = Ok p ->
        ticks_of_beats (duration_beats n) = Ok q ->
        let start := py_round (exact p) in
        let dur := Z.max 1 (py_round (exact q)) in
        In (Event start 1 144 m (clamped_velocity n)) evs /\
        In (Event (start + dur) 0 128 m 0) evs).
Proof.
  intros H.
  destruct (H (Score None [short_note]) short_note 60 _ _ _
              (or_introl eq_refl) eq_refl eq_refl eq_refl eq_refl) as (Hon & _).
  vm_compute in Hon. destruct Hon as [Hon|[Hon|[]]]; discriminate Hon.
Qed.

Example short_note_ticks :
  start_tick short_note = Ok 1 /\ duration_ticks short_note = Ok 1 /\
  (exists p, ticks_of_beats (start_beat short_note) = Ok p /\
             (exact p == 15 # 8)%Q /\ py_round (exact p) = 2).
Proof.
  split; [reflexivity|]. split; [reflexivity|].
  eexists. split; [reflexivity|]. split; reflexivity.
Qed.

(** The product is rounded before it is truncated: the double nearest to
    0.3 is below 3/10, its product with 480 is below 144, and the nearest
    double is 144.0. *)
Example rounded_note_tick :
  start_tick rounded_note = Ok 144 /\
  exists x, py_float (start_beat rounded_note) = Ok x /\
            Qfloor (exact x * 480) = 143.
Proof. split; [reflexivity|]. eexists. split; reflexivity. Qed.

(** A length of [10^308] beats has no ticks: the product is an infinity
    and [int()] raises. *)
Example endless_note_raises :
  duration_ticks endless_note = Raise OverflowError /\
  forall fuel, build_midi fuel (Score None [endless_note]) = Raise OverflowError.
Proof. split; [reflexivity|]. intros fuel. reflexivity. Qed.

(** C5, amended. When the scheduler returns, a note whose pitch resolves
    is scheduled with its times truncated toward zero: the products
    [float(start_beat) * 480] and [float(duration_beats) * 480] are finite
    doubles, the note-on is at the truncation of the first, and the
    note-off [max(1, truncation of the second)] ticks later, so at least
    one tick later. *)
Theorem scheduler_event_times (sc : score) (n : note) (m : Z) (evs : list event)
        (Hn : In n (melody sc)) (Hm : pitch_to_midi (pitch n) = Ok m)
        (Hev : scheduled_events sc = Ok evs) :
  exists p q,
    ticks_of_beats (start_beat n) = Ok p /\ is_finite p = true /\
    ticks_of_beats (duration_beats n) = Ok q /\ is_finite q = true /\
    let start := Qtrunc (exact p) in
    let dur := Z.max 1 (Qtrunc (exact q)) in
    start_tick n = Ok start /\ duration_ticks n = Ok dur /\ 1 <= dur /\
    In (Event start 1 144 m (clamped_velocity n)) evs /\
    In (Event (start + dur) 0 128 m 0) evs.
Proof.
  destruct (scheduled_events_In sc evs n m Hev Hn Hm)
    as (s & d & Hs & Hd & H1 & Hon & Hoff).
  pose proof Hs as Hs'. pose proof Hd as Hd'.
  unfold start_tick in Hs'. unfold duration_ticks in Hd'.
  destruct (ticks_of_beats (start_beat n)) as [p| |]; try discriminate Hs'.
  destruct (ticks_of_beats (duration_beats n)) as [q| |]; try discriminate Hd'.
  cbn [bind] in Hs', Hd'.
  destruct (int_of_float q) as [t| |] eqn:Et; try discriminate Hd'.
  cbn [bind] in Hd'. injection Hd' as <-.
  destruct (int_of_float_ok _ _ Hs') as (Hfp & ->).
  destruct (int_of_float_ok _ _ Et) as (Hfq & ->).
  exists p, q. cbn zeta. repeat split; assumption.
Qed.

Lemma scheduler_event_times_witness :
  exists evs,
    scheduled_events (Score None [short_note]) = Ok evs /\
    In (Event 1 1 144 60 80) evs /\ In (Event 2 0 128 60 0) evs.
Proof.
  exists [Event 1 1 144 60 80; Event 2 0 128 60 0]. split; [reflexivity|].
  destruct (scheduler_event_times (Score None [short_note]) short_note 60
              [Event 1 1 144 60 80; Event 2 0 128 60 0]
              (or_introl eq_refl) eq_refl eq_refl)
    as (p & q & Hp & _ & Hq & _ & _ & _ & _ & Hon & Hoff).
  vm_compute in Hp. injection Hp as <-.
  vm_compute in Hq. injection Hq as <-.
  split; [exact Hon | exact Hoff].
Defined.

(** ** Delta times *)

Lemma varint_loop_no_raise (fuel : nat) :
  forall v buf e, varint_loop fuel v buf <> Raise e.
Proof.
  induction fuel as [|fuel IH]; intros v buf e; simpl; [discriminate|].
  destruct (v =? 0); [discriminate | apply IH].
Qed.

(** A call returns bytes or is still in its loop; it never raises. *)
Lemma encode_varint_cases (fuel : nat) (n : Z) :
  (exists bs, _encode_varint fuel n = Ok bs) \/ _encode_varint fuel n = OutOfFuel.
Proof.
  destruct (Z.lt_ge_cases n 0) as [Hn|Hn].
  - right. apply encode_varint_negative. exact Hn.
  - unfold _encode_varint. rewrite varint_loop_prefix.
    assert (Hs : 0 <= Z.shiftr n 7) by (apply Z.shiftr_nonneg; lia).
    destruct (varint_loop fuel (Z.shiftr n 7) []) as [gs|e|] eqn:E.
    + left. cbn [bind]. destruct (varint_loop_read _ _ _ Hs E) as (Hr & _).
      eexists. apply py_bytes_ok.
      rewrite rev_app_distr. apply Forall_app. split.
      * apply Forall_rev. eapply Forall_impl; [|exact Hr]. simpl. lia.
      * constructor; [|constructor].
        rewrite land_127. pose proof (Z.mod_pos_bound n 128 ltac:(lia)). lia.
    + exfalso. exact (varint_loop_no_raise _ _ _ _ E).
    + right. reflexivity.
Qed.

(** Between sorted events no delta is negative, and the first one is not
    either when no event lies before [cur]. *)
Lemma deltas_nonneg (evs : list event) :
  forall cur,
    StronglySorted event_le evs ->
    (forall e, In e evs -> cur <= ev_tick e) ->
    Forall (fun d => 0 <= d) (deltas cur evs).
Proof.
  induction evs as [|e evs IH]; intros cur Hs Hc; simpl; constructor.
  - specialize (Hc e (or_introl eq_refl)). lia.
  - apply StronglySorted_inv in Hs. destruct Hs as (Hs & He).
    apply IH; [exact Hs|]. intros e' He'.
    rewrite Forall_forall in He. specialize (He e' He'). unfold event_le in He. lia.
Qed.

Lemma deltas_tail_nonneg (evs : list event) (cur : Z) :
  StronglySorted event_le evs -> Forall (fun d => 0 <= d) (tl (deltas cur evs)).
Proof.
  intros Hs. destruct evs as [|e evs]; simpl; [constructor|].
  apply StronglySorted_inv in Hs. destruct Hs as (Hs & He).
  apply deltas_nonneg; [exact Hs|]. intros e' He'.
  rewrite Forall_forall in He. specialize (He e' He'). unfold event_le in He. lia.
Qed.

(** The loop returns exactly when every delta can be encoded. *)
Lemma write_events_returns (fuel : nat) (evs : list event) :
  forall cur,
    Forall scheduler_event evs ->
    Forall (fun d => exists bs, _encode_varint fuel d = Ok bs) (deltas cur evs) ->
    exists body, write_events fuel cur evs = Ok body.
Proof.
  induction evs as [|e evs IH]; intros cur Hv Hd; cbn [write_events]; [eauto|].
  inversion Hv as [|? ? He Hv']; subst.
  cbn [deltas] in Hd. inversion Hd as [|? ? (bs & Hbs) Hd']; subst.
  rewrite Hbs. cbn [bind].
  destruct (scheduler_event_bytes e He) as (Hmsg & _).
  rewrite Hmsg. cbn [bind].
  destruct (IH (ev_tick e) Hv' Hd') as (tail & ->). cbn [bind]. eauto.
Qed.

(** A negative delta keeps the loop from ever returning. *)
Lemma write_events_stuck (fuel : nat) (evs : list event) :
  forall cur,
    Forall scheduler_event evs ->
    Exists (fun d => d < 0) (deltas cur evs) ->
    write_events fuel cur evs = OutOfFuel.
Proof.
  induction evs as [|e evs IH]; intros cur Hv Hd; simpl in Hd; [inversion Hd|].
  inversion Hv as [|? ? He Hv']; subst.
  cbn [write_events].
  inversion Hd as [? ? Hneg|? ? Hrest]; subst.
  - rewrite encode_varint_negative by exact Hneg. reflexivity.
  - destruct (encode_varint_cases fuel (ev_tick e - cur)) as [(bs & ->)| ->];
      [|reflexivity].
    cbn [bind]. destruct (scheduler_event_bytes e He) as (Hmsg & _).
    rewrite Hmsg. cbn [bind]. rewrite (IH _ Hv' Hrest). reflexivity.
Qed.

Lemma fuel_for_all (ds : list Z) :
  Forall (fun d => 0 <= d) ds ->
  exists fuel, Forall (fun d => exists bs, _encode_varint fuel d = Ok bs) ds.
Proof.
  induction 1 as [|d ds Hd _ (fuel & IH)].
  - exists O. constructor.
  - destruct (encode_varint_terminates d Hd) as (bs & Hbs).
    exists (Nat.max fuel (S (Z.to_nat d))). constructor.
    + exists bs. eapply encode_varint_mono; [exact Hbs | lia].
    + eapply Forall_impl; [|exact IH]. intros d' (bs' & Hbs').
      exists bs'. eapply encode_varint_mono; [exact Hbs' | lia].
Qed.

Lemma start_keys_returns (notes : list note) :
  (forall n, In n notes -> exists x, py_float (start_beat n) = Ok x) ->
  exists ks, start_keys notes = Ok ks.
Proof.
  induction notes as [|n notes IH]; intros H; cbn [start_keys]; [eauto|].
  destruct (H n (or_introl eq_refl)) as (x & ->). cbn [bind].
  destruct IH as (ks & ->); [intros n' Hn'; apply H; right; exact Hn'|].
  cbn [bind]. eauto.
Qed.

Lemma start_keys_computed (notes : list note) (ks : list (float * note)) :
  start_keys notes = Ok ks ->
  forall n, In n notes -> exists x, py_float (start_beat n) = Ok x.
Proof.
  revert ks. induction notes as [|n notes IH]; intros ks H n' Hn'; [contradiction|].
  cbn [start_keys] in H.
  destruct (py_float (start_beat n)) as [k| |] eqn:Ek; try discriminate H.
  cbn [bind] in H.
  destruct (start_keys notes) as [ks'| |]; try discriminate H.
  destruct Hn' as [<-|Hn']; [eauto | eapply IH; [reflexivity | exact Hn']].
Qed.

(** The scheduler returns exactly when [float()] converts the start of
    every note and the ticks of every note whose pitch resolves are
    computed. *)
Lemma scheduled_events_returns (sc : score) :
  (exists evs, scheduled_events sc = Ok evs) <->
  (forall n, In n (melody sc) -> exists x, py_float (start_beat n) = Ok x) /\
  (forall n m, In n (melody sc) -> pitch_to_midi (pitch n) = Ok m ->
               exists two, note_pair n m = Ok two).
Proof.
  split.
  - intros (evs & H). split.
    + unfold scheduled_events, sorted_by_start in H.
      destruct (start_keys (melody sc)) as [ks| |] eqn:Ek; try discriminate H.
      apply (start_keys_computed _ _ Ek).
    + destruct (scheduled_events_eq _ _ H) as (_ & _ & _ & Hall). exact Hall.
  - intros (Hkeys & Hall). unfold scheduled_events, sorted_by_start.
    destruct (start_keys_returns _ Hkeys) as (ks & Ek). rewrite Ek. cbn [bind].
    rewrite collect_events_returns; [cbn [bind]; eauto|].
    intros n m Hn. apply Hall.
    eapply Permutation_in; [|exact Hn].
    rewrite <- (start_keys_notes _ _ Ek).
    apply Permutation_map, stable_sort_perm.
Qed.

Lemma scheduled_ticks_nonneg (sc : score) (evs : list event) :
  (forall n s, In n (melody sc) -> resolves n = true -> start_tick n = Ok s -> 0 <= s) ->
  scheduled_events sc = Ok evs ->
  forall e, In e evs -> 0 <= ev_tick e.
Proof.
  intros Hstart Hev e He.
  apply (scheduled_events_In_iff sc evs e Hev) in He. destruct He as (n & Hn & He).
  destruct (note_events_cases n) as [E|(m & s & d & Hm & _ & Hs & Hd & H1 & E)];
    rewrite E in He; [contradiction|].
  assert (Hr : resolves n = true) by (apply resolves_true; eauto).
  specialize (Hstart n s Hn Hr Hs).
  destruct He as [<-|[<-|[]]]; simpl; lia.
Qed.

(** C10, as stated, fails: sorting does not make the first delta
    non-negative.  A note that starts at beat -1 gives the deltas -480
    and 480. *)
Lemma first_delta_can_be_negative :
  ~ (forall (sc : score) (evs : list event),
        scheduled_events sc = Ok evs -> Forall (fun d => 0 <= d) (deltas 0 evs)).
Proof.
  intros H.
  specialize (H (Score None [early_note])
                [Event (-480) 1 144 60 80; Event 0 0 128 60 0] eq_refl).
  vm_compute in H. inversion H as [|? ? Hd _]. apply Hd. reflexivity.
Qed.

Example early_note_deltas :
  scheduled_events (Score None [early_note]) =
    Ok [Event (-480) 1 144 60 80; Event 0 0 128 60 0] /\
  deltas 0 [Event (-480) 1 144 60 80; Event 0 0 128 60 0] = [-480; 480].
Proof. split; reflexivity. Qed.

(** On that score [build_midi] never returns. *)
Lemma early_note_never_returns (fuel : nat) :
  build_midi fuel (Score None [early_note]) = OutOfFuel.
Proof.
  unfold build_midi.
  change (scheduled_events (Score None [early_note]))
    with (Ok [Event (-480) 1 144 60 80; Event 0 0 128 60 0]).
  cbn [bind].
  destruct fuel as [|fuel]; [reflexivity|].
  destruct (track_prelude (S fuel) _) as [p|e|] eqn:Ep; cbn [bind].
  - cbn [write_events]. rewrite encode_varint_negative by reflexivity. reflexivity.
  - exfalso. revert Ep. unfold track_prelude.
    assert (X : _encode_varint (S fuel) 0 = Ok [x00]).
    { apply (encode_varint_mono 1); [reflexivity | lia]. }
    rewrite X. cbn [bind]. vm_compute. discriminate.
  - reflexivity.
Qed.

(** With no resolving note before tick 0, enough fuel lets the
    serialization loop return, and [build_midi] with it unless the track
    outgrows the 32-bit length field. *)
Lemma build_midi_returns (sc : score) (evs : list event) :
  scheduled_events sc = Ok evs ->
  (forall n s, In n (melody sc) -> resolves n = true -> start_tick n = Ok s -> 0 <= s) ->
  Forall (fun d => 0 <= d) (deltas 0 evs) /\
  exists fuel body,
    write_events fuel 0 evs = Ok body /\
    (Z.of_nat (List.length body) + 14 < 2 ^ 32 ->
     exists file, build_midi fuel sc = Ok file).
Proof.
  intros Hev Hstart.
  destruct (scheduled_events_sorted _ _ Hev) as (Hsorted & Hvalid).
  assert (Hd : Forall (fun d => 0 <= d) (deltas 0 evs)).
  { apply deltas_nonneg; [exact Hsorted|].
    apply (scheduled_ticks_nonneg sc evs Hstart Hev). }
  split; [exact Hd|].
  destruct (fuel_for_all _ Hd) as (fuel & Hfuel).
  assert (Hfuel' : Forall (fun d => exists bs, _encode_varint (S fuel) d = Ok bs)
                          (deltas 0 evs)).
  { eapply Forall_impl; [|exact Hfuel]. intros d (bs & Hbs).
    exists bs. eapply encode_varint_mono; [exact Hbs | lia]. }
  destruct (write_events_returns _ _ 0 Hvalid Hfuel') as (body & Hbody).
  exists (S fuel), body. split; [exact Hbody|].
  intros Hlen. unfold build_midi. rewrite Hev. cbn [bind].
  rewrite (track_prelude_bytes fuel _ (clamped_bpm_range sc)). cbn [bind].
  rewrite Hbody. cbn [bind].
  change pack_header_fields
    with (Ok (A:=list byte) [x00; x00; x00; x06; x00; x00; x00; x01; x01; xe0]).
  cbn [bind].
  unfold pack_be32.
  match goal with
  | |- context [(0 <=? ?n) && (?n <? 2 ^ 32)] =>
      replace ((0 <=? n) && (n <? 2 ^ 32)) with true
  end.
  - cbn [bind]. eauto.
  - symmetry. apply andb_true_iff. rewrite Z.leb_le, Z.ltb_lt.
    rewrite !length_app. cbn [List.length end_of_track]. lia.
Qed.

(** C10, amended. [_encode_varint] returns on every non-negative value
    and never leaves its loop on a negative one.  In [build_midi] every
    delta after the first is non-negative, because the events are sorted by
    tick; the first delta is measured from tick 0, and is non-negative as
    well when no note whose pitch resolves starts before beat 0, in which
    case the serialization loop returns.  The scheduler returns its events
    when [float()] converts every start and the ticks of every note whose
    pitch resolves are computed; where they are not, it raises and no delta
    is encoded. *)
Theorem varint_terminates_on_deltas :
  (forall n, 0 <= n -> exists bs, _encode_varint (S (Z.to_nat n)) n = Ok bs) /\
  (forall n fuel, n < 0 -> _encode_varint fuel n = OutOfFuel) /\
  (forall sc evs,
      scheduled_events sc = Ok evs -> Forall (fun d => 0 <= d) (tl (deltas 0 evs))) /\
  (forall sc,
      (forall n, In n (melody sc) -> exists x, py_float (start_beat n) = Ok x) ->
      (forall n m, In n (melody sc) -> pitch_to_midi (pitch n) = Ok m ->
                   exists two, note_pair n m = Ok two) ->
      (forall n, In n (melody sc) -> resolves n = true -> starts_before_zero n = false) ->
      exists evs,
        scheduled_events sc = Ok evs /\
        Forall (fun d => 0 <= d) (deltas 0 evs) /\
        exists fuel body,
          write_events fuel 0 evs = Ok body /\
          (Z.of_nat (List.length body) + 14 < 2 ^ 32 ->
           exists file, build_midi fuel sc = Ok file)).
Proof.
  split; [exact encode_varint_terminates|].
  split; [intros n fuel Hn; apply encode_varint_negative; exact Hn|].
  split.
  - intros sc evs Hev. apply deltas_tail_nonneg.
    apply (scheduled_events_sorted _ _ Hev).
  - intros sc Hkeys Hticks Hstart.
    destruct (proj2 (scheduled_events_returns sc) (conj Hkeys Hticks)) as (evs & Hev).
    exists evs. split; [exact Hev|].
    apply (build_midi_returns sc evs Hev).
    intros n s Hn Hr Hs. apply (start_tick_nonneg n s); [|exact Hs].
    apply Hstart; assumption.
Qed.

Lemma varint_terminates_on_deltas_witness :
  exists evs,
    scheduled_events two_notes = Ok evs /\ Forall (fun d => 0 <= d) (deltas 0 evs).
Proof.
  destruct (proj2 (proj2 (proj2 varint_terminates_on_deltas)) two_notes)
    as (evs & Hev & Hd & _).
  - intros n [<-|[<-|[]]]; eexists; reflexivity.
  - intros n m [<-|[<-|[]]] Hm; vm_compute in Hm; injection Hm as <-;
      eexists; reflexivity.
  - intros n [<-|[<-|[]]] _; reflexivity.
  - exists evs. split; [exact Hev | exact Hd].
Defined.

(** ** The sample buffer *)

(** The first loop leaves in [max_end] a value that no end time exceeds:
    the start value or the end time of a note. *)
Lemma max_end_loop_spec (spb : float) (notes : list note) :
  forall m0 M,
    m0 <> S754_nan ->
    max_end_loop spb notes m0 = Ok M ->
    M <> S754_nan /\
    flt M m0 = false /\
    (forall n e, In n notes -> note_end spb n = Ok e -> flt M e = false) /\
    (M = m0 \/ exists n, In n notes /\ note_end spb n = Ok M).
Proof.
  induction notes as [|n notes IH]; intros m0 M Hm0 H.
  - injection H as <-. split; [exact Hm0|]. split; [apply flt_irrefl|].
    split; [intros ? ? []|]. left. reflexivity.
  - cbn [max_end_loop] in H.
    destruct (note_end spb n) as [e| |] eqn:Ee; try discriminate H. cbn [bind] in H.
    set (m1 := if flt m0 e then e else m0) in H.
    assert (Hm1 : m1 <> S754_nan).
    { unfold m1. destruct (flt m0 e) eqn:E; [exact (flt_not_nan _ _ E) | exact Hm0]. }
    destruct (IH m1 M Hm1 H) as (HM & H1 & H2 & H3).
    split; [exact HM|].
    assert (Hcur : flt M m0 = false /\ flt M e = false).
    { unfold m1 in H1. destruct (flt m0 e) eqn:E.
      - split; [|exact H1].
        destruct (flt M m0) eqn:E'; [|reflexivity].
        rewrite (flt_trans _ _ _ E' E) in H1. discriminate H1.
      - split; [exact H1|].
        destruct (flt M e) eqn:E'; [|reflexivity].
        destruct (flt_neg_trans _ m0 _ E' Hm0) as [X|X]; congruence. }
    destruct Hcur as (Hc0 & Hce).
    split; [exact Hc0|]. split.
    + intros n' e' [<-|Hn'] He'.
      * rewrite Ee in He'. injection He' as <-. exact Hce.
      * apply (H2 n' e' Hn' He').
    + destruct H3 as [H3|(n' & Hn' & H3)].
      * unfold m1 in H3. destruct (flt m0 e) eqn:E.
        -- right. exists n. split; [left; reflexivity|]. rewrite H3. exact Ee.
        -- left. exact H3.
      * right. exists n'. split; [right; exact Hn' | exact H3].
Qed.

Lemma three_tenths_not_negative : not_negative three_tenths = true.
Proof. reflexivity. Qed.

Lemma float_of_int_not_negative (z : Z) (x : float) :
  0 <= z -> float_of_int z = Ok x -> not_negative x = true.
Proof. intros Hz H. apply (py_float_not_negative z x Hz H). Qed.

Lemma Qtrunc_nonneg (x : Q) : (0 <= x)%Q -> Qtrunc x = Qfloor x /\ 0 <= Qfloor x.
Proof.
  intros H. split.
  - unfold Qtrunc. apply Qle_bool_iff in H. rewrite H. reflexivity.
  - rewrite <- (Qfloor_Z 0). apply Qfloor_resp_le. exact H.
Qed.

(** What [total_samples] is when it is computed. *)
Lemma total_samples_ok (sample_rate : Z) (sc : score) (total : Z) :
  total_samples sample_rate sc = Ok total ->
  exists max_end rate,
    max_end_loop (spb_of (clamped_bpm sc)) (melody sc) fzero = Ok max_end /\
    float_of_int sample_rate = Ok rate /\
    is_finite (fmul (fadd max_end three_tenths) rate) = true /\
    total = Qtrunc (exact (fmul (fadd max_end three_tenths) rate)).
Proof.
  unfold total_samples. intros H.
  destruct (max_end_loop _ _ _) as [max_end| |]; try discriminate H. cbn [bind] in H.
  destruct (float_of_int sample_rate) as [rate| |]; try discriminate H. cbn [bind] in H.
  destruct (int_of_float_ok _ _ H) as (Hf & ->).
  exists max_end, rate. auto.
Qed.

Section SynthFacts.
Variable sample : Type.
Variable silence : sample.
Variable mix : sample -> sample -> sample.
Variable voice : Z -> Z -> Z -> Z -> Z -> sample.
Variable scaled : list sample -> sample -> Z.

Lemma add_at_length (buf : list sample) :
  forall idx v, List.length (add_at sample mix buf idx v) = List.length buf.
Proof.
  induction buf as [|s buf IH]; intros idx v; simpl; [reflexivity|].
  destruct idx; simpl; [reflexivity|]. rewrite IH. reflexivity.
Qed.

Lemma mix_sample_length (sr total midi vel s0 ns : Z) (buf : list sample) (i : Z) :
  List.length (mix_sample sample mix voice sr total midi vel s0 ns buf i)
  = List.length buf.
Proof.
  unfold mix_sample. destruct (_ && _); [apply add_at_length | reflexivity].
Qed.

Lemma fold_mix_length (sr total midi vel s0 ns : Z) (l : list Z) :
  forall buf,
    List.length (fold_left (mix_sample sample mix voice sr total midi vel s0 ns) l buf)
    = List.length buf.
Proof.
  induction l as [|i l IH]; intros buf; simpl; [reflexivity|].
  rewrite IH. apply mix_sample_length.
Qed.

(** One note returns when its window is computed, and raises what the
    window raises. *)
Lemma render_note_cases (sr total : Z) (spb : float) (n : note) (buf : list sample) :
  (resolves n = false /\ render_note sample mix voice sr total spb n buf = Ok buf) \/
  (exists m, pitch_to_midi (pitch n) = Ok m /\
             render_note sample mix voice sr total spb n buf =
             (w <- note_window sr total spb n ;;
              Ok (fold_left (mix_sample sample mix voice sr total m (clamped_velocity n)
                                        (fst w) (snd w))
                            (py_range (snd w)) buf))).
Proof.
  unfold render_note.
  destruct (pitch_to_midi_cases (pitch n)) as [(m & Hm & _)|Hm].
  - right. exists m. split; [exact Hm|]. rewrite Hm.
    destruct (note_window sr total spb n) as [[s0 ns]| |]; reflexivity.
  - left. split; [apply resolves_false; exact Hm|]. rewrite Hm. reflexivity.
Qed.

(** A note never resizes the buffer. *)
Lemma render_note_length (sr total : Z) (spb : float) (n : note)
      (buf buf' : list sample) :
  render_note sample mix voice sr total spb n buf = Ok buf' ->
  List.length buf' = List.length buf.
Proof.
  destruct (render_note_cases sr total spb n buf) as [(_ & ->)|(m & _ & ->)].
  - intros [= <-]. reflexivity.
  - destruct (note_window sr total spb n) as [w| |]; try discriminate.
    cbn [bind]. intros [= <-]. apply fold_mix_length.
Qed.

(** A note whose pitch does not resolve leaves the buffer as it is. *)
Lemma render_note_unresolved (sr total : Z) (spb : float) (n : note) (buf : list sample) :
  resolves n = false -> render_note sample mix voice sr total spb n buf = Ok buf.
Proof.
  intros H. apply resolves_false in H. unfold render_note. rewrite H. reflexivity.
Qed.

Lemma render_notes_length (sr total : Z) (spb : float) (notes : list note) :
  forall buf buf',
    render_notes sample mix voice sr total spb notes buf = Ok buf' ->
    List.length buf' = List.length buf.
Proof.
  induction notes as [|n notes IH]; intros buf buf' H.
  - injection H as <-. reflexivity.
  - cbn [render_notes] in H.
    destruct (render_note sample mix voice sr total spb n buf) as [b1| |] eqn:E1;
      try discriminate H.
    cbn [bind] in H. rewrite (IH _ _ H). apply (render_note_length _ _ _ _ _ _ E1).
Qed.

(** The loop returns when the window of every note whose pitch resolves
    is computed. *)
Lemma render_notes_returns (sr total : Z) (spb : float) (notes : list note) :
  (forall n, In n notes -> resolves n = true ->
             exists w, note_window sr total spb n = Ok w) ->
  forall buf, exists buf', render_notes sample mix voice sr total spb notes buf = Ok buf'.
Proof.
  induction notes as [|n notes IH]; intros H buf; cbn [render_notes]; [eauto|].
  assert (H1 : exists b1, render_note sample mix voice sr total spb n buf = Ok b1).
  { destruct (render_note_cases sr total spb n buf) as [(_ & ->)|(m & Hm & ->)]; [eauto|].
    destruct (H n (or_introl eq_refl)) as (w & ->); [apply resolves_true; eauto|].
    cbn [bind]. eauto. }
  destruct H1 as (b1 & ->). cbn [bind].
  apply IH. intros n' Hn'. apply H. right. exact Hn'.
Qed.

Lemma render_notes_filter (sr total : Z) (spb : float) (notes : list note) :
  forall buf,
    render_notes sample mix voice sr total spb (filter resolves notes) buf =
    render_notes sample mix voice sr total spb notes buf.
Proof.
  induction notes as [|n notes IH]; intros buf; simpl; [reflexivity|].
  destruct (resolves n) eqn:E; simpl.
  - destruct (render_note sample mix voice sr total spb n buf); cbn [bind]; auto.
  - rewrite (render_note_unresolved _ _ _ _ _ E). cbn [bind]. apply IH.
Qed.

Lemma render_notes_unresolved (sr total : Z) (spb : float) (notes : list note) :
  (forall n, In n notes -> resolves n = false) ->
  forall buf, render_notes sample mix voice sr total spb notes buf = Ok buf.
Proof.
  induction notes as [|n notes IH]; intros H buf; simpl; [reflexivity|].
  rewrite render_note_unresolved by (apply H; left; reflexivity). cbn [bind].
  apply IH. intros n' Hn'. apply H. right. exact Hn'.
Qed.

(** The buffer has [total_samples] entries, none when that is negative. *)
Lemma render_buffer_length (sr : Z) (sc : score) (buf : list sample) :
  render_buffer sample silence mix voice sr sc = Ok buf ->
  exists total,
    total_samples sr sc = Ok total /\ List.length buf = Z.to_nat total.
Proof.
  unfold render_buffer. intros H.
  destruct (total_samples sr sc) as [total| |]; try discriminate H. cbn [bind] in H.
  exists total. split; [reflexivity|].
  rewrite (render_notes_length _ _ _ _ _ _ H). apply repeat_length.
Qed.

Lemma render_buffer_returns (sr : Z) (sc : score) (total : Z) :
  total_samples sr sc = Ok total ->
  (forall n, In n (melody sc) -> resolves n = true ->
             exists w, note_window sr total (spb_of (clamped_bpm sc)) n = Ok w) ->
  exists buf, render_buffer sample silence mix voice sr sc = Ok buf.
Proof.
  intros Ht Hw. unfold render_buffer. rewrite Ht. cbn [bind].
  apply render_notes_returns. exact Hw.
Qed.
End SynthFacts.

(** With a sample rate that is not negative, neither is the length. *)
Lemma total_samples_nonneg (sample_rate : Z) (sc : score) (total : Z) :
  0 <= sample_rate -> total_samples sample_rate sc = Ok total ->
  0 <= total /\
  exists max_end rate,
    max_end_loop (spb_of (clamped_bpm sc)) (melody sc) fzero = Ok max_end /\
    float_of_int sample_rate = Ok rate /\
    total = Qfloor (exact (fmul (fadd max_end three_tenths) rate)).
Proof.
  intros Hsr Ht.
  destruct (total_samples_ok _ _ _ Ht) as (max_end & rate & Hmax & Hrate & Hfin & ->).
  destruct (max_end_loop_spec _ (melody sc) fzero max_end ltac:(discriminate) Hmax)
    as (_ & H0 & _).
  assert (Hnn : not_negative (fmul (fadd max_end three_tenths) rate) = true).
  { apply fmul_not_negative.
    - apply fadd_not_negative;
        [apply flt_zero_not_negative; exact H0 | exact three_tenths_not_negative].
    - apply (float_of_int_not_negative sample_rate rate Hsr Hrate). }
  destruct (Qtrunc_nonneg _ (exact_nonneg _ Hnn)) as (Htr & Hpos).
  rewrite Htr. split; [exact Hpos|]. exists max_end, rate. auto.
Qed.

Example quarter_beat_samples :
  total_samples 44100 quarter_beat = Ok 18742 /\
  exists max_end rate,
    max_end_loop (spb_of 120) (melody quarter_beat) fzero = Ok max_end /\
    float_of_int 44100 = Ok rate /\
    (exact (fmul (fadd max_end three_tenths) rate) == 37485 # 2)%Q.
Proof.
  split; [reflexivity|]. eexists. eexists.
  split; [reflexivity|]. split; reflexivity.
Qed.

(** One and a half beats at 40 beats per minute, at 44100 Hz: the buffer
    has 112454 samples, one fewer than the 112455 of the decimal product
    [(2.25 + 0.3) * 44100], and the note sounds in the first 99225, so that
    13229 silent samples follow it, one fewer than [0.3 * 44100]. *)
Example slow_note_samples :
  total_samples 44100 slow_note = Ok 112454 /\
  Qfloor (((9 # 4) + (3 # 10)) * 44100) = 112455 /\
  note_window 44100 112454 (spb_of 40) (Note "C4" (Int 0) (dbl 3 2) (Some 80)) =
    Ok (0, 99225).
Proof. repeat split; vm_compute; reflexivity. Qed.

(** C8, as stated, fails: a quarter beat at 120 beats per minute ends at
    0.125 s, the double product [(0.125 + 0.3) * 44100] is 18742.5, and the
    buffer has 18742 samples, not 18743. *)
Lemma buffer_length_not_ceiling :
  ~ (forall (sample : Type) (silence : sample) (mix : sample -> sample -> sample)
            (voice : Z -> Z -> Z -> Z -> Z -> sample)
            (sc : score) (sample_rate : Z) (buf : list sample) (max_end rate : float),
        0 <= sample_rate ->
        render_buffer sample silence mix voice sample_rate sc = Ok buf ->
        max_end_loop (spb_of (clamped_bpm sc)) (melody sc) fzero = Ok max_end ->
        float_of_int sample_rate = Ok rate ->
        Z.of_nat (List.length buf) =
        Qceiling (exact (fmul (fadd max_end three_tenths) rate))).
Proof.
  intros H.
  destruct (render_buffer_returns unit tt (fun _ _ => tt) (fun _ _ _ _ _ => tt)
              44100 quarter_beat 18742 eq_refl) as (buf & Hb).
  { intros n [<-|[]] _. eexists. reflexivity. }
  destruct (render_buffer_length _ _ _ _ _ _ _ Hb) as (total & Ht & Hl).
  change (total_samples 44100 quarter_beat) with (Ok (A:=Z) 18742) in Ht.
  injection Ht as <-.
  assert (Hsr : 0 <= 44100) by lia.
  specialize (H _ _ _ _ _ _ _ _ _ Hsr Hb eq_refl eq_refl).
  rewrite Hl in H. vm_compute in H. discriminate H.
Qed.

(** C8, amended. The buffer has [int((max_end + 0.3) * sample_rate)]
    samples: the sum and the product are doubles, and the product is
    truncated, not rounded up; for a sample rate that is not negative this
    is its floor.  [max_end] is the largest of 0.0 and the end times
    [(float(start_beat) + float(duration_beats)) * spb] of all notes of the
    melody, each a double as well. *)
Theorem buffer_length_floor
        (sample : Type) (silence : sample) (mix : sample -> sample -> sample)
        (voice : Z -> Z -> Z -> Z -> Z -> sample)
        (sc : score) (sample_rate : Z) (buf : list sample)
        (H : render_buffer sample silence mix voice sample_rate sc = Ok buf) :
  let spb := spb_of (clamped_bpm sc) in
  exists max_end rate,
    max_end_loop spb (melody sc) fzero = Ok max_end /\
    float_of_int sample_rate = Ok rate /\
    let product := fmul (fadd max_end three_tenths) rate in
    is_finite product = true /\
    total_samples sample_rate sc = Ok (Qtrunc (exact product)) /\
    List.length buf = Z.to_nat (Qtrunc (exact product)) /\
    (0 <= sample_rate -> Z.of_nat (List.length buf) = Qfloor (exact product)) /\
    flt max_end fzero = false /\
    (forall n e, In n (melody sc) -> note_end spb n = Ok e -> flt max_end e = false) /\
    (max_end = fzero \/ exists n, In n (melody sc) /\ note_end spb n = Ok max_end).
Proof.
  intros spb.
  destruct (render_buffer_length _ _ _ _ _ _ _ H) as (total & Ht & Hl).
  destruct (total_samples_ok _ _ _ Ht) as (max_end & rate & Hmax & Hrate & Hfin & ->).
  destruct (max_end_loop_spec spb (melody sc) fzero max_end ltac:(discriminate) Hmax)
    as (_ & H0 & Hub & Hatt).
  exists max_end, rate. cbn zeta.
  split; [exact Hmax|]. split; [exact Hrate|]. split; [exact Hfin|].
  split; [exact Ht|]. split; [exact Hl|]. split; [|auto].
  intros Hsr.
  destruct (total_samples_nonneg _ _ _ Hsr Ht)
    as (Hpos & max_end' & rate' & Hmax' & Hrate' & Hfl).
  rewrite Hmax in Hmax'. injection Hmax' as <-.
  rewrite Hrate in Hrate'. injection Hrate' as <-.
  rewrite Hl, <- Hfl. apply Z2Nat.id. exact Hpos.
Qed.

Lemma buffer_length_floor_witness :
  exists buf,
    render_buffer unit tt (fun _ _ => tt) (fun _ _ _ _ _ => tt) 10 quarter_beat
      = Ok buf /\
    Z.of_nat (List.length buf) = 4.
Proof.
  eexists. split; [vm_compute; reflexivity|].
  destruct (buffer_length_floor unit tt (fun _ _ => tt) (fun _ _ _ _ _ => tt)
              quarter_beat 10 [tt; tt; tt; tt] eq_refl)
    as (max_end & rate & Hm & Hr & _ & _ & _ & Hl & _).
  vm_compute in Hm. injection Hm as <-.
  vm_compute in Hr. injection Hr as <-.
  rewrite Hl by lia. reflexivity.
Defined.

(** ** The WAV container *)

Lemma le_value_le32 (v : Z) : 0 <= v < 2 ^ 32 -> le_value (le32 v) = v.
Proof.
  intros Hv. unfold le32. cbn [le_value]. rewrite !low_byte_mod.
  change (2 ^ 32) with 4294967296 in Hv.
  change (2 ^ 24) with 16777216. change (2 ^ 16) with 65536. change (2 ^ 8) with 256.
  Z.div_mod_to_equations. lia.
Qed.

Lemma le_value_le16 (v : Z) : 0 <= v < 2 ^ 16 -> le_value (le16 v) = v.
Proof.
  intros Hv. unfold le16. cbn [le_value]. rewrite !low_byte_mod.
  change (2 ^ 16) with 65536 in Hv. change (2 ^ 8) with 256.
  Z.div_mod_to_equations. lia.
Qed.

Lemma pack_le32_ok (v : Z) : 0 <= v < 2 ^ 32 -> pack_le32 v = Ok (le32 v).
Proof.
  intros Hv. unfold pack_le32, pack_be32.
  destruct (Z.leb_spec 0 v); [|lia].
  destruct (Z.ltb_spec v (2 ^ 32)); [|lia].
  reflexivity.
Qed.

Lemma pack_le16_ok (v : Z) : 0 <= v < 2 ^ 16 -> pack_le16 v = Ok (le16 v).
Proof.
  intros Hv. unfold pack_le16, pack_be16.
  destruct (Z.leb_spec 0 v); [|lia].
  destruct (Z.ltb_spec v (2 ^ 16)); [|lia].
  reflexivity.
Qed.

Lemma wav_container_bytes (sample_rate : Z) (pcm : list byte) :
  0 <= sample_rate -> 2 * sample_rate < 2 ^ 32 ->
  36 + Z.of_nat (List.length pcm) < 2 ^ 32 ->
  wav_container sample_rate pcm =
  Ok (bytes_of_string "RIFF" ++ le32 (36 + Z.of_nat (List.length pcm))
      ++ bytes_of_string "WAVE" ++ bytes_of_string "fmt "
      ++ (le32 16 ++ le16 1 ++ le16 1 ++ le32 sample_rate ++ le32 (sample_rate * 2)
          ++ le16 2 ++ le16 16)
      ++ bytes_of_string "data" ++ le32 (Z.of_nat (List.length pcm)) ++ pcm).
Proof.
  intros Hsr Hbr Hlen. unfold wav_container, pack_fmt_fields.
  change (2 ^ 32) with 4294967296 in *.
  rewrite !pack_le32_ok by (change (2 ^ 32) with 4294967296; lia).
  rewrite !pack_le16_ok by (change (2 ^ 16) with 65536; lia).
  reflexivity.
Qed.

Lemma canonical_wav_container (sample_rate n : Z) (pcm : list byte) (wav : list byte) :
  0 <= sample_rate -> 2 * sample_rate < 2 ^ 32 ->
  Z.of_nat (List.length pcm) = 2 * n -> 36 + 2 * n < 2 ^ 32 ->
  wav_container sample_rate pcm = Ok wav ->
  canonical_wav sample_rate n wav.
Proof.
  intros Hsr Hbr Hpcm Hlen H.
  rewrite wav_container_bytes in H by lia. injection H as <-.
  rewrite Hpcm.
  change (2 ^ 32) with 4294967296 in *.
  unfold canonical_wav, field_at.
  change (bytes_of_string "RIFF") with [x52; x49; x46; x46].
  change (bytes_of_string "WAVE") with [x57; x41; x56; x45].
  change (bytes_of_string "fmt ") with [x66; x6d; x74; x20].
  change (bytes_of_string "data") with [x64; x61; x74; x61].
  change (bytes_of_string "WAVEfmt ") with [x57; x41; x56; x45; x66; x6d; x74; x20].
  change (le32 16) with [x10; x00; x00; x00].
  change (le16 1) with [x01; x00].
  change (le16 2) with [x02; x00].
  change (le16 16) with [x10; x00].
  unfold le32. cbn [app firstn skipn].
  split; [reflexivity|].
  split; [apply (le_value_le32 (36 + 2 * n)); change (2 ^ 32) with 4294967296; lia|].
  split; [reflexivity|].
  split; [reflexivity|].
  split; [reflexivity|].
  split; [reflexivity|].
  split; [apply (le_value_le32 sample_rate); change (2 ^ 32) with 4294967296; lia|].
  split; [rewrite (Z.mul_comm 2 sample_rate);
          apply (le_value_le32 (sample_rate * 2)); change (2 ^ 32) with 4294967296; lia|].
  split; [reflexivity|].
  split; [reflexivity|].
  split; [reflexivity|].
  split; [apply (le_value_le32 (2 * n)); change (2 ^ 32) with 4294967296; lia|].
  cbn [List.length]. lia.
Qed.

Section PcmFacts.
Variable sample : Type.
Variable scaled : list sample -> sample -> Z.

(** The clamp keeps every sample inside the 16-bit range, so packing
    never fails. *)
Lemma pack_pcm_ok (whole buf : list sample) :
  exists pcm, pack_pcm sample scaled whole buf = Ok pcm /\
              Z.of_nat (List.length pcm) = 2 * Z.of_nat (List.length buf).
Proof.
  induction buf as [|s buf (pcm & IH & Hl)]; cbn [pack_pcm].
  - exists []. split; reflexivity.
  - unfold pack_le16s.
    assert (Hc : - 2 ^ 15 <= clamp (-32768) 32767 (scaled whole s) < 2 ^ 15).
    { unfold clamp. change (2 ^ 15) with 32768. lia. }
    destruct (Z.leb_spec (- 2 ^ 15) (clamp (-32768) 32767 (scaled whole s))); [|lia].
    destruct (Z.ltb_spec (clamp (-32768) 32767 (scaled whole s)) (2 ^ 15)); [|lia].
    cbn [andb bind]. rewrite IH. cbn [bind].
    eexists. split; [reflexivity|].
    cbn [app List.length]. lia.
Qed.
End PcmFacts.

(** ** Notes whose pitch does not parse *)

Lemma scheduled_events_unresolved (sc : score) :
  (forall n, In n (melody sc) -> resolves n = false) ->
  (forall n, In n (melody sc) -> exists x, py_float (start_beat n) = Ok x) ->
  scheduled_events sc = Ok [].
Proof.
  intros Hall Hkeys.
  destruct (proj2 (scheduled_events_returns sc)) as (evs & Hev).
  { split; [exact Hkeys|]. intros n m Hn Hm.
    apply Hall, resolves_false in Hn. congruence. }
  rewrite Hev. f_equal. destruct evs as [|e evs]; [reflexivity|].
  destruct (proj1 (scheduled_events_In_iff sc _ e Hev) (or_introl eq_refl))
    as (n & Hn & He).
  apply Hall, resolves_false in Hn. unfold note_events in He. rewrite Hn in He.
  contradiction.
Qed.

(** When the buffer is rendered and the sizes fit the 32-bit fields,
    [synthesize_wav] returns a canonical file of that many samples. *)
Lemma synthesize_wav_canonical
      (sample : Type) (silence : sample) (mix : sample -> sample -> sample)
      (voice : Z -> Z -> Z -> Z -> Z -> sample) (scaled : list sample -> sample -> Z)
      (sc : score) (sample_rate : Z) (buf : list sample) :
  render_buffer sample silence mix voice sample_rate sc = Ok buf ->
  0 <= sample_rate -> 2 * sample_rate < 2 ^ 32 ->
  36 + 2 * Z.of_nat (List.length buf) < 2 ^ 32 ->
  exists wav,
    synthesize_wav sample silence mix voice scaled sc sample_rate = Ok wav /\
    canonical_wav sample_rate (Z.of_nat (List.length buf)) wav.
Proof.
  intros Hb Hsr Hbr Hlen. unfold synthesize_wav. rewrite Hb. cbn [bind].
  destruct (pack_pcm_ok sample scaled buf buf) as (pcm & -> & Hp). cbn [bind].
  rewrite wav_container_bytes by lia.
  eexists. split; [reflexivity|].
  eapply canonical_wav_container; try eassumption.
  apply wav_container_bytes; lia.
Qed.

(** Every scheduled event comes from a note of the melody whose pitch
    resolves. *)
Lemma scheduled_events_origin (sc : score) (evs : list event) (e : event) :
  scheduled_events sc = Ok evs -> In e evs ->
  exists n, In n (melody sc) /\ resolves n = true /\ In e (note_events n).
Proof.
  intros Hev He.
  apply (scheduled_events_In_iff sc evs e Hev) in He. destruct He as (n & Hn & He).
  exists n. split; [exact Hn|]. split; [|exact He].
  unfold note_events in He. unfold resolves.
  destruct (pitch_to_midi (pitch n)); [reflexivity | contradiction | contradiction].
Qed.

(** A melody whose only entry does not parse and starts at beat [10^308]:
    the MIDI file has an empty track, and the synthesizer raises, because
    the entry still sets the length of the buffer. *)
Example far_bad_pitch_outcomes :
  (match build_midi 1 far_bad_pitch with
   | Ok file => read_midi file
   | _ => None
   end = Some []) /\
  total_samples 44100 far_bad_pitch = Raise OverflowError /\
  forall (sample : Type) (silence : sample) (mix : sample -> sample -> sample)
         (voice : Z -> Z -> Z -> Z -> Z -> sample) (scaled : list sample -> sample -> Z),
    synthesize_wav sample silence mix voice scaled far_bad_pitch 44100
    = Raise OverflowError.
Proof.
  split; [vm_compute; reflexivity|]. split; [vm_compute; reflexivity|].
  assert (Ht : total_samples 44100 far_bad_pitch = Raise OverflowError)
    by (vm_compute; reflexivity).
  intros. unfold synthesize_wav, render_buffer. rewrite Ht. reflexivity.
Qed.

(** With the integer [10^400] as its start, the entry makes both
    functions raise: [float()] refuses it in the key of [sorted] and in the
    first loop of the synthesizer. *)
Example huge_bad_pitch_outcomes :
  (forall fuel, build_midi fuel huge_bad_pitch = Raise OverflowError) /\
  forall (sample : Type) (silence : sample) (mix : sample -> sample -> sample)
         (voice : Z -> Z -> Z -> Z -> Z -> sample) (scaled : list sample -> sample -> Z),
    synthesize_wav sample silence mix voice scaled huge_bad_pitch 44100
    = Raise OverflowError.
Proof.
  assert (Hs : scheduled_events huge_bad_pitch = Raise OverflowError)
    by (vm_compute; reflexivity).
  assert (Ht : total_samples 44100 huge_bad_pitch = Raise OverflowError)
    by (vm_compute; reflexivity).
  split.
  - intros fuel. unfold build_midi. rewrite Hs. reflexivity.
  - intros. unfold synthesize_wav, render_buffer. rewrite Ht. reflexivity.
Qed.

(** The entry that is dropped counts in the length of the buffer: 29
    samples at 10 Hz with it, 9 without. *)
Example with_bad_pitch_samples :
  total_samples 10 with_bad_pitch = Ok 29 /\
  total_samples 10 (kept with_bad_pitch) = Ok 9.
Proof. split; vm_compute; reflexivity. Qed.

(** C7, as stated, fails: on a melody whose only entry does not parse,
    [synthesize_wav] can raise instead of returning a file. *)
Lemma dropped_note_can_raise :
  ~ (forall (sample : Type) (silence : sample) (mix : sample -> sample -> sample)
            (voice : Z -> Z -> Z -> Z -> Z -> sample)
            (scaled : list sample -> sample -> Z) (sc : score),
        (forall n, In n (melody sc) -> resolves n = false) ->
        (exists fuel file, build_midi fuel sc = Ok file) /\
        exists wav, synthesize_wav sample silence mix voice scaled sc 44100 = Ok wav).
Proof.
  intros H.
  destruct (H unit tt (fun _ _ => tt) (fun _ _ _ _ _ => tt) (fun _ _ => 0) far_bad_pitch)
    as (_ & wav & Hwav).
  - intros n [<-|[]]. reflexivity.
  - rewrite (proj2 (proj2 far_bad_pitch_outcomes)) in Hwav. discriminate Hwav.
Qed.

(** C7, amended. A note whose pitch does not parse is passed over by both
    renderers: [build_midi] schedules no event for it and [synthesize_wav]
    mixes nothing for it into the buffer.  It is still read: its start is
    a key of the sort, and its end counts in the length of the buffer, so
    it can make either function raise.  With no note that resolves,
    [build_midi] returns a file with an empty track when [float()] converts
    every start, and the buffer is silent when its length is computed.  In
    general [build_midi] returns a file that reads back as the scheduled
    events when the scheduler returns and no resolving note starts before
    beat 0, unless the track outgrows its 32-bit length field; and
    [synthesize_wav] returns a canonical WAV file when the buffer is
    rendered and the sizes fit its 32-bit fields. *)
Theorem unparsable_pitch_dropped
        (sample : Type) (silence : sample) (mix : sample -> sample -> sample)
        (voice : Z -> Z -> Z -> Z -> Z -> sample) (scaled : list sample -> sample -> Z)
        (sc : score) (sample_rate : Z) (fuel : nat) :
  let spb := spb_of (clamped_bpm sc) in
  (forall evs e,
      scheduled_events sc = Ok evs -> In e evs ->
      exists n, In n (melody sc) /\ resolves n = true /\ In e (note_events n)) /\
  (forall n, resolves n = false ->
             note_events n = [] /\
             forall total buf,
               render_note sample mix voice sample_rate total spb n buf = Ok buf) /\
  (forall total,
      total_samples sample_rate sc = Ok total ->
      render_buffer sample silence mix voice sample_rate sc =
      render_notes sample mix voice sample_rate total spb (melody (kept sc))
                   (repeat silence (Z.to_nat total))) /\
  ((forall n, In n (melody sc) -> resolves n = false) ->
   ((forall n, In n (melody sc) -> exists x, py_float (start_beat n) = Ok x) ->
    exists file, build_midi (S fuel) sc = Ok file /\ read_midi file = Some []) /\
   (forall total,
       total_samples sample_rate sc = Ok total ->
       render_buffer sample silence mix voice sample_rate sc
       = Ok (repeat silence (Z.to_nat total)))) /\
  (forall evs,
      scheduled_events sc = Ok evs ->
      (forall n, In n (melody sc) -> resolves n = true -> starts_before_zero n = false) ->
      exists enough body,
        write_events enough 0 evs = Ok body /\
        (Z.of_nat (List.length body) + 14 < 2 ^ 32 ->
         exists file,
           build_midi enough sc = Ok file /\
           read_midi file = Some (List.map msg_of_event evs))) /\
  (forall buf,
      render_buffer sample silence mix voice sample_rate sc = Ok buf ->
      0 <= sample_rate -> 2 * sample_rate < 2 ^ 32 ->
      36 + 2 * Z.of_nat (List.length buf) < 2 ^ 32 ->
      exists wav,
        synthesize_wav sample silence mix voice scaled sc sample_rate = Ok wav /\
        canonical_wav sample_rate (Z.of_nat (List.length buf)) wav).
Proof.
  intros spb.
  split.
  { intros evs e Hev He. exact (scheduled_events_origin sc evs e Hev He). }
  split.
  { intros n Hn. split.
    - apply resolves_false in Hn. unfold note_events. rewrite Hn. reflexivity.
    - intros total buf. apply render_note_unresolved. exact Hn. }
  split.
  { intros total Ht. unfold render_buffer, kept. cbn [melody]. rewrite Ht. cbn [bind].
    fold spb. symmetry. apply render_notes_filter. }
  split.
  - intros Hall. split.
    + intros Hkeys.
      pose proof (scheduled_events_unresolved sc Hall Hkeys) as Hev.
      assert (Hb : exists file, build_midi (S fuel) sc = Ok file).
      { unfold build_midi. rewrite Hev. cbn [bind].
        rewrite (track_prelude_bytes fuel _ (clamped_bpm_range sc)).
        cbn [bind write_events]. eexists. reflexivity. }
      destruct Hb as (file & Hfile). exists file. split; [exact Hfile|].
      destruct (build_midi_read _ _ _ Hfile) as (evs & Hev' & Hread).
      rewrite Hev in Hev'. injection Hev' as <-. exact Hread.
    + intros total Ht. unfold render_buffer. rewrite Ht. cbn [bind].
      apply render_notes_unresolved. exact Hall.
  - split; [|intros buf; apply synthesize_wav_canonical].
    intros evs Hev Hstart.
    destruct (build_midi_returns sc evs Hev) as (_ & enough & body & Hbody & Hfile).
    { intros n s Hn Hr Hs. apply (start_tick_nonneg n s); [|exact Hs].
      apply Hstart; assumption. }
    exists enough, body. split; [exact Hbody|].
    intros Hfit. destruct (Hfile Hfit) as (file & Hf).
    exists file. split; [exact Hf|].
    destruct (build_midi_read _ _ _ Hf) as (evs' & Hev' & Hread).
    rewrite Hev in Hev'. injection Hev' as <-. exact Hread.
Qed.

Lemma unparsable_pitch_dropped_witness :
  (exists file,
      build_midi 1 (Score (Some 90) [Note "Z9" (Int 0) (Int 4) (Some 80)]) = Ok file /\
      read_midi file = Some []) /\
  exists wav,
    synthesize_wav unit tt (fun _ _ => tt) (fun _ _ _ _ _ => tt) (fun _ _ => 0)
                   with_bad_pitch 10 = Ok wav /\
    canonical_wav 10 29 wav.
Proof.
  split.
  - destruct (unparsable_pitch_dropped unit tt (fun _ _ => tt) (fun _ _ _ _ _ => tt)
                (fun _ _ => 0) (Score (Some 90) [Note "Z9" (Int 0) (Int 4) (Some 80)])
                10 0)
      as (_ & _ & _ & H & _).
    apply H.
    + intros n [<-|[]]. reflexivity.
    + intros n [<-|[]]. eexists. reflexivity.
  - destruct (unparsable_pitch_dropped unit tt (fun _ _ => tt) (fun _ _ _ _ _ => tt)
                (fun _ _ => 0) with_bad_pitch 10 0)
      as (_ & _ & _ & _ & _ & H).
    apply (H (repeat tt 29)); vm_compute; congruence.
Defined.

(** ** The duration probe *)

Lemma header_fields (buf : list byte) :
  (44 <= List.length buf)%nat ->
  unpack_from_le 2 buf 22 = Ok (wav_channels buf) /\
  unpack_from_le 4 buf 24 = Ok (wav_sample_rate buf) /\
  unpack_from_le 2 buf 34 = Ok (wav_bits buf) /\
  Z.of_nat (List.length (skipn 44 buf)) = Z.of_nat (List.length buf) - 44.
Proof.
  intros Hlen.
  assert (Hskip : Z.of_nat (List.length (skipn 44 buf)) = Z.of_nat (List.length buf) - 44).
  { rewrite length_skipn. lia. }
  do 36 (destruct buf as [|? buf]; [simpl in Hlen; lia|]).
  unfold unpack_from_le, wav_channels, wav_sample_rate, wav_bits, byte_at.
  cbn [skipn firstn List.length Nat.eqb nth le_value].
  repeat split; try exact Hskip; f_equal; lia.
Qed.

(** C9, as stated, fails: one sample at 100 Hz lasts 0.01 s by the header
    fields, and the probe returns 0.0. *)
Lemma wav_duration_is_rounded :
  ~ (forall buf : list byte,
        (44 <= List.length buf)%nat ->
        wav_sample_rate buf <> 0 -> wav_channels buf <> 0 -> wav_bits buf / 8 <> 0 ->
        (exact (_wav_duration buf) == header_duration buf)%Q).
Proof.
  intros H. specialize (H one_sample_wav).
  assert (H1 : (44 <= List.length one_sample_wav)%nat) by (vm_compute; lia).
  assert (H2 : wav_sample_rate one_sample_wav <> 0) by (vm_compute; discriminate).
  assert (H3 : wav_channels one_sample_wav <> 0) by (vm_compute; discriminate).
  assert (H4 : wav_bits one_sample_wav / 8 <> 0) by (vm_compute; discriminate).
  specialize (H H1 H2 H3 H4). vm_compute in H. discriminate H.
Qed.

Example one_sample_wav_duration :
  _wav_duration one_sample_wav = fzero /\ (header_duration one_sample_wav == 1 # 100)%Q.
Proof. split; vm_compute; reflexivity. Qed.

(** The quotient is rounded to a double before it is rounded to one
    decimal: 35 samples at 100 Hz give the double below 0.35 and from it
    0.3, and 5 samples give the double above 0.05 and from it 0.1. *)
Example rounded_quotient_35 :
  rounded_quotient 35 100 = float_of_ratio 3 10 /\
  rounded_quotient 5 100 = float_of_ratio 1 10 /\
  rounded_quotient 25 100 = float_of_ratio 2 10 /\
  rounded_quotient 75 100 = float_of_ratio 8 10.
Proof. repeat split; vm_compute; reflexivity. Qed.

(** C9, amended. The probe reads the channel count at offset 22, the
    sample rate at offset 24 and the bits per sample at offset 34, counts
    the samples as the floor of (bytes after the 44-byte header) /
    (bits / 8), and returns [round(n_samples / (sample rate * channels), 1)]:
    the quotient is rounded to a double, and that double to one decimal.
    It returns 0.0 on a buffer shorter than 44 bytes, on a zero sample
    rate, on a zero channel count and on fewer than 8 bits per sample; it
    never raises. *)
Theorem wav_duration_rounds (buf : list byte) :
  let bytes_per_sample := wav_bits buf / 8 in
  let n_samples := (Z.of_nat (List.length buf) - 44) / bytes_per_sample in
  ((List.length buf < 44)%nat -> _wav_duration buf = fzero) /\
  ((44 <= List.length buf)%nat ->
   wav_sample_rate buf = 0 \/ wav_channels buf = 0 \/ bytes_per_sample = 0 ->
   _wav_duration buf = fzero) /\
  ((44 <= List.length buf)%nat ->
   wav_sample_rate buf <> 0 -> wav_channels buf <> 0 -> bytes_per_sample <> 0 ->
   _wav_duration buf =
   rounded_quotient n_samples (wav_sample_rate buf * wav_channels buf)).
Proof.
  intros bps n_samples. unfold _wav_duration, wav_duration_try. split; [|split].
  - intros Hlen. apply Nat.ltb_lt in Hlen. rewrite Hlen. reflexivity.
  - intros Hlen Hz.
    destruct (header_fields buf Hlen) as (Hc & Hr & Hb & Hs).
    destruct (Nat.ltb_spec (List.length buf) 44); [lia|].
    rewrite Hc, Hr, Hb. cbn [bind]. fold bps.
    destruct (Z.eqb_spec bps 0); [reflexivity|].
    destruct (Z.eqb_spec (wav_sample_rate buf) 0); [reflexivity|].
    destruct Hz as [Hz|[Hz|Hz]]; try contradiction.
    rewrite Hz, Z.mul_0_r. reflexivity.
  - intros Hlen Hr0 Hc0 Hb0.
    destruct (header_fields buf Hlen) as (Hc & Hr & Hb & Hs).
    destruct (Nat.ltb_spec (List.length buf) 44); [lia|].
    rewrite Hc, Hr, Hb. cbn [bind]. fold bps.
    destruct (Z.eqb_spec bps 0); [contradiction|].
    destruct (Z.eqb_spec (wav_sample_rate buf) 0); [contradiction|].
    rewrite Hs. reflexivity.
Qed.

Lemma wav_duration_rounds_witness :
  _wav_duration [x52; x49; x46; x46] = fzero /\
  _wav_duration one_sample_wav = rounded_quotient 1 100.
Proof.
  destruct (wav_duration_rounds [x52; x49; x46; x46]) as (Hshort & _ & _).
  destruct (wav_duration_rounds one_sample_wav) as (_ & _ & Hlong).
  split.
  - apply Hshort. simpl. lia.
  - rewrite Hlong.
    + vm_compute. reflexivity.
    + vm_compute. lia.
    + vm_compute. discriminate.
    + vm_compute. discriminate.
    + vm_compute. discriminate.
Defined.


(* ===================================================================== *)
(** * Part III. Further properties of the encoders *)
(* ===================================================================== *)

(** ** The layout of the MIDI file *)

Lemma be_value_three (v : Z) :
  0 <= v < 2 ^ 24 ->
  be_value [low_byte (v / 2 ^ 16); low_byte (v / 2 ^ 8); low_byte v] = v.
Proof.
  intros Hv. unfold be_value. cbn [fold_left]. rewrite !low_byte_mod.
  change (2 ^ 16) with 65536. change (2 ^ 8) with 256.
  change (2 ^ 24) with 16777216 in Hv.
  Z.div_mod_to_equations. lia.
Qed.

(** X1. Every file [build_midi] returns is the 14-byte header
    [MThd 00000006 0000 0001 01E0], then [MTrk], a 4-byte big-endian
    length that counts exactly the bytes after it, and a track made of the
    tempo event, the program change, the note events and end-of-track.  The
    tempo written is that of the clamped tempo, between 300000 and 1500000
    microseconds per beat whatever the score says. *)
Theorem build_midi_layout (fuel : nat) (sc : score) (file : list byte)
        (H : build_midi fuel sc = Ok file) :
  exists len tempo body evs,
    file = bytes_of_string "MThd"
           ++ [x00; x00; x00; x06; x00; x00; x00; x01; x01; xe0]
           ++ bytes_of_string "MTrk" ++ len
           ++ ([x00; xff; x51; x03] ++ tempo ++ [x00; xc0; x00]
               ++ body ++ [x00; xff; x2f; x00]) /\
    List.length len = 4%nat /\
    List.length tempo = 3%nat /\
    be_value len = 14 + Z.of_nat (List.length body) /\
    Z.of_nat (List.length file) = 36 + Z.of_nat (List.length body) /\
    be_value tempo = 60000000 / clamped_bpm sc /\
    300000 <= be_value tempo <= 1500000 /\
    scheduled_events sc = Ok evs /\
    write_events fuel 0 evs = Ok body.
Proof.
  unfold build_midi in H.
  destruct (scheduled_events sc) as [evs| |] eqn:Es; try discriminate.
  cbn [bind] in H.
  destruct fuel as [|fuel]; [discriminate|].
  pose proof (clamped_bpm_range sc) as Hb.
  rewrite (track_prelude_bytes fuel _ Hb) in H. cbn [bind] in H.
  destruct (write_events (S fuel) 0 evs) as [body| |] eqn:Eb; try discriminate.
  cbn [bind] in H.
  change pack_header_fields
    with (Ok (A:=list byte) [x00; x00; x00; x06; x00; x00; x00; x01; x01; xe0]) in H.
  cbn [bind] in H.
  destruct (pack_be32 _) as [len| |] eqn:El; try discriminate.
  cbn [bind] in H. injection H as <-.
  destruct (be_value_pack _ _ El) as (Hval & Hlen).
  destruct (meta_tempo_bytes _ Hb) as (_ & Hus).
  set (us := 60000000 / clamped_bpm sc) in *.
  exists len, [low_byte (us / 2 ^ 16); low_byte (us / 2 ^ 8); low_byte us], body, evs.
  split; [reflexivity|]. split; [exact Hlen|]. split; [reflexivity|].
  split.
  { rewrite Hval.
    repeat (rewrite ?length_app; cbn [List.length app end_of_track]). lia. }
  split.
  { repeat (rewrite ?length_app; cbn [List.length app end_of_track]).
    rewrite Hlen. lia. }
  split; [apply be_value_three; exact Hus|].
  split.
  { rewrite be_value_three by exact Hus. unfold us.
    split.
    - apply Z.div_le_lower_bound; lia.
    - apply Z.div_le_upper_bound; lia. }
  split; [reflexivity | exact Eb].
Qed.

Lemma build_midi_layout_witness :
  exists (file len tempo body : list byte),
    build_midi 3 two_notes = Ok file /\
    List.length len = 4%nat /\ List.length tempo = 3%nat /\
    be_value len = 14 + Z.of_nat (List.length body) /\
    be_value tempo = 500000.
Proof.
  assert (E : exists file, build_midi 3 two_notes = Ok file)
    by (eexists; vm_compute; reflexivity).
  destruct E as (file & E).
  destruct (build_midi_layout 3 two_notes file E)
    as (len & tempo & body & evs & _ & H1 & H2 & H3 & _ & H4 & _).
  exists file, len, tempo, body. repeat split; assumption.
Defined.

(** ** The note messages of the file *)

Lemma note_events_length (l : list note) :
  (forall n m, In n l -> pitch_to_midi (pitch n) = Ok m ->
               exists two, note_pair n m = Ok two) ->
  List.length (flat_map note_events l) = (2 * List.length (filter resolves l))%nat.
Proof.
  induction l as [|n l IH]; intros H; [reflexivity|].
  cbn [flat_map filter]. rewrite length_app, IH
    by (intros n' m' Hn'; apply H; right; exact Hn').
  unfold note_events, resolves.
  destruct (pitch_to_midi (pitch n)) as [m| |] eqn:Em; cbn [List.length]; try lia.
  destruct (H n m (or_introl eq_refl) Em) as (two & Ep). rewrite Ep.
  destruct (note_pair_ok _ _ _ Ep) as (s & d & _ & _ & _ & ->). cbn [List.length]. lia.
Qed.

Lemma filter_length_perm {A : Type} (p : A -> bool) (l l' : list A) :
  Permutation l l' -> List.length (filter p l) = List.length (filter p l').
Proof.
  induction 1 as [|x l l' _ IH|x y l|l l' l'' _ IH1 _ IH2]; cbn [filter].
  - reflexivity.
  - destruct (p x); cbn [List.length]; rewrite IH; reflexivity.
  - destruct (p x), (p y); reflexivity.
  - congruence.
Qed.

Lemma scheduled_events_length (sc : score) (evs : list event) :
  scheduled_events sc = Ok evs ->
  List.length evs = (2 * List.length (filter resolves (melody sc)))%nat.
Proof.
  intros H. destruct (scheduled_events_eq _ _ H) as (notes & Hperm & -> & Hall).
  rewrite (Permutation_length (stable_sort_perm event_leb _)).
  rewrite note_events_length.
  - rewrite (filter_length_perm resolves _ _ Hperm). reflexivity.
  - intros n m Hn. apply Hall. eapply Permutation_in; eassumption.
Qed.

Lemma note_events_In (n : note) (e : event) :
  In e (note_events n) ->
  exists m s d,
    pitch_to_midi (pitch n) = Ok m /\ PITCH_MIN <= m <= PITCH_MAX /\
    start_tick n = Ok s /\ duration_ticks n = Ok d /\
    (e = note_on s m (clamped_velocity n) \/ e = note_off (s + d) m).
Proof.
  destruct (note_events_cases n) as [-> |(m & s & d & Hm & Hr & Hs & Hd & _ & ->)];
    [intros []|].
  intros [<-|[<-|[]]]; exists m, s, d; auto 7.
Qed.

(** X2. The file holds two messages for each note whose pitch resolves
    and none for the others.  Every message carries a pitch of 48..72; a
    note-on carries a velocity of at most 127 and a note-off the velocity
    0, so no data byte has its high bit set. *)
Theorem build_midi_messages (fuel : nat) (sc : score) (file : list byte)
        (H : build_midi fuel sc = Ok file) :
  exists msgs,
    read_midi file = Some msgs /\
    List.length msgs = (2 * List.length (filter resolves (melody sc)))%nat /\
    Forall (fun m =>
              PITCH_MIN <= byte_to_Z (msg_data1 m) <= PITCH_MAX /\
              ((msg_status m = x90 /\ byte_to_Z (msg_data2 m) <= 127) \/
               (msg_status m = x80 /\ msg_data2 m = x00))) msgs.
Proof.
  destruct (build_midi_read _ _ _ H) as (evs & Hev & Hread).
  exists (List.map msg_of_event evs). split; [exact Hread|]. split.
  - rewrite length_map. apply scheduled_events_length. exact Hev.
  - apply Forall_forall. intros msg Hmsg. apply in_map_iff in Hmsg.
    destruct Hmsg as (e & <- & He).
    destruct (scheduled_events_origin sc evs e Hev He) as (n & _ & _ & Hin).
    destruct (note_events_In n e Hin) as (m & s & d & _ & Hm & _ & _ & He').
    pose proof (clamped_velocity_range n) as Hvel.
    unfold PITCH_MIN, PITCH_MAX in *.
    destruct He' as [-> | ->];
      unfold msg_of_event, msg_data1, msg_data2, msg_status, note_on, note_off;
      cbn [ev_tick ev_status ev_p1 ev_p2];
      rewrite !low_byte_value by lia; (split; [lia|]).
    + left. split; [reflexivity | lia].
    + right. split; reflexivity.
Qed.

Lemma build_midi_messages_witness :
  exists file msgs,
    build_midi 3 with_bad_pitch = Ok file /\
    read_midi file = Some msgs /\ List.length msgs = 2%nat.
Proof.
  assert (E : exists file, build_midi 3 with_bad_pitch = Ok file)
    by (eexists; vm_compute; reflexivity).
  destruct E as (file & E).
  destruct (build_midi_messages 3 with_bad_pitch file E) as (msgs & H1 & H2 & _).
  exists file, msgs. repeat split; assumption.
Defined.

Lemma In_nth_error_index {A : Type} (l : list A) (x : A) :
  In x l -> exists i, nth_error l i = Some x.
Proof. apply In_nth_error. Qed.

(** X3. Each note whose pitch resolves appears in the file as a note-on
    at its start tick, with its clamped velocity, and further on in the
    stream as a note-off of the same pitch, [duration_ticks] later: no
    note-off comes before its note-on. *)
Theorem note_on_before_note_off (fuel : nat) (sc : score) (file : list byte)
        (n : note) (m : Z)
        (H : build_midi fuel sc = Ok file)
        (Hn : In n (melody sc)) (Hm : pitch_to_midi (pitch n) = Ok m) :
  exists msgs i j s d,
    read_midi file = Some msgs /\ (i < j)%nat /\
    start_tick n = Ok s /\ duration_ticks n = Ok d /\
    nth_error msgs i = Some (s, x90, low_byte m, low_byte (clamped_velocity n)) /\
    nth_error msgs j = Some (s + d, x80, low_byte m, x00) /\
    s < s + d.
Proof.
  destruct (build_midi_read _ _ _ H) as (evs & Hev & Hread).
  destruct (scheduled_events_In sc evs n m Hev Hn Hm)
    as (s & d & Hs & Hd & Hdur & Hon & Hoff).
  destruct (scheduled_events_sorted _ _ Hev) as (Hsorted & _).
  destruct (In_nth_error_index _ _ Hon) as (i & Hi).
  destruct (In_nth_error_index _ _ Hoff) as (j & Hj).
  exists (List.map msg_of_event evs), i, j, s, d.
  split; [exact Hread|]. split; [|split; [exact Hs|split; [exact Hd|]]].
  - destruct (Nat.lt_trichotomy i j) as [Hlt|[Heq|Hgt]]; [exact Hlt| |].
    + subst j. rewrite Hi in Hj. discriminate Hj.
    + pose proof (StronglySorted_nth _ _ Hsorted j i _ _ Hgt Hj Hi) as Hle.
      unfold event_le, note_on, note_off in Hle. cbn [ev_tick ev_prio] in Hle. lia.
  - rewrite !nth_error_map, Hi, Hj. cbn [option_map].
    unfold msg_of_event, note_on, note_off. cbn [ev_tick ev_status ev_p1 ev_p2].
    repeat split; lia.
Qed.

Lemma note_on_before_note_off_witness :
  exists file msgs i j,
    build_midi 3 two_notes = Ok file /\
    read_midi file = Some msgs /\ (i < j)%nat /\
    nth_error msgs i = Some (480, x90, x3e, x46) /\
    nth_error msgs j = Some (960, x80, x3e, x00).
Proof.
  assert (E : exists file, build_midi 3 two_notes = Ok file)
    by (eexists; vm_compute; reflexivity).
  destruct E as (file & E).
  destruct (note_on_before_note_off 3 two_notes file
              (Note "D4" (Int 1) (Int 1) (Some 70)) 62 E)
    as (msgs & i & j & s & d & H1 & H2 & Hs & Hd & H3 & H4 & _).
  - left. reflexivity.
  - reflexivity.
  - vm_compute in Hs. injection Hs as <-. vm_compute in Hd. injection Hd as <-.
    exists file, msgs, i, j. repeat split; assumption.
Defined.

(** ** When [build_midi] returns *)

Lemma write_events_mono (fuel fuel' : nat) (evs : list event) :
  forall cur body,
    write_events fuel cur evs = Ok body -> (fuel <= fuel')%nat ->
    write_events fuel' cur evs = Ok body.
Proof.
  induction evs as [|e evs IH]; intros cur body H Hle; cbn [write_events] in *;
    [exact H|].
  destruct (_encode_varint fuel (ev_tick e - cur)) as [d| |] eqn:Ed; try discriminate.
  rewrite (encode_varint_mono _ _ _ _ Ed Hle). cbn [bind] in *.
  destruct (py_bytes [ev_status e; ev_p1 e; ev_p2 e]) as [msg| |]; try discriminate.
  cbn [bind] in *.
  destruct (write_events fuel (ev_tick e) evs) as [tail| |] eqn:Et; try discriminate.
  rewrite (IH _ _ Et Hle). exact H.
Qed.

Lemma first_delta_negative (evs : list event) (e : event) :
  StronglySorted event_le evs -> In e evs -> ev_tick e < 0 ->
  Exists (fun d => d < 0) (deltas 0 evs).
Proof.
  intros Hs He Hneg. destruct evs as [|e0 evs]; [contradiction|].
  cbn [deltas]. apply Exists_cons_hd.
  destruct He as [->|He]; [lia|].
  apply StronglySorted_inv in Hs. destruct Hs as (_ & Hall).
  rewrite Forall_forall in Hall. specialize (Hall e He).
  unfold event_le in Hall. lia.
Qed.

Lemma build_midi_stuck (sc : score) (evs : list event) (n : note) (s : Z) :
  scheduled_events sc = Ok evs ->
  In n (melody sc) -> resolves n = true -> start_tick n = Ok s -> s < 0 ->
  forall fuel, build_midi fuel sc = OutOfFuel.
Proof.
  intros Hev Hn Hr Hs Hneg fuel.
  apply resolves_true in Hr. destruct Hr as (m & Hm).
  destruct (scheduled_events_In sc evs n m Hev Hn Hm)
    as (s' & d & Hs' & _ & _ & Hon & _).
  rewrite Hs in Hs'. injection Hs' as <-.
  destruct (scheduled_events_sorted _ _ Hev) as (Hsorted & Hvalid).
  unfold build_midi. rewrite Hev. cbn [bind].
  destruct fuel as [|fuel]; [reflexivity|].
  rewrite (track_prelude_bytes fuel _ (clamped_bpm_range sc)). cbn [bind].
  rewrite (write_events_stuck _ _ 0 Hvalid); [reflexivity|].
  apply (first_delta_negative evs _ Hsorted Hon). exact Hneg.
Qed.

(** The scheduler has no loop that could go on. *)
Lemma py_float_no_fuel (v : number) : py_float v <> OutOfFuel.
Proof.
  destruct v as [z|x]; cbn [py_float]; [|discriminate].
  unfold float_of_int, checked. destruct (float_of_Z z); discriminate.
Qed.

Lemma int_of_float_no_fuel (x : float) : int_of_float x <> OutOfFuel.
Proof. destruct x; discriminate. Qed.

Lemma note_pair_no_fuel (n : note) (m : Z) : note_pair n m <> OutOfFuel.
Proof.
  unfold note_pair, start_tick, duration_ticks, ticks_of_beats.
  pose proof (py_float_no_fuel (start_beat n)) as H1.
  pose proof (py_float_no_fuel (duration_beats n)) as H2.
  destruct (py_float (start_beat n)) as [x| |]; try congruence; try discriminate.
  cbn [bind].
  pose proof (int_of_float_no_fuel (fmul x (float_of_Z tpb))) as H3.
  destruct (int_of_float (fmul x (float_of_Z tpb))); try congruence; try discriminate.
  cbn [bind].
  destruct (py_float (duration_beats n)) as [y| |]; try congruence; try discriminate.
  cbn [bind].
  pose proof (int_of_float_no_fuel (fmul y (float_of_Z tpb))) as H4.
  destruct (int_of_float (fmul y (float_of_Z tpb))); try congruence; discriminate.
Qed.

Lemma scheduled_events_no_fuel (sc : score) : scheduled_events sc <> OutOfFuel.
Proof.
  unfold scheduled_events, sorted_by_start.
  assert (Hk : forall notes, start_keys notes <> OutOfFuel).
  { induction notes as [|n notes IH]; cbn [start_keys]; [discriminate|].
    pose proof (py_float_no_fuel (start_beat n)).
    destruct (py_float (start_beat n)); try congruence; try discriminate.
    cbn [bind]. destruct (start_keys notes); try congruence; discriminate. }
  assert (Hc : forall notes, collect_events notes <> OutOfFuel).
  { induction notes as [|n notes IH]; cbn [collect_events]; [discriminate|].
    destruct (pitch_to_midi_cases (pitch n)) as [(m & -> & _)| ->]; [|exact IH].
    pose proof (note_pair_no_fuel n m).
    destruct (note_pair n m); try congruence; try discriminate.
    cbn [bind]. destruct (collect_events notes); try congruence; discriminate. }
  specialize (Hk (melody sc)).
  destruct (start_keys (melody sc)) as [ks| |]; try congruence; try discriminate.
  cbn [bind]. specialize (Hc (List.map snd (stable_sort key_leb ks))).
  destruct (collect_events _); try congruence; discriminate.
Qed.

(** With its events scheduled at tick 0 or later, [build_midi] ends: it
    returns a file, or raises [struct.error] on a track too long for the
    length field. *)
Lemma build_midi_ends (sc : score) (evs : list event) :
  scheduled_events sc = Ok evs ->
  (forall n s, In n (melody sc) -> resolves n = true -> start_tick n = Ok s -> 0 <= s) ->
  exists fuel,
    (exists file, build_midi fuel sc = Ok file) \/ build_midi fuel sc = Raise StructError.
Proof.
  intros Hev Hstart.
  destruct (build_midi_returns sc evs Hev Hstart) as (_ & fuel & body & Hb & _).
  exists (S fuel).
  unfold build_midi. rewrite Hev. cbn [bind].
  rewrite (track_prelude_bytes fuel _ (clamped_bpm_range sc)). cbn [bind].
  rewrite (write_events_mono fuel (S fuel) evs 0 body Hb) by lia. cbn [bind].
  change pack_header_fields
    with (Ok (A:=list byte) [x00; x00; x00; x06; x00; x00; x00; x01; x01; xe0]).
  cbn [bind]. unfold pack_be32.
  destruct (_ && _); cbn [bind]; [left; eauto | right; reflexivity].
Qed.

(** X4. [build_midi] never returns exactly when the scheduler returns its
    events and some note whose pitch resolves is scheduled before tick 0;
    when the scheduler raises, so does [build_midi]; and when the scheduler
    returns and no such note is scheduled before tick 0, [build_midi]
    returns a file or raises [struct.error]. *)
Theorem build_midi_hangs_iff (sc : score) :
  ((forall fuel, build_midi fuel sc = OutOfFuel) <->
   (exists evs, scheduled_events sc = Ok evs) /\
   (exists n s, In n (melody sc) /\ resolves n = true /\
                start_tick n = Ok s /\ s < 0)) /\
  (forall e, scheduled_events sc = Raise e ->
             forall fuel, build_midi fuel sc = Raise e) /\
  (forall evs,
      scheduled_events sc = Ok evs ->
      (forall n s, In n (melody sc) -> resolves n = true -> start_tick n = Ok s -> 0 <= s) ->
      exists fuel,
        (exists file, build_midi fuel sc = Ok file) \/
        build_midi fuel sc = Raise StructError).
Proof.
  split; [split|split].
  - intros Hstuck.
    destruct (scheduled_events sc) as [evs|e|] eqn:Hev.
    2:{ specialize (Hstuck O). unfold build_midi in Hstuck. rewrite Hev in Hstuck.
        discriminate Hstuck. }
    2:{ exfalso. exact (scheduled_events_no_fuel sc Hev). }
    split; [eauto|].
    destruct (Exists_dec (fun n => resolves n = true /\
                                   exists s, start_tick n = Ok s /\ s < 0) (melody sc))
      as [Hex|Hno].
    { intros n. destruct (resolves n); [|right; intros (E & _); discriminate].
      destruct (start_tick n) as [s| |];
        try (right; intros (_ & s' & E & _); discriminate).
      destruct (Z_lt_dec s 0); [left; eauto|].
      right. intros (_ & s' & E & Hs'). injection E as <-. lia. }
    + apply Exists_exists in Hex. destruct Hex as (n & Hn & Hr & s & Hs & Hneg).
      exists n, s. auto.
    + exfalso.
      assert (Hstart : forall n s, In n (melody sc) -> resolves n = true ->
                                   start_tick n = Ok s -> 0 <= s).
      { intros n s Hn Hr Hs. destruct (Z_lt_dec s 0) as [Hneg|]; [|lia].
        exfalso. apply Hno. apply Exists_exists. eauto 6. }
      destruct (build_midi_ends sc evs Hev Hstart) as (fuel & [(file & Hf)|Hf]);
        rewrite (Hstuck fuel) in Hf; discriminate Hf.
  - intros ((evs & Hev) & n & s & Hn & Hr & Hs & Hneg).
    apply (build_midi_stuck sc evs n s Hev Hn Hr Hs Hneg).
  - intros e He fuel. unfold build_midi. rewrite He. reflexivity.
  - intros evs Hev Hstart. exact (build_midi_ends sc evs Hev Hstart).
Qed.

(** A note before beat 0 and a note of [10^308] beats: the scheduler
    raises on the second, and [build_midi] raises instead of looping on the
    first. *)
Example early_and_endless :
  forall fuel, build_midi fuel (Score None [early_note; endless_note]) = Raise OverflowError.
Proof. intros fuel. reflexivity. Qed.

(** ** The length of a variable-length quantity *)

Lemma varint_loop_count (fuel : nat) :
  forall v gs,
    varint_loop fuel v [] = Ok gs ->
    (v = 0 -> gs = []) /\
    forall k : nat, 128 ^ Z.of_nat k <= v < 128 ^ Z.of_nat (S k) ->
                    List.length gs = S k.
Proof.
  induction fuel as [|fuel IH]; intros v gs H; cbn [varint_loop] in H; [discriminate|].
  destruct (Z.eqb_spec v 0) as [->|Hnz].
  - injection H as <-. split; [reflexivity|].
    intros k (Hk & _). pose proof (Z.pow_pos_nonneg 128 (Z.of_nat k)). lia.
  - split; [contradiction|].
    rewrite varint_loop_prefix in H.
    destruct (varint_loop fuel (Z.shiftr v 7) []) as [gs'| |] eqn:E; try discriminate.
    injection H as <-. destruct (IH _ _ E) as (Hz & Hk).
    intros k (Hlo & Hhi). cbn [app List.length]. f_equal.
    rewrite shiftr_7 in *.
    destruct k as [|k].
    + rewrite Hz; [reflexivity|].
      change (128 ^ Z.of_nat 1) with 128 in Hhi.
      apply Z.div_small. change (128 ^ Z.of_nat 0) with 1 in Hlo. lia.
    + apply Hk.
      rewrite !Nat2Z.inj_succ in *. rewrite !Z.pow_succ_r in * by lia.
      split.
      * apply Z.div_le_lower_bound; lia.
      * apply Z.div_lt_upper_bound; lia.
Qed.

(** X5. The encoding is as short as the value allows: one byte below
    128, and [k + 1] bytes for a value of [128^k .. 128^(k+1) - 1]; so a
    delta below [2^28] takes at most the four bytes a standard MIDI file
    allows. *)
Theorem encode_varint_length (fuel : nat) (n : Z) (bs : list byte)
        (H : _encode_varint fuel n = Ok bs) :
  (n < 128 -> bs = [low_byte n]) /\
  (forall k : nat, 128 ^ Z.of_nat k <= n < 128 ^ Z.of_nat (S k) ->
                   List.length bs = S k) /\
  (n < 2 ^ 28 -> (List.length bs <= 4)%nat).
Proof.
  destruct (encode_varint_spec _ _ _ H) as (Hn & _).
  unfold _encode_varint in H. rewrite varint_loop_prefix in H.
  destruct (varint_loop fuel (Z.shiftr n 7) []) as [gs| |] eqn:E; try discriminate.
  cbn [bind] in H.
  assert (Hs : 0 <= Z.shiftr n 7) by (apply Z.shiftr_nonneg; lia).
  destruct (varint_loop_read _ _ _ Hs E) as (Hr & _).
  destruct (varint_loop_count _ _ _ E) as (Hz & Hk).
  rewrite rev_app_distr in H. cbn [rev app] in H.
  rewrite py_bytes_ok in H.
  2:{ apply Forall_app. split.
      - apply Forall_rev. eapply Forall_impl; [|exact Hr]. simpl. lia.
      - constructor; [|constructor]. rewrite land_127.
        pose proof (Z.mod_pos_bound n 128 ltac:(lia)). lia. }
  injection H as <-. rewrite shiftr_7 in *.
  assert (Hlen : forall k : nat, 128 ^ Z.of_nat k <= n < 128 ^ Z.of_nat (S k) ->
                                 List.length (List.map low_byte (rev gs ++ [Z.land n 127])) = S k).
  { intros k (Hlo & Hhi). rewrite length_map, length_app, length_rev. cbn [List.length].
    destruct k as [|k].
    - rewrite Hz; [reflexivity|]. apply Z.div_small.
      change (128 ^ Z.of_nat 1) with 128 in Hhi. lia.
    - rewrite (Hk k); [lia|].
      rewrite !Nat2Z.inj_succ in *. rewrite !Z.pow_succ_r in * by lia.
      split.
      + apply Z.div_le_lower_bound; lia.
      + apply Z.div_lt_upper_bound; lia. }
  assert (Hone : n < 128 -> List.map low_byte (rev gs ++ [Z.land n 127]) = [low_byte n]).
  { intros Hsmall. rewrite Hz by (apply Z.div_small; lia).
    cbn [rev app List.map]. rewrite land_127, Z.mod_small by lia. reflexivity. }
  split; [exact Hone|]. split; [exact Hlen|].
  intros Hsmall. change (2 ^ 28) with (128 ^ Z.of_nat 4) in Hsmall.
  destruct (Z.lt_ge_cases n 128) as [H1|H1].
  { rewrite (Hone H1). cbn [List.length]. lia. }
  change 128 with (128 ^ Z.of_nat 1) in H1.
  destruct (Z.lt_ge_cases n (128 ^ Z.of_nat 2)) as [H2|H2];
    [rewrite (Hlen 1%nat); lia|].
  destruct (Z.lt_ge_cases n (128 ^ Z.of_nat 3)) as [H3|H3];
    [rewrite (Hlen 2%nat); lia|].
  rewrite (Hlen 3%nat); lia.
Qed.

Lemma encode_varint_length_witness :
  exists bs, _encode_varint 2 480 = Ok bs /\ List.length bs = 2%nat.
Proof.
  assert (E : exists bs, _encode_varint 2 480 = Ok bs) by (eexists; reflexivity).
  destruct E as (bs & E). exists bs. split; [exact E|].
  apply (proj1 (proj2 (encode_varint_length 2 480 bs E)) 1%nat).
  vm_compute. split; [discriminate | reflexivity].
Defined.

(** ** What [pitch_to_midi] accepts *)

Lemma note_map_letter (c : ascii) (s : Z) : _NOTE_MAP c = Some s -> In c letters.
Proof.
  destruct c as [[] [] [] [] [] [] [] []]; cbn; intros H; try discriminate H;
    unfold letters; simpl; auto 10.
Qed.

Lemma is_digit_In (d : ascii) : is_digit d = true -> In d decimal_digits.
Proof.
  destruct d as [[] [] [] [] [] [] [] []]; vm_compute; intros H; try discriminate H;
    auto 12.
Qed.

Lemma is_accidental_cases (a : ascii) :
  is_accidental a = true -> a = "#"%char \/ a = "b"%char.
Proof.
  unfold is_accidental. intros H. apply orb_true_iff in H.
  destruct H as [H|H]; apply Ascii.eqb_eq in H; auto.
Qed.

Lemma all_digits_Forall (ds : list ascii) :
  all_digits ds = true -> ds <> [] /\ Forall (fun d => In d decimal_digits) ds.
Proof.
  destruct ds as [|d ds]; [discriminate|]. unfold all_digits. intros H.
  split; [discriminate|]. apply Forall_forall. intros c Hc.
  rewrite forallb_forall in H. apply is_digit_In, H, Hc.
Qed.

Lemma match_octave_sound (s o : list ascii) :
  match_octave s = Some o ->
  o = s /\
  exists neg ds, s = sign_chars neg ++ ds /\ ds <> [] /\
                 Forall (fun d => In d decimal_digits) ds.
Proof.
  destruct s as [|c ds].
  - cbn. discriminate.
  - destruct c as [[] [] [] [] [] [] [] []]; cbn [match_octave]; intros H;
      match type of H with
      | (if ?b then _ else _) = _ => destruct b eqn:E; [|discriminate H]
      end;
      injection H as <-; (split; [reflexivity|]);
      first [ exists true, ds; split; [reflexivity | exact (all_digits_Forall _ E)]
            | eexists false, _; split; [reflexivity | exact (all_digits_Forall _ E)] ].
Qed.

(** Whatever the matcher accepts is a token of the grammar. *)
Lemma fullmatch_pitch_sound (l : list ascii) (c : ascii) (acc o : list ascii) :
  fullmatch_pitch l = Some (c, acc, o) ->
  exists t, token_ok t /\ l = token_chars t.
Proof.
  destruct l as [|c0 rest]; [discriminate|]. cbn [fullmatch_pitch].
  destruct (_NOTE_MAP c0) as [s|] eqn:Es; [|discriminate].
  pose proof (note_map_letter _ _ Es) as Hl.
  destruct rest as [|a rest']; [discriminate|].
  destruct (is_accidental a) eqn:Ea.
  - destruct (match_octave rest') as [o'|] eqn:Eo; [|discriminate]. intros _.
    destruct (match_octave_sound _ _ Eo) as (_ & neg & ds & -> & Hne & Hds).
    exists (Token c0 (Some a) neg ds). split; [|reflexivity].
    unfold token_ok. cbn [tk_letter tk_accidental tk_digits].
    split; [exact Hl|]. split; [|split; assumption].
    destruct (is_accidental_cases _ Ea) as [-> | ->]; simpl; auto.
  - destruct (match_octave (a :: rest')) as [o'|] eqn:Eo; [|discriminate]. intros _.
    destruct (match_octave_sound _ _ Eo) as (_ & neg & ds & E & Hne & Hds).
    exists (Token c0 None neg ds). split.
    + unfold token_ok. cbn [tk_letter tk_accidental tk_digits].
      split; [exact Hl|]. split; [simpl; auto|]. split; assumption.
    + unfold token_chars. cbn [tk_letter tk_accidental tk_negative tk_digits app].
      rewrite E. reflexivity.
Qed.

(** Only the stripped string counts. *)
Lemma pitch_to_midi_stripped (s : string) (t : token) :
  token_ok t -> py_strip s = token_text t ->
  pitch_to_midi s = pitch_to_midi (token_text t).
Proof.
  intros Hok Ht.
  assert (Hl : strip (list_ascii_of_string s) = token_chars t).
  { unfold py_strip, token_text in Ht.
    apply (f_equal list_ascii_of_string) in Ht.
    rewrite !list_ascii_of_string_of_list_ascii in Ht. exact Ht. }
  unfold pitch_to_midi, token_text.
  rewrite list_ascii_of_string_of_list_ascii, (token_chars_strip t Hok), Hl.
  reflexivity.
Qed.

(** X6. [pitch_to_midi] accepts exactly the strings that, once stripped,
    are tokens of the grammar [[A-G][#b]?-?\d+] with an octave of at most
    4300 digits: on those it returns a number of 48..72, on all others it
    raises [ValueError] and nothing else. *)
Theorem pitch_to_midi_accepts_exactly (s : string) :
  ((exists m, pitch_to_midi s = Ok m) <-> accepted_pitch (py_strip s)) /\
  (accepted_pitch (py_strip s) ->
   exists m, pitch_to_midi s = Ok m /\ PITCH_MIN <= m <= PITCH_MAX) /\
  (~ accepted_pitch (py_strip s) -> pitch_to_midi s = Raise ValueError).
Proof.
  assert (Hfwd : (exists m, pitch_to_midi s = Ok m) -> accepted_pitch (py_strip s)).
  { intros (m & Hm). pose proof Hm as Hm'. unfold pitch_to_midi in Hm'.
    destruct (fullmatch_pitch (strip (list_ascii_of_string s)))
      as [[[c acc] o]|] eqn:E; [|discriminate].
    destruct (fullmatch_pitch_sound _ _ _ _ E) as (t & Hok & Ht).
    assert (Hs : py_strip s = token_text t)
      by (unfold py_strip, token_text; rewrite Ht; reflexivity).
    exists t. split; [exact Hok|]. split; [|exact Hs].
    rewrite (pitch_to_midi_stripped s t Hok Hs) in Hm.
    rewrite (pitch_to_midi_token_cases t Hok) in Hm.
    unfold within_digit_limit.
    destruct (Nat.ltb_spec int_max_str_digits (List.length (tk_digits t)));
      [discriminate Hm | lia]. }
  assert (Hbwd : accepted_pitch (py_strip s) ->
                 exists m, pitch_to_midi s = Ok m /\ PITCH_MIN <= m <= PITCH_MAX).
  { intros (t & Hok & Hd & Ht).
    rewrite (pitch_to_midi_stripped s t Hok Ht), (pitch_to_midi_token t Hok Hd).
    eexists. split; [reflexivity | apply fold_range]. }
  split; [|split].
  - split; [exact Hfwd|]. intros H. destruct (Hbwd H) as (m & Hm & _). eauto.
  - exact Hbwd.
  - intros Hno. destruct (pitch_to_midi_cases s) as [(m & Hm & _)|H]; [|exact H].
    exfalso. apply Hno, Hfwd. eauto.
Qed.

Lemma pitch_to_midi_accepts_exactly_witness :
  exists m, pitch_to_midi " Bb3 " = Ok m /\ PITCH_MIN <= m <= PITCH_MAX.
Proof.
  apply (proj1 (proj2 (pitch_to_midi_accepts_exactly " Bb3 "))).
  exists (Token "B" (Some "b"%char) false ["3"%char]).
  split; [|split; [apply one_digit_within_limit; simpl; lia | reflexivity]].
  unfold token_ok, letters, decimal_digits. simpl.
  repeat split; auto 12; try discriminate.
  all: try (constructor; [simpl; auto 12 | constructor]).
Defined.

(** The letter C and 4301 zeros: a token of the grammar that is refused. *)
Example long_token_refused : pitch_to_midi (token_text long_token) = Raise ValueError.
Proof. exact (pitch_to_midi_long long_token long_token_ok long_token_over_limit). Qed.

(** ** Surrounding whitespace *)

Lemma lstrip_blank_app (pre l : list ascii) :
  blank pre -> lstrip (pre ++ l) = lstrip l.
Proof.
  unfold blank. induction pre as [|c pre IH]; intros H; [reflexivity|].
  cbn [forallb] in H. apply andb_true_iff in H. destruct H as (Hc & H).
  cbn [app lstrip]. rewrite Hc. apply IH. exact H.
Qed.

Lemma lstrip_nil_blank (l : list ascii) : lstrip l = [] <-> blank l.
Proof.
  unfold blank. induction l as [|c l IH]; [split; reflexivity|].
  cbn [lstrip forallb]. destruct (is_space c); cbn [andb].
  - exact IH.
  - split; discriminate.
Qed.

Lemma lstrip_app_keep (l post : list ascii) :
  lstrip l <> [] -> lstrip (l ++ post) = lstrip l ++ post.
Proof.
  induction l as [|c l IH]; intros H; [contradiction|].
  cbn [app lstrip] in *. destruct (is_space c); [apply IH; exact H | reflexivity].
Qed.

Lemma blank_app (a b : list ascii) : blank a -> blank b -> blank (a ++ b).
Proof.
  unfold blank. intros Ha Hb. rewrite forallb_app, Ha, Hb. reflexivity.
Qed.

Lemma blank_rev (a : list ascii) : blank a -> blank (rev a).
Proof.
  unfold blank. intros Ha. apply forallb_forall. intros c Hc.
  rewrite forallb_forall in Ha. apply Ha, in_rev, Hc.
Qed.

Lemma strip_blank_around (pre l post : list ascii) :
  blank pre -> blank post -> strip (pre ++ l ++ post) = strip l.
Proof.
  intros Hpre Hpost. unfold strip. rewrite lstrip_blank_app by exact Hpre.
  destruct (lstrip l) as [|c l'] eqn:E.
  - assert (Hall : lstrip (l ++ post) = []).
    { apply lstrip_nil_blank, blank_app; [apply lstrip_nil_blank; exact E | exact Hpost]. }
    rewrite Hall. reflexivity.
  - rewrite lstrip_app_keep by (rewrite E; discriminate). rewrite E.
    rewrite rev_app_distr, lstrip_blank_app by (apply blank_rev; exact Hpost).
    reflexivity.
Qed.

(** X7. Whitespace around a pitch name does not matter: [pitch_to_midi]
    gives the same result, number or [ValueError], with any run of
    whitespace before and after the string. *)
Theorem pitch_to_midi_ignores_blanks (pre post : list ascii) (s : string)
        (Hpre : blank pre) (Hpost : blank post) :
  pitch_to_midi (string_of_list_ascii (pre ++ list_ascii_of_string s ++ post))
  = pitch_to_midi s.
Proof.
  unfold pitch_to_midi.
  rewrite list_ascii_of_string_of_list_ascii, strip_blank_around by assumption.
  reflexivity.
Qed.

Lemma pitch_to_midi_ignores_blanks_witness :
  pitch_to_midi (string_of_list_ascii
                   ([" "; "009"]%char ++ list_ascii_of_string "F#4" ++ ["010"]%char))
  = pitch_to_midi "F#4".
Proof.
  apply pitch_to_midi_ignores_blanks; reflexivity.
Defined.

(** ** Where a pitch lands *)

(** X8. A token, with an octave of at most 4300 digits, whose standard
    MIDI number [(octave + 1) * 12 + semitone + accidental] lies in 48..72
    resolves to that number; a lower one is raised into 48..59 and a higher
    one is lowered into 61..72, by whole octaves. *)
Theorem pitch_to_midi_folds (t : token) (Ht : token_ok t) (Hlim : within_digit_limit t) :
  exists m,
    pitch_to_midi (token_text t) = Ok m /\
    (PITCH_MIN <= token_base t <= PITCH_MAX -> m = token_base t) /\
    (token_base t < PITCH_MIN ->
     48 <= m <= 59 /\ exists k, 0 < k /\ m = token_base t + 12 * k) /\
    (PITCH_MAX < token_base t ->
     61 <= m <= 72 /\ exists k, 0 < k /\ m = token_base t - 12 * k).
Proof.
  exists (fold_down (fold_up (token_base t))).
  split; [apply pitch_to_midi_token; assumption|].
  rewrite fold_closed. unfold PITCH_MIN, PITCH_MAX.
  set (b := token_base t).
  split; [|split].
  - intros Hb. destruct (Z.ltb_spec b 48); [lia|].
    destruct (Z.gtb_spec b 72); [lia | reflexivity].
  - intros Hb. destruct (Z.ltb_spec b 48); [|lia].
    pose proof (Z.mod_pos_bound (b - 48) 12 ltac:(lia)) as Hm.
    pose proof (Z.div_mod (b - 48) 12 ltac:(lia)) as Hd.
    split; [lia|]. exists (- ((b - 48) / 12)). split; [|lia].
    assert ((b - 48) / 12 < 0) by (apply Z.div_lt_upper_bound; lia). lia.
  - intros Hb. destruct (Z.ltb_spec b 48); [lia|].
    destruct (Z.gtb_spec b 72); [|lia].
    pose proof (Z.mod_pos_bound (72 - b) 12 ltac:(lia)) as Hm.
    pose proof (Z.div_mod (72 - b) 12 ltac:(lia)) as Hd.
    split; [lia|]. exists (- ((72 - b) / 12)). split; [|lia].
    assert ((72 - b) / 12 < 0) by (apply Z.div_lt_upper_bound; lia). lia.
Qed.

Lemma pitch_to_midi_folds_witness :
  exists m, pitch_to_midi "F#-1" = Ok m /\ 48 <= m <= 59.
Proof.
  destruct (pitch_to_midi_folds token_Fsharp_neg1 token_Fsharp_neg1_ok)
    as (m & Hm & _ & Hlow & _).
  - apply one_digit_within_limit. simpl. lia.
  - exists m. split; [exact Hm|]. apply Hlow. vm_compute. reflexivity.
Defined.

(** ** The domain of [_meta_tempo] *)

(** X9. [_meta_tempo] alone is exact only from 4 beats per minute up:
    for every positive tempo it returns [FF 51 03] and the low three bytes
    of [floor(60000000 / bpm)], which is the whole value exactly when
    [bpm >= 4]; at 1, 2 and 3 the top byte is cut off.  It raises
    [ZeroDivisionError] at 0 and [struct.error] from -60000000 to -1.  The
    clamp of [build_midi] keeps all of these away. *)
Theorem meta_tempo_domain :
  (forall bpm, 1 <= bpm ->
     exists b1 b2 b3,
       _meta_tempo bpm = Ok [xff; x51; x03; b1; b2; b3] /\
       be_value [b1; b2; b3] = (60000000 / bpm) mod 2 ^ 24 /\
       (be_value [b1; b2; b3] = 60000000 / bpm <-> 4 <= bpm)) /\
  _meta_tempo 0 = Raise ZeroDivisionError /\
  (forall bpm, -60000000 <= bpm < 0 -> _meta_tempo bpm = Raise StructError) /\
  (forall sc, 4 <= clamped_bpm sc).
Proof.
  split; [|split; [reflexivity|split]].
  - intros bpm Hb.
    set (us := 60000000 / bpm).
    assert (Hus : 0 <= us <= 60000000).
    { unfold us. split; [apply Z.div_pos; lia|].
      apply Z.div_le_upper_bound; lia. }
    exists (low_byte (us / 2 ^ 16)), (low_byte (us / 2 ^ 8)), (low_byte us).
    assert (Hval : be_value [low_byte (us / 2 ^ 16); low_byte (us / 2 ^ 8); low_byte us]
                   = us mod 2 ^ 24).
    { unfold be_value. cbn [fold_left]. rewrite !low_byte_mod.
      change (2 ^ 16) with 65536. change (2 ^ 8) with 256.
      change (2 ^ 24) with 16777216.
      Z.div_mod_to_equations. lia. }
    split; [|split; [exact Hval|]].
    + unfold _meta_tempo. destruct (Z.eqb_spec bpm 0); [lia|].
      rewrite py_int_quotient by lia. fold us. unfold pack_be32.
      destruct (Z.leb_spec 0 us); [|lia].
      destruct (Z.ltb_spec us (2 ^ 32)); [reflexivity|].
      change (2 ^ 32) with 4294967296 in *. lia.
    + rewrite Hval. change (2 ^ 24) with 16777216. split.
      * intros Hsame.
        assert (Hlt : us < 16777216).
        { rewrite <- Hsame. apply Z.mod_pos_bound. lia. }
        destruct (Z.lt_ge_cases bpm 4) as [Hsmall|]; [|assumption].
        exfalso. unfold us in Hlt.
        assert (16777216 <= 60000000 / bpm) by (apply Z.div_le_lower_bound; lia). lia.
      * intros Hbig. apply Z.mod_small. split; [lia|].
        unfold us. apply Z.div_lt_upper_bound; lia.
  - intros bpm Hb. unfold _meta_tempo.
    destruct (Z.eqb_spec bpm 0); [lia|].
    destruct bpm as [|p|p]; try lia.
    unfold py_int, Qdiv, Qinv, Qmult, inject_Z. cbn [Qnum Qden].
    rewrite Pos.mul_1_l.
    change (60000000 * Z.neg 1) with (Z.opp 60000000).
    rewrite Z.quot_opp_l by lia.
    rewrite Z.quot_div_nonneg by lia.
    assert (1 <= 60000000 / Z.pos p) by (apply Z.div_le_lower_bound; lia).
    unfold pack_be32.
    destruct (Z.leb_spec 0 (- (60000000 / Z.pos p))); [lia | reflexivity].
  - intros sc. pose proof (clamped_bpm_range sc). lia.
Qed.

Example meta_tempo_3 :
  _meta_tempo 3 = Ok [xff; x51; x03; x31; x2d; x00] /\
  be_value [x31; x2d; x00] = 3222784 /\ 60000000 / 3 = 20000000.
Proof. repeat split; reflexivity. Qed.

(** ** The value of the duration probe *)

Lemma le_value_nonneg (bs : list byte) : 0 <= le_value bs.
Proof.
  induction bs as [|b bs IH]; cbn [le_value]; [lia|].
  pose proof (byte_to_Z_range b). lia.
Qed.

Lemma unpack_from_le_nonneg (w : nat) (buf : list byte) (off : nat) (v : Z) :
  unpack_from_le w buf off = Ok v -> 0 <= v.
Proof.
  unfold unpack_from_le. destruct (Nat.eqb _ _); [|discriminate].
  intros [= <-]. apply le_value_nonneg.
Qed.

Lemma round_half_even_nonneg (x : Q) : (0 <= x)%Q -> 0 <= round_half_even x.
Proof.
  intros Hx. unfold round_half_even.
  assert (0 <= Qfloor x).
  { rewrite <- (Qfloor_Z 0). apply Qfloor_resp_le. exact Hx. }
  destruct (Qcompare _ _); [destruct (Z.even _)| |]; lia.
Qed.

(** The quotient of a count by a positive number is a zero or a positive
    double. *)
Lemma true_div_nonneg (n d : Z) (q : float) :
  0 <= n -> 0 < d -> true_div n d = Ok q ->
  q = fzero \/ exists m e, q = S754_finite false m e.
Proof.
  intros Hn Hd H. destruct d as [|d|d]; try lia. cbn [true_div] in H.
  apply checked_ok in H. destruct H as (-> & Hinf).
  destruct n as [|a|a]; try lia; [left; reflexivity|].
  destruct (float_of_ratio_cases a d) as [E|[E|(m & e & E)]].
  - left. exact E.
  - exfalso. exact (Hinf false E).
  - right. eauto.
Qed.

(** [round(x, 1)] of such a double is the double nearest to a whole
    number of tenths. *)
Lemma py_round1_tenths (q r : float) :
  (q = fzero \/ exists m e, q = S754_finite false m e) ->
  py_round1 q = Ok r ->
  exists k, 0 <= k /\ r = float_of_ratio k 10.
Proof.
  intros [-> |(m & e & ->)] H.
  - injection H as <-. exists 0. split; [lia | reflexivity].
  - cbn [py_round1] in H.
    set (x := S754_finite false m e) in *.
    assert (Hk : 0 <= round_half_even (exact x * 10)).
    { apply round_half_even_nonneg.
      apply Qmult_le_0_compat; [apply exact_nonneg; reflexivity | discriminate]. }
    destruct (Z.eqb_spec (round_half_even (exact x * 10)) 0) as [E|E].
    + injection H as <-. exists 0. split; [lia | reflexivity].
    + apply checked_ok in H. destruct H as (-> & _). eauto.
Qed.

Lemma wav_duration_tenths (buf : list byte) :
  exists k, 0 <= k /\ _wav_duration buf = float_of_ratio k 10.
Proof.
  assert (Hzero : exists k, 0 <= k /\ fzero = float_of_ratio k 10)
    by (exists 0; split; [lia | reflexivity]).
  unfold _wav_duration, wav_duration_try.
  destruct (Nat.ltb _ _); [exact Hzero|].
  destruct (unpack_from_le 2 buf 22) as [ch| |] eqn:Ech; try exact Hzero.
  destruct (unpack_from_le 4 buf 24) as [sr| |] eqn:Esr; try exact Hzero.
  destruct (unpack_from_le 2 buf 34) as [bits| |] eqn:Ebits; try exact Hzero.
  cbn [bind].
  pose proof (unpack_from_le_nonneg _ _ _ _ Ech) as Hch.
  pose proof (unpack_from_le_nonneg _ _ _ _ Esr) as Hsr.
  pose proof (unpack_from_le_nonneg _ _ _ _ Ebits) as Hbits.
  destruct (Z.eqb_spec (bits / 8) 0) as [|Hbps]; [exact Hzero|].
  destruct (Z.eqb_spec sr 0); [exact Hzero|].
  assert (Hbps' : 0 < bits / 8).
  { assert (0 <= bits / 8) by (apply Z.div_pos; lia). lia. }
  destruct (true_div _ (sr * ch)) as [q| |] eqn:Eq; cbn [bind]; try exact Hzero.
  destruct (Z.eq_dec (sr * ch) 0) as [E0|E0].
  { rewrite E0 in Eq. discriminate Eq. }
  destruct (py_round1 q) as [r| |] eqn:Er; try exact Hzero.
  apply (py_round1_tenths q r); [|exact Er].
  refine (true_div_nonneg _ (sr * ch) q _ _ Eq); [apply Z.div_pos; lia | nia].
Qed.

(** X10. For every buffer [_wav_duration] returns a double that is not
    negative and is the nearest to a whole number of tenths of a second;
    the minutes and seconds the caller shows split its value exactly, with
    the minutes non-negative and the seconds in [0, 60). *)
Theorem wav_duration_display (buf : list byte) :
  let dur := _wav_duration buf in
  (0 <= exact dur)%Q /\
  (exists k, 0 <= k /\ dur = float_of_ratio k 10) /\
  0 <= recording_mins dur /\
  (0 <= recording_secs dur)%Q /\ (recording_secs dur < 60)%Q /\
  (exact dur == inject_Z (recording_mins dur) * 60 + recording_secs dur)%Q.
Proof.
  intros dur.
  destruct (wav_duration_tenths buf) as (k & Hk & Hdur). fold dur in Hdur.
  assert (H0 : (0 <= exact dur)%Q).
  { rewrite Hdur. apply exact_nonneg, float_of_ratio_not_negative. exact Hk. }
  assert (Hq : (0 <= exact dur / 60)%Q).
  { apply Qle_shift_div_l; [reflexivity|]. rewrite Qmult_0_l. exact H0. }
  pose proof (Qfloor_le (exact dur / 60)) as Hlo.
  pose proof (Qlt_floor (exact dur / 60)) as Hhi.
  fold (recording_mins dur) in Hlo, Hhi.
  assert (Hm : 0 <= recording_mins dur).
  { unfold recording_mins. rewrite <- (Qfloor_Z 0). apply Qfloor_resp_le. exact Hq. }
  rewrite inject_Z_plus in Hhi.
  assert (Hdiv : (exact dur / 60 * 60 == exact dur)%Q) by (field).
  unfold recording_secs.
  split; [exact H0|]. split; [eauto|]. split; [exact Hm|].
  change (inject_Z 1) with 1%Q in Hhi.
  set (mq := inject_Z (recording_mins dur)) in *.
  set (q := (exact dur / 60)%Q) in *.
  set (d := exact dur) in *.
  clearbody mq q d. clear Hdur Hm.
  repeat split; lra.
Qed.

(** ** The probe on the synthesizer's output *)

Lemma unpack_field (w : nat) (buf : list byte) (off : nat) :
  (off + w <= List.length buf)%nat ->
  unpack_from_le w buf off = Ok (field_at buf off w).
Proof.
  intros H. unfold unpack_from_le, field_at.
  rewrite length_firstn, length_skipn.
  replace (Nat.min w (List.length buf - off)) with w by lia.
  rewrite Nat.eqb_refl. reflexivity.
Qed.

(** X11. Fed with the file [synthesize_wav] returns, [_wav_duration]
    gives the length of the sample buffer in seconds,
    [round(total_samples / sample_rate, 1)]: the quotient as a double,
    rounded to one decimal. *)
Theorem probe_of_synthesized
        (sample : Type) (silence : sample) (mix : sample -> sample -> sample)
        (voice : Z -> Z -> Z -> Z -> Z -> sample) (scaled : list sample -> sample -> Z)
        (sc : score) (sample_rate total : Z) (wav : list byte)
        (Hsr : 0 < sample_rate) (Hbr : 2 * sample_rate < 2 ^ 32)
        (Ht : total_samples sample_rate sc = Ok total)
        (Hfit : 36 + 2 * total < 2 ^ 32)
        (H : synthesize_wav sample silence mix voice scaled sc sample_rate = Ok wav) :
  _wav_duration wav = rounded_quotient total sample_rate.
Proof.
  assert (Hsr0 : 0 <= sample_rate) by lia.
  destruct (total_samples_nonneg _ _ _ Hsr0 Ht) as (Hn & _).
  pose proof H as H'. unfold synthesize_wav in H'.
  destruct (render_buffer sample silence mix voice sample_rate sc) as [buf| |] eqn:Eb;
    try discriminate H'.
  clear H'.
  destruct (render_buffer_length _ _ _ _ _ _ _ Eb) as (total' & Ht' & Hl).
  rewrite Ht in Ht'. injection Ht' as <-.
  assert (Hlen' : Z.of_nat (List.length buf) = total) by lia.
  destruct (synthesize_wav_canonical sample silence mix voice scaled sc sample_rate buf Eb)
    as (wav' & Hw & Hcan); try lia.
  rewrite H in Hw. injection Hw as <-. rewrite Hlen' in Hcan.
  destruct Hcan as (_ & _ & _ & _ & _ & Hch & Hrate & _ & _ & Hbits & _ & _ & Hlen).
  unfold _wav_duration, wav_duration_try, rounded_quotient.
  destruct (Nat.ltb_spec (List.length wav) 44); [lia|].
  rewrite !unpack_field by lia. rewrite Hch, Hrate, Hbits. cbn [bind].
  change (16 / 8) with 2. change (2 =? 0) with false. cbv iota.
  destruct (Z.eqb_spec sample_rate 0); [lia|].
  rewrite Z.mul_1_r. rewrite length_skipn.
  replace (Z.of_nat (List.length wav - 44)) with (total * 2) by lia.
  rewrite Z.div_mul by lia. reflexivity.
Qed.

Lemma probe_of_synthesized_witness :
  exists wav,
    synthesize_wav unit tt (fun _ _ => tt) (fun _ _ _ _ _ => tt) (fun _ _ => 0)
                   quarter_beat 10 = Ok wav /\
    _wav_duration wav = float_of_ratio 4 10.
Proof.
  assert (E : exists wav,
             synthesize_wav unit tt (fun _ _ => tt) (fun _ _ _ _ _ => tt) (fun _ _ => 0)
                            quarter_beat 10 = Ok wav)
    by (eexists; vm_compute; reflexivity).
  destruct E as (wav & E). exists wav. split; [exact E|].
  rewrite (probe_of_synthesized unit tt (fun _ _ => tt) (fun _ _ _ _ _ => tt)
             (fun _ _ => 0) quarter_beat 10 4 wav); try exact E;
    vm_compute; congruence.
Defined.

(** ** What a note writes into the buffer *)

Section WindowFacts.
Variable sample : Type.
Variable silence : sample.
Variable mix : sample -> sample -> sample.
Variable voice : Z -> Z -> Z -> Z -> Z -> sample.

Lemma add_at_nth (buf : list sample) :
  forall q v p,
    nth_error (add_at sample mix buf q v) p =
    if Nat.eqb p q then option_map (fun x => mix x v) (nth_error buf p)
    else nth_error buf p.
Proof.
  induction buf as [|s buf IH]; intros q v p; cbn [add_at].
  - destruct p; destruct (Nat.eqb _ q); reflexivity.
  - destruct q as [|q]; destruct p as [|p]; cbn [nth_error Nat.eqb option_map];
      try reflexivity.
    apply IH.
Qed.

(** The buffer after the first [k] iterations of [for i in range(ns)]. *)
Lemma mix_prefix_nth (sr total midi vel s0 ns : Z) (buf : list sample) (k : nat) :
  forall p,
    nth_error (fold_left (mix_sample sample mix voice sr total midi vel s0 ns)
                         (List.map Z.of_nat (seq 0 k)) buf) p =
    if (s0 <=? Z.of_nat p) && (Z.of_nat p <? s0 + Z.of_nat k) && (Z.of_nat p <? total)
    then option_map (fun x => mix x (voice sr midi vel ns (Z.of_nat p - s0)))
                    (nth_error buf p)
    else nth_error buf p.
Proof.
  induction k as [|k IH]; intros p.
  - cbn [seq List.map fold_left].
    destruct (Z.leb_spec s0 (Z.of_nat p)); destruct (Z.ltb_spec (Z.of_nat p) (s0 + Z.of_nat 0));
      cbn [andb]; try reflexivity; lia.
  - rewrite seq_S, map_app, fold_left_app. cbn [List.map fold_left Nat.add].
    unfold mix_sample at 1.
    destruct (Z.leb_spec 0 (s0 + Z.of_nat k)) as [Hlo|Hlo];
      destruct (Z.ltb_spec (s0 + Z.of_nat k) total) as [Hhi|Hhi]; cbn [andb].
    + rewrite add_at_nth. rewrite IH.
      destruct (Nat.eqb_spec p (Z.to_nat (s0 + Z.of_nat k))) as [Hp|Hp].
      * assert (Hp' : Z.of_nat p = s0 + Z.of_nat k) by lia.
        destruct (Z.leb_spec s0 (Z.of_nat p)); [|lia].
        destruct (Z.ltb_spec (Z.of_nat p) (s0 + Z.of_nat k)); [lia|].
        destruct (Z.ltb_spec (Z.of_nat p) (s0 + Z.of_nat (S k))); [|lia].
        destruct (Z.ltb_spec (Z.of_nat p) total); [|lia].
        cbn [andb]. replace (Z.of_nat p - s0) with (Z.of_nat k) by lia. reflexivity.
      * assert (Hp' : Z.of_nat p <> s0 + Z.of_nat k) by lia.
        destruct (Z.leb_spec s0 (Z.of_nat p));
          destruct (Z.ltb_spec (Z.of_nat p) (s0 + Z.of_nat k));
          destruct (Z.ltb_spec (Z.of_nat p) (s0 + Z.of_nat (S k)));
          destruct (Z.ltb_spec (Z.of_nat p) total);
          cbn [andb]; try reflexivity; lia.
    + rewrite IH.
      destruct (Z.leb_spec s0 (Z.of_nat p));
        destruct (Z.ltb_spec (Z.of_nat p) (s0 + Z.of_nat k));
        destruct (Z.ltb_spec (Z.of_nat p) (s0 + Z.of_nat (S k)));
        destruct (Z.ltb_spec (Z.of_nat p) total);
        cbn [andb]; try reflexivity; lia.
    + rewrite IH.
      destruct (Z.leb_spec s0 (Z.of_nat p));
        destruct (Z.ltb_spec (Z.of_nat p) (s0 + Z.of_nat k));
        destruct (Z.ltb_spec (Z.of_nat p) (s0 + Z.of_nat (S k)));
        destruct (Z.ltb_spec (Z.of_nat p) total);
        cbn [andb]; try reflexivity; lia.
    + rewrite IH.
      destruct (Z.leb_spec s0 (Z.of_nat p));
        destruct (Z.ltb_spec (Z.of_nat p) (s0 + Z.of_nat k));
        destruct (Z.ltb_spec (Z.of_nat p) (s0 + Z.of_nat (S k)));
        destruct (Z.ltb_spec (Z.of_nat p) total);
        cbn [andb]; try reflexivity; lia.
Qed.

Lemma render_note_nth (sr total : Z) (spb : float) (n : note) (m s0 ns : Z)
      (buf : list sample) (Hm : pitch_to_midi (pitch n) = Ok m)
      (Hw : note_window sr total spb n = Ok (s0, ns)) :
  s0 + ns <= total /\
  exists buf',
    render_note sample mix voice sr total spb n buf = Ok buf' /\
    List.length buf' = List.length buf /\
    forall p : nat,
      nth_error buf' p =
      if in_window (s0, ns) p
      then option_map (fun x => mix x (voice sr m (clamped_velocity n) ns (Z.of_nat p - s0)))
                      (nth_error buf p)
      else nth_error buf p.
Proof.
  assert (Hfit : s0 + ns <= total).
  { unfold note_window in Hw.
    destruct (py_float (start_beat n)) as [x| |]; try discriminate Hw. cbn [bind] in Hw.
    destruct (py_float (duration_beats n)) as [y| |]; try discriminate Hw.
    cbn [bind] in Hw.
    destruct (float_of_int sr) as [rate| |]; try discriminate Hw. cbn [bind] in Hw.
    destruct (int_of_float (fmul (fmul x spb) rate)) as [a| |]; try discriminate Hw.
    cbn [bind] in Hw.
    destruct (int_of_float (fmul (fmul y spb) rate)) as [b| |]; try discriminate Hw.
    cbn [bind] in Hw. injection Hw as <- <-.
    destruct (Z.gtb_spec (a + b) total); lia. }
  split; [exact Hfit|].
  unfold render_note. rewrite Hm, Hw. cbn [bind].
  eexists. split; [reflexivity|]. split; [apply fold_mix_length|].
  intros p. unfold py_range. rewrite mix_prefix_nth.
  unfold in_window. cbn [fst snd].
  destruct (Z.leb_spec s0 (Z.of_nat p));
    destruct (Z.ltb_spec (Z.of_nat p) (s0 + ns));
    destruct (Z.ltb_spec (Z.of_nat p) (s0 + Z.of_nat (Z.to_nat ns)));
    destruct (Z.ltb_spec (Z.of_nat p) total);
    cbn [andb]; try reflexivity; lia.
Qed.

(** X12. A note whose pitch resolves, and whose window [s0], [ns] is
    computed, changes the buffer inside its window only: the sample at
    index [p] becomes [buf[p] + voice(p - s0)] when [s0 <= p < s0 + ns],
    once, and every other sample is left as it was; the window never
    reaches past the buffer. *)
Theorem render_note_window (sr total : Z) (spb : float) (n : note) (m s0 ns : Z)
        (buf : list sample) (Hm : pitch_to_midi (pitch n) = Ok m)
        (Hw : note_window sr total spb n = Ok (s0, ns)) :
  s0 + ns <= total /\
  exists buf',
    render_note sample mix voice sr total spb n buf = Ok buf' /\
    List.length buf' = List.length buf /\
    forall p : nat,
      nth_error buf' p =
      if in_window (s0, ns) p
      then option_map (fun x => mix x (voice sr m (clamped_velocity n) ns (Z.of_nat p - s0)))
                      (nth_error buf p)
      else nth_error buf p.
Proof.
  exact (render_note_nth sr total spb n m s0 ns buf Hm Hw).
Qed.

(** X13. When the length of the buffer and the window of every note whose
    pitch resolves are computed, the buffer is rendered, and a sample that
    lies in none of these windows is silence. *)
Theorem render_buffer_silent_outside (sr total : Z) (sc : score) (p : nat)
        (Ht : total_samples sr sc = Ok total)
        (Hout : forall n, In n (melody sc) -> resolves n = true ->
                          exists w, note_window sr total (spb_of (clamped_bpm sc)) n = Ok w /\
                                    in_window w p = false) :
  exists buf,
    render_buffer sample silence mix voice sr sc = Ok buf /\
    nth_error buf p = nth_error (repeat silence (Z.to_nat total)) p.
Proof.
  unfold render_buffer. rewrite Ht. cbn [bind].
  set (spb := spb_of (clamped_bpm sc)) in *.
  generalize (repeat silence (Z.to_nat total)).
  induction (melody sc) as [|n notes IH]; intros buf0; cbn [render_notes].
  - exists buf0. split; reflexivity.
  - destruct (resolves n) eqn:Er.
    + destruct (proj1 (resolves_true n) Er) as (m & Hm).
      destruct (Hout n (or_introl eq_refl) Er) as ([s0 ns] & Hw & Hp0).
      destruct (render_note_nth sr total spb n m s0 ns buf0 Hm Hw)
        as (_ & buf1 & -> & _ & Hnth).
      cbn [bind].
      destruct (IH (fun n' Hn' => Hout n' (or_intror Hn')) buf1) as (buf & Hbuf & Hp).
      exists buf. split; [exact Hbuf|]. rewrite Hp, Hnth, Hp0. reflexivity.
    + rewrite (render_note_unresolved sample mix voice sr total spb n buf0 Er). cbn [bind].
      apply IH. intros n' Hn'. apply Hout. right. exact Hn'.
Qed.
End WindowFacts.

Lemma render_note_window_witness :
  exists buf',
    render_note Z Z.add (fun _ _ _ _ _ => 1) 10 4 (spb_of 120)
                (Note "C4" (Int 0) (dbl 1 4) (Some 80)) [0; 0; 0; 0] = Ok buf' /\
    nth_error buf' 0 = Some 1 /\ nth_error buf' 1 = Some 0.
Proof.
  destruct (render_note_window Z Z.add (fun _ _ _ _ _ => 1) 10 4 (spb_of 120)
              (Note "C4" (Int 0) (dbl 1 4) (Some 80)) 60 0 1 [0; 0; 0; 0]
              eq_refl eq_refl)
    as (_ & buf' & H1 & _ & H2).
  exists buf'. split; [exact H1|]. split; rewrite H2; reflexivity.
Defined.

Lemma render_buffer_silent_outside_witness :
  exists buf,
    render_buffer Z 0 Z.add (fun _ _ _ _ _ => 1) 10 quarter_beat = Ok buf /\
    nth_error buf 2 = Some 0.
Proof.
  destruct (render_buffer_silent_outside Z 0 Z.add (fun _ _ _ _ _ => 1) 10 4
              quarter_beat 2 eq_refl)
    as (buf & H1 & H2).
  - intros n [<-|[]] _. exists (0, 1). split; reflexivity.
  - exists buf. split; [exact H1 | exact H2].
Defined.

(** ** The PCM samples *)

Lemma s16_value_pack (v : Z) :
  - 32768 <= v <= 32767 ->
  s16_value (low_byte v) (low_byte (v / 2 ^ 8)) = v.
Proof.
  intros Hv. unfold s16_value. rewrite !low_byte_mod.
  change (2 ^ 8) with 256.
  destruct (Z.ltb_spec (v mod 256 + 256 * ((v / 256) mod 256)) 32768);
    Z.div_mod_to_equations; lia.
Qed.

Section PcmSamples.
Variable sample : Type.
Variable scaled : list sample -> sample -> Z.

Lemma pack_pcm_nth (whole buf : list sample) :
  forall pcm,
    pack_pcm sample scaled whole buf = Ok pcm ->
    forall (i : nat) (s : sample),
      nth_error buf i = Some s ->
      exists lo hi,
        nth_error pcm (2 * i) = Some lo /\
        nth_error pcm (2 * i + 1) = Some hi /\
        s16_value lo hi = clamp (-32768) 32767 (scaled whole s).
Proof.
  induction buf as [|s0 buf IH]; intros pcm H i s Hi; [destruct i; discriminate|].
  cbn [pack_pcm] in H. unfold pack_le16s in H.
  assert (Hc : - 32768 <= clamp (-32768) 32767 (scaled whole s0) <= 32767)
    by (unfold clamp; lia).
  destruct (Z.leb_spec (- 2 ^ 15) (clamp (-32768) 32767 (scaled whole s0)));
    [|change (2 ^ 15) with 32768 in *; lia].
  destruct (Z.ltb_spec (clamp (-32768) 32767 (scaled whole s0)) (2 ^ 15));
    [|change (2 ^ 15) with 32768 in *; lia].
  cbn [andb bind] in H.
  destruct (pack_pcm sample scaled whole buf) as [rest| |] eqn:E; try discriminate.
  cbn [bind] in H. injection H as <-.
  destruct i as [|i].
  - injection Hi as <-. cbn [app nth_error Nat.mul Nat.add].
    eexists. eexists. split; [reflexivity|]. split; [reflexivity|].
    apply s16_value_pack. exact Hc.
  - cbn [nth_error] in Hi.
    destruct (IH rest eq_refl i s Hi) as (lo & hi & Hlo & Hhi & Hval).
    exists lo, hi.
    replace (2 * S i)%nat with (S (S (2 * i))) by lia.
    replace (S (S (2 * i)) + 1)%nat with (S (S (2 * i + 1))) by lia.
    cbn [app nth_error]. auto.
Qed.
End PcmSamples.

(** X15. The file [synthesize_wav] returns is 44 header bytes followed
    by two bytes per sample of the buffer, in order; read as a signed
    little-endian 16-bit number, sample [i] is the scaled value of
    [buf[i]] clamped to -32768..32767. *)
Theorem synthesize_wav_samples
        (sample : Type) (silence : sample) (mix : sample -> sample -> sample)
        (voice : Z -> Z -> Z -> Z -> Z -> sample) (scaled : list sample -> sample -> Z)
        (sc : score) (sample_rate : Z) (wav : list byte)
        (H : synthesize_wav sample silence mix voice scaled sc sample_rate = Ok wav) :
  exists buf,
    render_buffer sample silence mix voice sample_rate sc = Ok buf /\
    List.length wav = (44 + 2 * List.length buf)%nat /\
    forall (i : nat) (s : sample),
      nth_error buf i = Some s ->
      exists lo hi,
        nth_error wav (44 + 2 * i) = Some lo /\
        nth_error wav (44 + 2 * i + 1) = Some hi /\
        s16_value lo hi = clamp (-32768) 32767 (scaled buf s) /\
        - 32768 <= s16_value lo hi <= 32767.
Proof.
  unfold synthesize_wav in H.
  destruct (render_buffer sample silence mix voice sample_rate sc) as [buf| |] eqn:Eb;
    try discriminate.
  cbn [bind] in H.
  destruct (pack_pcm sample scaled buf buf) as [pcm| |] eqn:Ep; try discriminate.
  cbn [bind] in H.
  destruct (pack_pcm_ok sample scaled buf buf) as (pcm' & Hp' & Hlen).
  rewrite Ep in Hp'. injection Hp' as <-.
  unfold wav_container, pack_fmt_fields, pack_le32, pack_le16, pack_be32, pack_be16 in H.
  repeat match type of H with
         | context [if ?b then _ else _] => destruct b; [|discriminate H]
         end.
  cbn [bind rev app] in H. injection H as <-.
  exists buf. split; [reflexivity|].
  change (bytes_of_string "RIFF") with [x52; x49; x46; x46].
  change (bytes_of_string "WAVE") with [x57; x41; x56; x45].
  change (bytes_of_string "fmt ") with [x66; x6d; x74; x20].
  change (bytes_of_string "data") with [x64; x61; x74; x61].
  cbn [app]. split.
  - cbn [List.length]. lia.
  - intros i s Hi.
    destruct (pack_pcm_nth sample scaled buf buf pcm Ep i s Hi) as (lo & hi & H1 & H2 & H3).
    exists lo, hi.
    replace (44 + 2 * i + 1)%nat with (44 + (2 * i + 1))%nat by lia.
    cbn [nth_error Nat.add].
    split; [exact H1|]. split; [exact H2|]. split; [exact H3|].
    rewrite H3. unfold clamp. lia.
Qed.

Lemma synthesize_wav_samples_witness :
  exists wav buf,
    synthesize_wav Z 0 Z.add (fun _ _ _ _ _ => 1) (fun _ s => s * 40000)
                   quarter_beat 10 = Ok wav /\
    render_buffer Z 0 Z.add (fun _ _ _ _ _ => 1) 10 quarter_beat = Ok buf /\
    List.length wav = (44 + 2 * List.length buf)%nat.
Proof.
  assert (E : exists wav,
             synthesize_wav Z 0 Z.add (fun _ _ _ _ _ => 1) (fun _ s => s * 40000)
                            quarter_beat 10 = Ok wav)
    by (eexists; vm_compute; reflexivity).
  destruct E as (wav & E).
  destruct (synthesize_wav_samples Z 0 Z.add (fun _ _ _ _ _ => 1) (fun _ s => s * 40000)
              quarter_beat 10 wav E) as (buf & H1 & H2 & _).
  exists wav, buf. repeat split; assumption.
Defined.

(** ** The reply of the model *)

Example clean_fenced :
  _clean_model_response
    (String "010" "```json" ++ String "010" "{a: [1, 2]}" ++ String "010" "```")%string
  = "{a: [1, 2]}"%string.
Proof. reflexivity. Qed.

Example clean_prose :
  _clean_model_response "Here it is: {a: {b: 1}} as asked." = "{a: {b: 1}}"%string.
Proof. reflexivity. Qed.

Lemma drop_prefix_app (cs t : list ascii) : drop_prefix cs (cs ++ t) = Some t.
Proof.
  induction cs as [|c cs IH]; [destruct t; reflexivity|].
  cbn [app drop_prefix]. rewrite Ascii.eqb_refl. exact IH.
Qed.

Lemma drop_prefix_head (c : ascii) (cs s : list ascii) :
  (forall d s', s = d :: s' -> d <> c) -> drop_prefix (c :: cs) s = None.
Proof.
  intros H. destruct s as [|d s']; [reflexivity|]. cbn [drop_prefix].
  destruct (Ascii.eqb_spec c d) as [->|]; [|reflexivity].
  exfalso. exact (H d s' eq_refl eq_refl).
Qed.

Lemma suffix_of_refl (s : list ascii) : suffix_of s s.
Proof. exists []. reflexivity. Qed.

Lemma suffix_of_cons (t s : list ascii) (c : ascii) : suffix_of t s -> suffix_of t (c :: s).
Proof. intros (y & ->). exists (c :: y). reflexivity. Qed.

Lemma suffix_of_trans (a b c : list ascii) : suffix_of a b -> suffix_of b c -> suffix_of a c.
Proof. intros (y & ->) (z & ->). exists (z ++ y). rewrite app_assoc. reflexivity. Qed.

Lemma suffix_of_In (t s : list ascii) (c : ascii) : suffix_of t s -> In c t -> In c s.
Proof. intros (y & ->) H. apply in_or_app. right. exact H. Qed.

Lemma drop_prefix_suffix (cs s rest : list ascii) :
  drop_prefix cs s = Some rest -> suffix_of rest s.
Proof.
  revert s. induction cs as [|c cs IH]; intros s H.
  - destruct s; injection H as <-; apply suffix_of_refl.
  - destruct s as [|d s]; [discriminate|]. cbn [drop_prefix] in H.
    destruct (Ascii.eqb c d); [|discriminate].
    apply suffix_of_cons, IH, H.
Qed.

(** A star fails when the rest of the pattern fails on every suffix. *)
Lemma star_match_none {R : Type} (p : ascii -> bool) (s : list ascii)
      (k : list ascii -> option R) :
  (forall t, suffix_of t s -> k t = None) -> star_match p s k = None.
Proof.
  induction s as [|c s IH]; intros H; cbn [star_match].
  - apply H, suffix_of_refl.
  - rewrite IH by (intros t Ht; apply H, suffix_of_cons, Ht).
    destruct (p c); apply H, suffix_of_refl.
Qed.

Lemma re_match_none {R : Type} (r : regex) :
  forall (s : list ascii) (k : list ascii -> option R),
    (forall t, suffix_of t s -> k t = None) -> re_match r s k = None.
Proof.
  induction r as [cs|p|r IH|r1 IH1 r2 IH2]; intros s k H; cbn [re_match].
  - destruct (drop_prefix cs s) as [rest|] eqn:E; [|reflexivity].
    apply H. eapply drop_prefix_suffix. exact E.
  - apply star_match_none. exact H.
  - rewrite IH by exact H. apply H, suffix_of_refl.
  - apply IH1. intros t Ht. apply IH2. intros u Hu.
    apply H. eapply suffix_of_trans; eassumption.
Qed.

(** A greedy star over blanks takes the whole run when the rest of the
    pattern matches after it. *)
Lemma star_blank_run {R : Type} (ws t : list ascii) (k : list ascii -> option R) (r : R) :
  blank ws -> k t = Some r ->
  (forall c t', t = c :: t' -> is_space c = false) ->
  star_match is_space (ws ++ t) k = Some r.
Proof.
  unfold blank. induction ws as [|c ws IH]; intros Hws Hk Ht.
  - cbn [app]. destruct t as [|c t']; cbn [star_match]; [exact Hk|].
    rewrite (Ht c t' eq_refl). exact Hk.
  - cbn [forallb] in Hws. apply andb_true_iff in Hws. destruct Hws as (Hc & Hws).
    cbn [app star_match]. rewrite Hc, (IH Hws Hk Ht). reflexivity.
Qed.

(** A greedy [.*] stops at the last place where the rest of the pattern
    matches. *)
Lemma star_any_last {R : Type} (x t : list ascii) (k : list ascii -> option R) (r : R) :
  k t = Some r ->
  (forall y t', y <> [] -> t = y ++ t' -> k t' = None) ->
  star_match any_char (x ++ t) k = Some r.
Proof.
  intros Hk Hlast.
  assert (Hbase : star_match any_char t k = Some r).
  { clear x.
    assert (Hn : forall v, (forall y t', y <> [] -> v = y ++ t' -> k t' = None) ->
                           star_match any_char v k = k v).
    { induction v as [|c v IHv]; intros Hv; [reflexivity|].
      cbn [star_match any_char].
      rewrite IHv.
      - rewrite (Hv [c] v); [reflexivity | discriminate | reflexivity].
      - intros y t' Hy E. apply (Hv (c :: y) t'); [discriminate|].
        rewrite E. reflexivity. }
    rewrite Hn; assumption. }
  induction x as [|c x IH]; [exact Hbase|].
  cbn [app star_match any_char]. rewrite IH. reflexivity.
Qed.

Lemma not_In_head (c : ascii) (u s : list ascii) :
  ~ In c s -> suffix_of u s -> forall d u', u = d :: u' -> d <> c.
Proof.
  intros Hno Hsuf d u' -> ->. apply Hno.
  eapply suffix_of_In; [exact Hsuf | left; reflexivity].
Qed.

(** [\{.*\}] takes everything up to the last closing brace. *)
Lemma braces_greedy {R : Type} (inner tail : list ascii)
      (k : list ascii -> option R) (r : R) :
  ~ In "}"%char tail -> k tail = Some r ->
  re_match braces ("{"%char :: inner ++ "}"%char :: tail) k = Some r.
Proof.
  intros Hno Hk. unfold braces. cbn [re_match drop_prefix].
  rewrite Ascii.eqb_refl.
  apply star_any_last.
  - cbn [drop_prefix]. rewrite Ascii.eqb_refl. exact Hk.
  - intros y t' Hy E. destruct y as [|c y]; [contradiction|].
    injection E as _ E.
    change (match drop_prefix ["}"%char] t' with
            | Some rest => k rest
            | None => None
            end = None).
    rewrite drop_prefix_head; [reflexivity|].
    apply (not_In_head _ t' tail Hno). exists y. exact E.
Qed.

Lemma firstn_body (body tail : list ascii) :
  firstn (List.length (body ++ tail) - List.length tail) (body ++ tail) = body.
Proof.
  rewrite length_app. replace (List.length body + List.length tail - List.length tail)%nat
    with (List.length body + 0)%nat by lia.
  rewrite firstn_app_2. cbn [firstn]. apply app_nil_r.
Qed.

Lemma blank_no_brace (ws : list ascii) (c : ascii) :
  blank ws -> is_space c = false -> ~ In c ws.
Proof.
  unfold blank. intros Hws Hc Hin. rewrite forallb_forall in Hws.
  specialize (Hws c Hin). congruence.
Qed.

(** The closing fence: blanks, then three backticks. *)
Lemma fence_close_match {R : Type} (ws : list ascii)
      (k : list ascii -> option R) (r : R) :
  blank ws -> k [] = Some r ->
  re_match fence_close (ws ++ backticks) k = Some r.
Proof.
  intros Hws Hk. unfold fence_close. cbn [re_match].
  apply star_blank_run; [exact Hws | | ].
  - change backticks with (backticks ++ []). rewrite drop_prefix_app. exact Hk.
  - intros c t' E. injection E as <- _. reflexivity.
Qed.

(** The opening fence, with or without [json], then blanks. *)
Lemma fence_open_match {R : Type} (lang ws t : list ascii)
      (k : list ascii -> option R) (r : R) :
  lang = [] \/ lang = list_ascii_of_string "json" ->
  blank ws -> k t = Some r ->
  (forall c t', t = c :: t' -> is_space c = false /\ c <> "j"%char) ->
  re_match fence_open (backticks ++ lang ++ ws ++ t) k = Some r.
Proof.
  intros Hlang Hws Hk Ht. unfold fence_open. cbn [re_match].
  rewrite drop_prefix_app.
  assert (Hrun : star_match is_space (ws ++ t) k = Some r).
  { apply star_blank_run; [exact Hws | exact Hk|].
    intros c t' E. apply (Ht c t' E). }
  destruct Hlang as [-> | ->].
  - cbn [app]. rewrite Hrun.
    change (list_ascii_of_string "json") with ["j"; "s"; "o"; "n"]%char.
    rewrite drop_prefix_head; [reflexivity|].
    intros d s' E. destruct ws as [|c ws].
    + apply (Ht d s' E).
    + cbn [app] in E. injection E as <- _.
      unfold blank in Hws. cbn [forallb] in Hws. apply andb_true_iff in Hws.
      destruct Hws as (Hc & _). intros ->. discriminate Hc.
  - rewrite drop_prefix_app. rewrite Hrun. reflexivity.
Qed.

Lemma strip_braces (inner : list ascii) :
  strip ("{"%char :: inner ++ ["}"%char]) = "{"%char :: inner ++ ["}"%char].
Proof. eapply strip_id; reflexivity. Qed.

(** X16. A reply that is a fenced block, three backticks, an optional
    [json], an object from [{] to [}], three backticks, with blanks allowed
    around each part, is reduced to the object, whatever the object
    holds. *)
Theorem clean_fenced_reply (pre lang ws1 inner ws2 post : list ascii)
        (Hlang : lang = [] \/ lang = list_ascii_of_string "json")
        (Hpre : blank pre) (Hpost : blank post)
        (Hws1 : blank ws1) (Hws2 : blank ws2) :
  clean_chars (pre ++ (backticks ++ lang ++ ws1
                       ++ ("{"%char :: inner ++ ["}"%char]) ++ ws2 ++ backticks)
               ++ post)
  = "{"%char :: inner ++ ["}"%char].
Proof.
  set (body := "{"%char :: inner ++ ["}"%char]).
  set (X := backticks ++ lang ++ ws1 ++ body ++ ws2 ++ backticks).
  unfold clean_chars. rewrite strip_blank_around by assumption.
  assert (HX : strip X = X).
  { apply strip_id with (c := "`"%char) (z := "`"%char)
                        (mid := ["`"; "`"]%char ++ lang ++ ws1 ++ body ++ ws2
                                ++ ["`"; "`"]%char); [|reflexivity|reflexivity].
    unfold X, backticks. cbn [app]. do 2 f_equal. f_equal.
    rewrite <- !app_assoc. reflexivity. }
  rewrite HX.
  assert (Hm : match_at fence_open braces fence_close X = Some body).
  { unfold match_at, X.
    apply fence_open_match; [exact Hlang | exact Hws1 | |].
    - unfold body. cbn [app]. rewrite <- app_assoc. cbn [app].
      apply braces_greedy.
      + intros Hin. apply in_app_or in Hin. destruct Hin as [Hin|Hin].
        * exact (blank_no_brace ws2 "}"%char Hws2 eq_refl Hin).
        * unfold backticks in Hin. simpl in Hin.
          destruct Hin as [E|[E|[E|[]]]]; discriminate E.
      + apply fence_close_match; [exact Hws2|].
        f_equal.
        change ("{"%char :: inner ++ "}"%char :: ws2 ++ backticks)
          with (("{"%char :: inner) ++ "}"%char :: ws2 ++ backticks).
        replace (("{"%char :: inner) ++ "}"%char :: ws2 ++ backticks)
          with (("{"%char :: inner ++ ["}"%char]) ++ (ws2 ++ backticks))
          by (cbn [app]; rewrite <- app_assoc; reflexivity).
        apply firstn_body.
    - intros c t' E. unfold body in E. cbn [app] in E. injection E as <- _.
      split; [reflexivity | discriminate]. }
  assert (Hs : re_search fence_open braces fence_close X = Some body).
  { destruct X; cbn [re_search]; rewrite Hm; reflexivity. }
  rewrite Hs. apply strip_braces.
Qed.

Lemma clean_fenced_reply_witness :
  clean_chars ([" "%char] ++ (backticks ++ list_ascii_of_string "json" ++ ["010"%char]
                              ++ ("{"%char :: list_ascii_of_string "a: 1" ++ ["}"%char])
                              ++ ["010"%char] ++ backticks)
               ++ ["010"%char])
  = "{"%char :: list_ascii_of_string "a: 1" ++ ["}"%char].
Proof.
  apply clean_fenced_reply; auto; reflexivity.
Defined.

Lemma search_without_brace (before after : regex) (s : list ascii) :
  ~ In "{"%char s -> re_search before braces after s = None.
Proof.
  induction s as [|c s IH]; intros Hno.
  - cbn [re_search]. unfold match_at. rewrite re_match_none; [reflexivity|].
    intros t Ht. unfold braces. cbn [re_match].
    rewrite drop_prefix_head; [reflexivity|]. apply (not_In_head _ t [] Hno Ht).
  - cbn [re_search]. unfold match_at. rewrite re_match_none.
    + apply IH. intros Hin. apply Hno. right. exact Hin.
    + intros t Ht. unfold braces. cbn [re_match].
      rewrite drop_prefix_head; [reflexivity|]. apply (not_In_head _ t (c :: s) Hno Ht).
Qed.

Lemma search_without_backtick (s : list ascii) :
  ~ In "`"%char s -> re_search fence_open braces fence_close s = None.
Proof.
  assert (Hat : forall u, ~ In "`"%char u -> match_at fence_open braces fence_close u = None).
  { intros u Hno. unfold match_at, fence_open, backticks. cbn [re_match].
    rewrite drop_prefix_head; [reflexivity|].
    apply (not_In_head _ u u Hno (suffix_of_refl u)). }
  induction s as [|c s IH]; intros Hno; cbn [re_search]; rewrite (Hat _ Hno);
    [reflexivity|].
  apply IH. intros Hin. apply Hno. right. exact Hin.
Qed.

(** X17. A reply with nothing to extract comes back stripped and
    otherwise unchanged: one that holds no opening brace at all, and one
    that starts with [{] and holds no backtick. *)
Theorem clean_keeps_plain_reply (raw : list ascii)
        (H : ~ In "{"%char (strip raw) \/
             (~ In "`"%char (strip raw) /\ exists rest, strip raw = "{"%char :: rest)) :
  clean_chars raw = strip raw.
Proof.
  unfold clean_chars. destruct H as [Hno|(Hno & rest & E)].
  - rewrite !search_without_brace by exact Hno.
    destruct (drop_prefix ["{"%char] (strip raw)); reflexivity.
  - rewrite search_without_backtick by exact Hno.
    rewrite E. cbn [drop_prefix]. rewrite Ascii.eqb_refl. reflexivity.
Qed.

Lemma clean_keeps_plain_reply_witness :
  clean_chars (list_ascii_of_string " {a: 1} ") = list_ascii_of_string "{a: 1}".
Proof.
  apply (clean_keeps_plain_reply (list_ascii_of_string " {a: 1} ")).
  right. split.
  - vm_compute. intuition discriminate.
  - eexists. vm_compute. reflexivity.
Defined.

Lemma search_braces_in_prose (pre inner post : list ascii) :
  ~ In "{"%char pre -> ~ In "}"%char post ->
  re_search (Lit []) braces (Lit []) (pre ++ "{"%char :: inner ++ "}"%char :: post)
  = Some ("{"%char :: inner ++ ["}"%char]).
Proof.
  intros Hpre Hpost. induction pre as [|c pre IH].
  - cbn [app].
    assert (Hm : match_at (Lit []) braces (Lit [])
                          ("{"%char :: inner ++ "}"%char :: post)
                 = Some ("{"%char :: inner ++ ["}"%char])).
    { unfold match_at. cbn [re_match drop_prefix].
      apply braces_greedy; [exact Hpost|].
      cbn [re_match drop_prefix]. f_equal.
      replace ("{"%char :: inner ++ "}"%char :: post)
        with (("{"%char :: inner ++ ["}"%char]) ++ post)
        by (cbn [app]; rewrite <- app_assoc; reflexivity).
      apply firstn_body. }
    destruct post; cbn [re_search]; rewrite Hm; reflexivity.
  - cbn [app re_search].
    assert (Hm : match_at (Lit []) braces (Lit [])
                          (c :: pre ++ "{"%char :: inner ++ "}"%char :: post) = None).
    { unfold match_at, braces. cbn [re_match drop_prefix].
      destruct (Ascii.eqb_spec "{"%char c) as [<-|]; [|reflexivity].
      exfalso. apply Hpre. left. reflexivity. }
    rewrite Hm. apply IH. intros Hin. apply Hpre. right. exact Hin.
Qed.

(** X18. Prose around an object is dropped: when the stripped reply
    holds no backtick and reads as some text without [{], then [{ ... }],
    then text without [}], the result is the span from the first [{] to the
    last [}]. *)
Theorem clean_drops_prose (raw pre inner post : list ascii)
        (Hraw : strip raw = pre ++ "{"%char :: inner ++ "}"%char :: post)
        (Htick : ~ In "`"%char (strip raw))
        (Hne : pre <> [])
        (Hpre : ~ In "{"%char pre) (Hpost : ~ In "}"%char post) :
  clean_chars raw = "{"%char :: inner ++ ["}"%char].
Proof.
  unfold clean_chars. rewrite search_without_backtick by exact Htick.
  rewrite Hraw. rewrite search_braces_in_prose by assumption.
  rewrite strip_braces.
  destruct pre as [|c pre]; [contradiction Hne; reflexivity|].
  cbn [app drop_prefix].
  destruct (Ascii.eqb_spec "{"%char c) as [<-|]; [|reflexivity].
  exfalso. apply Hpre. left. reflexivity.
Qed.

Lemma clean_drops_prose_witness :
  clean_chars (list_ascii_of_string "Here: {a: {b: 1}} ok.")
  = list_ascii_of_string "{a: {b: 1}}".
Proof.
  apply (clean_drops_prose (list_ascii_of_string "Here: {a: {b: 1}} ok.")
                           (list_ascii_of_string "Here: ")
                           (list_ascii_of_string "a: {b: 1}")
                           (list_ascii_of_string " ok.")).
  - vm_compute. reflexivity.
  - vm_compute. intuition discriminate.
  - discriminate.
  - vm_compute. intuition discriminate.
  - vm_compute. intuition discriminate.
Defined.

(** The object alone, followed by more text, is not trimmed: a reply that
    starts with [{] comes back as it is. *)
Example clean_keeps_trailing_text :
  clean_chars (list_ascii_of_string "{a: 1} ok.") = list_ascii_of_string "{a: 1} ok.".
Proof. vm_compute. reflexivity. Qed.

(** ** What every result looks like *)

Lemma drop_prefix_sound (cs s rest : list ascii) :
  drop_prefix cs s = Some rest -> s = cs ++ rest.
Proof.
  revert s. induction cs as [|c cs IH]; intros s H.
  - cbn [drop_prefix] in H. destruct s; injection H as <-; reflexivity.
  - destruct s as [|d s]; [discriminate H|]. cbn [drop_prefix] in H.
    destruct (Ascii.eqb_spec c d) as [<-|]; [|discriminate H].
    cbn [app]. f_equal. apply IH. exact H.
Qed.

Lemma star_match_sound {R : Type} (p : ascii -> bool) (s : list ascii)
      (k : list ascii -> option R) (x : R) :
  star_match p s k = Some x -> exists m t, s = m ++ t /\ k t = Some x.
Proof.
  induction s as [|c s IH]; cbn [star_match]; intros H.
  - exists [], []. split; [reflexivity | exact H].
  - destruct (p c).
    + destruct (star_match p s k) as [r|] eqn:E.
      * injection H as ->. destruct (IH eq_refl) as (m & t & -> & Hk).
        exists (c :: m), t. split; [reflexivity | exact Hk].
      * exists [], (c :: s). split; [reflexivity | exact H].
    + exists [], (c :: s). split; [reflexivity | exact H].
Qed.

Lemma re_match_sound {R : Type} (r : regex) :
  forall (s : list ascii) (k : list ascii -> option R) (x : R),
    re_match r s k = Some x -> exists m t, s = m ++ t /\ k t = Some x.
Proof.
  induction r as [cs|p|r IH|r1 IH1 r2 IH2]; intros s k x H; cbn [re_match] in H.
  - destruct (drop_prefix cs s) as [rest|] eqn:E; [|discriminate H].
    exists cs, rest. split; [apply drop_prefix_sound; exact E | exact H].
  - apply star_match_sound with (p := p). exact H.
  - destruct (re_match r s k) as [y|] eqn:E.
    + injection H as ->. apply IH. exact E.
    + exists [], s. split; [reflexivity | exact H].
  - destruct (IH1 _ _ _ H) as (m1 & t1 & -> & H2).
    destruct (IH2 _ _ _ H2) as (m2 & t2 & -> & Hk).
    exists (m1 ++ m2), t2. split; [apply app_assoc | exact Hk].
Qed.

Lemma match_at_braces (before after : regex) (s g : list ascii) :
  match_at before braces after s = Some g ->
  exists m inner t, s = m ++ ("{"%char :: inner ++ ["}"%char]) ++ t /\
                    g = "{"%char :: inner ++ ["}"%char].
Proof.
  unfold match_at. intros H.
  destruct (re_match_sound _ _ _ _ H) as (m & s1 & -> & H1).
  unfold braces in H1. cbn [re_match] in H1.
  destruct (drop_prefix ["{"%char] s1) as [rest|] eqn:E1; [|discriminate H1].
  apply drop_prefix_sound in E1. cbn [app] in E1.
  destruct (star_match_sound _ _ _ _ H1) as (inner & t1 & -> & H2).
  destruct (drop_prefix ["}"%char] t1) as [s2|] eqn:E2; [|discriminate H2].
  apply drop_prefix_sound in E2. cbn [app] in E2. subst t1.
  destruct (re_match_sound _ _ _ _ H2) as (_ & _ & _ & H3).
  injection H3 as <-. subst s1.
  exists m, inner, s2. split.
  - cbn [app]. rewrite <- app_assoc. reflexivity.
  - replace ("{"%char :: inner ++ "}"%char :: s2)
      with (("{"%char :: inner ++ ["}"%char]) ++ s2)
      by (cbn [app]; rewrite <- app_assoc; reflexivity).
    apply firstn_body.
Qed.

Lemma re_search_braces (before after : regex) (s g : list ascii) :
  re_search before braces after s = Some g ->
  exists pre inner post, s = pre ++ ("{"%char :: inner ++ ["}"%char]) ++ post /\
                         g = "{"%char :: inner ++ ["}"%char].
Proof.
  induction s as [|c s IH]; cbn [re_search]; intros H.
  - destruct (match_at before braces after []) as [g'|] eqn:E; [|discriminate H].
    injection H as ->. apply match_at_braces in E. exact E.
  - destruct (match_at before braces after (c :: s)) as [g'|] eqn:E.
    + injection H as ->. apply match_at_braces in E. exact E.
    + destruct (IH H) as (pre & inner & post & -> & ->).
      exists (c :: pre), inner, post. split; reflexivity.
Qed.

Lemma lstrip_split (s : list ascii) :
  exists ws, blank ws /\ s = ws ++ lstrip s.
Proof.
  induction s as [|c s (ws & Hws & E)]; [exists []; split; reflexivity|].
  cbn [lstrip]. destruct (is_space c) eqn:Hc.
  - exists (c :: ws). split.
    + unfold blank in *. cbn [forallb]. rewrite Hc, Hws. reflexivity.
    + cbn [app]. f_equal. exact E.
  - exists []. split; reflexivity.
Qed.

Lemma lstrip_head (s : list ascii) (c : ascii) (t : list ascii) :
  lstrip s = c :: t -> is_space c = false.
Proof.
  induction s as [|d s IH]; cbn [lstrip]; [discriminate|].
  destruct (is_space d) eqn:Hd; [exact IH|].
  intros H. injection H as <- _. exact Hd.
Qed.

Lemma lstrip_fixed (s : list ascii) :
  lstrip s = s <-> (forall c t, s = c :: t -> is_space c = false).
Proof.
  split.
  - intros H c t E. apply (lstrip_head s c t). rewrite H. exact E.
  - intros H. destruct s as [|c t]; [reflexivity|].
    apply lstrip_id. apply (H c t eq_refl).
Qed.

Lemma strip_idempotent (s : list ascii) : strip (strip s) = strip s.
Proof.
  unfold strip. set (t := lstrip s). set (u := lstrip (rev t)).
  assert (Hu : lstrip u = u).
  { apply lstrip_fixed. intros c r E. apply (lstrip_head (rev t) c r). exact E. }
  assert (Hr : lstrip (rev u) = rev u).
  { apply lstrip_fixed. intros c r E.
    destruct (lstrip_split (rev t)) as (ws & Hws & Et). fold u in Et.
    assert (Ht : t = c :: r ++ rev ws).
    { rewrite <- (rev_involutive t), Et, rev_app_distr, E. reflexivity. }
    apply (lstrip_head s c (r ++ rev ws)). exact Ht. }
  rewrite Hr, rev_involutive, Hu. reflexivity.
Qed.

(** X19. Whatever the reply, the result is either the stripped reply
    itself or a piece of it that runs from a [{] to a [}].  In both cases
    the result has no whitespace left around it. *)
Theorem clean_result_shape (raw : list ascii) :
  (clean_chars raw = strip raw \/
   exists pre inner post,
     strip raw = pre ++ ("{"%char :: inner ++ ["}"%char]) ++ post /\
     clean_chars raw = "{"%char :: inner ++ ["}"%char]) /\
  strip (clean_chars raw) = clean_chars raw.
Proof.
  assert (Hshape : clean_chars raw = strip raw \/
                   exists pre inner post,
                     strip raw = pre ++ ("{"%char :: inner ++ ["}"%char]) ++ post /\
                     clean_chars raw = "{"%char :: inner ++ ["}"%char]).
  { unfold clean_chars.
    destruct (re_search fence_open braces fence_close (strip raw)) as [g|] eqn:E1.
    - right. destruct (re_search_braces _ _ _ _ E1) as (pre & inner & post & E & ->).
      exists pre, inner, post. split; [exact E | apply strip_braces].
    - destruct (drop_prefix ["{"%char] (strip raw)); [left; reflexivity|].
      destruct (re_search (Lit []) braces (Lit []) (strip raw)) as [g|] eqn:E2;
        [|left; reflexivity].
      right. destruct (re_search_braces _ _ _ _ E2) as (pre & inner & post & E & ->).
      exists pre, inner, post. split; [exact E | apply strip_braces]. }
  split; [exact Hshape|].
  destruct Hshape as [->|(pre & inner & post & _ & ->)].
  - apply strip_idempotent.
  - apply strip_braces.
Qed.
